(** * Klondike draw-three engine: a shallow embedding and its properties

    The development follows the engine class [Klondike3Engine] (the
    Undo-integrated version) and the shared [UndoManager].

    - JavaScript arrays are lists in array order: index 0 is the head of
      the list and the top of a pile is the last element, so [pop] takes
      from the end and [push] appends.
    - Card objects are modelled as values.  The engine mutates a card
      only by assigning [faceUp], and only on the card it has just
      popped (stock, waste, deal) or on the last card of a tableau
      column (reveal); each assignment is written as the replacement of
      that pile element.  Values and objects agree as long as the object
      assigned to is not held at a second place; snapshots are deep
      copies, which on values is the identity.
    - Location strings ('waste', 'foundation-<i>', 'tableau-<i>',
      'floating') are modelled by the type [Location]; the index is the
      result of [parseInt(location.split('-')[1])].
    - A method is a function on the engine object that also tells
      whether it returned or threw ([M] below).  A read of a property of
      [undefined] is the only way the modelled code throws.
    - The DOM enters only through what listeners read from it: the
      dataset of the card element acted on ([CardElement]) and whether
      the elements of an animation were found.  Timers and animation
      frames are events of their own ([step]). *)

From Stdlib Require Import ZArith QArith Lia.
From stdpp Require Import base option list strings pretty.

Local Open Scope Z_scope.
Local Open Scope nat_scope.

(* ===================================================================== *)
(** ** Cards and game state *)
(* ===================================================================== *)

(** [{ suit, rank, faceUp, id }] as pushed by [createDeck]. *)
Record Card := mkCard {
  suit : nat;
  rank : Z;
  faceUp : bool;
  id : string
}.

#[global] Instance Card_eq_dec : EqDecision Card.
Proof. solve_decision. Defined.

(** [card.faceUp = b] *)
Definition setFaceUp (b : bool) (c : Card) : Card :=
  mkCard (suit c) (rank c) b (id c).

Record GameState := mkGameState {
  stock : list Card;
  waste : list Card;
  foundations : list (list Card);
  tableau : list (list Card);
  moveCount : nat;
  score : Z
}.

#[global] Instance GameState_eq_dec : EqDecision GameState.
Proof. solve_decision. Defined.

Definition set_stock (x : list Card) (g : GameState) : GameState :=
  mkGameState x (waste g) (foundations g) (tableau g) (moveCount g) (score g).
Definition set_waste (x : list Card) (g : GameState) : GameState :=
  mkGameState (stock g) x (foundations g) (tableau g) (moveCount g) (score g).
Definition set_foundations (x : list (list Card)) (g : GameState) : GameState :=
  mkGameState (stock g) (waste g) x (tableau g) (moveCount g) (score g).
Definition set_tableau (x : list (list Card)) (g : GameState) : GameState :=
  mkGameState (stock g) (waste g) (foundations g) x (moveCount g) (score g).
Definition set_moveCount (x : nat) (g : GameState) : GameState :=
  mkGameState (stock g) (waste g) (foundations g) (tableau g) x (score g).
Definition set_score (x : Z) (g : GameState) : GameState :=
  mkGameState (stock g) (waste g) (foundations g) (tableau g) (moveCount g) x.

(** The literal assigned in [initializeGameState] and [startNewDeal]. *)
Definition emptyGameState : GameState :=
  mkGameState [] [] [[]; []; []; []] [[]; []; []; []; []; []; []] 0 0%Z.

(** ** Array helpers *)

(** [arr.pop()] : the removed element ([None] for [undefined]) and the
    remaining array. *)
Definition pop {A} (l : list A) : option A * list A :=
  (last l, take (length l - 1) l).

(** [arr.splice(-n, n)] for [n > 0]: drops the last [n] elements (all of
    them when [n] exceeds the length). *)
Definition spliceLast {A} (n : nat) (l : list A) : list A :=
  take (length l - n) l.

(** [arr.slice(i)] *)
Definition slice {A} (i : nat) (l : list A) : list A := drop i l.

(** [arr.slice(-n)] *)
Definition sliceLast {A} (n : nat) (l : list A) : list A :=
  drop (length l - n) l.

(** [arr.findIndex(c => c.id === cardId)], [None] for [-1]. *)
Definition findIndexById (cardId : string) (l : list Card) : option nat :=
  fst <$> list_find (λ c, id c = cardId) l.

(** [arr.find(c => c.id === cardId)] *)
Definition findById (cardId : string) (l : list Card) : option Card :=
  snd <$> list_find (λ c, id c = cardId) l.

(** [arr[i]] for a JavaScript number [i] that may be negative. *)
Definition lookupZ {A} (l : list A) (i : Z) : option A :=
  if (i <? 0)%Z then None else l !! Z.to_nat i.

(** [arr[i] = x] for such an index, on an index already known to exist. *)
Definition insertZ {A} (i : Z) (x : A) (l : list A) : list A :=
  if (i <? 0)%Z then l else <[Z.to_nat i := x]> l.

(* ===================================================================== *)
(** ** Undo manager (undoManager.js) *)
(* ===================================================================== *)

Module UndoManager.

(** The closure variables [history] (index 0 = oldest) and
    [maxHistory].  [cloneState] is a structural deep copy; on values it
    is the identity. *)
Record t := mk {
  history : list GameState;
  maxHistory : nat
}.

Definition init : t := mk [] 500.

Definition cloneState (snapshot : GameState) : GameState := snapshot.

Definition reset (u : t) : t := mk [] (maxHistory u).

(** [setMaxHistory(limit)] for a positive integer limit; other values
    are ignored by the source. *)
Definition setMaxHistory (limit : nat) (u : t) : t :=
  if 0 <? limit then
    if limit <? length (history u)
    then mk (slice (length (history u) - limit) (history u)) limit
    else mk (history u) limit
  else u.

(** [pushSnapshot(snapshot)] for a non-null snapshot. *)
Definition pushSnapshot (snapshot : GameState) (u : t) : t :=
  let cloned := cloneState snapshot in
  let h := history u ++ [cloned] in
  if maxHistory u <? length h
  then mk (drop (length h - maxHistory u) h) (maxHistory u)
  else mk h (maxHistory u).

Definition canUndo (u : t) : bool := 0 <? length (history u).

(** [undo()] : the popped snapshot ([None] for [null]) and the manager
    afterwards. *)
Definition undo (u : t) : option GameState * t :=
  if negb (canUndo u) then (None, u)
  else (fst (pop (history u)), mk (snd (pop (history u))) (maxHistory u)).

Definition getHistorySize (u : t) : nat := length (history u).

End UndoManager.

(* ===================================================================== *)
(** ** Engine object *)
(* ===================================================================== *)

Inductive Location :=
| LWaste
| LFoundation (i : nat)
| LTableau (i : nat)
| LFloating.

#[global] Instance Location_eq_dec : EqDecision Location.
Proof. solve_decision. Defined.

(** Hint descriptions returned by [computeHintMove]. *)
Inductive HintType := TableauToFoundation | TableauToTableau | WasteToTableau.
Inductive HintFrom :=
| FromTableau (colIndex : nat) (cardId : string)
| FromWaste (cardId : string).
Inductive HintTo :=
| ToTableau (colIndex : nat)
| ToFoundation (foundationIndex : Z).

Record HintMove := mkHint {
  hintType : HintType;
  hintFrom : HintFrom;
  hintTo : HintTo;
  willFlip : bool
}.

#[global] Instance HintType_eq_dec : EqDecision HintType.
Proof. solve_decision. Defined.
#[global] Instance HintFrom_eq_dec : EqDecision HintFrom.
Proof. solve_decision. Defined.
#[global] Instance HintTo_eq_dec : EqDecision HintTo.
Proof. solve_decision. Defined.
#[global] Instance HintMove_eq_dec : EqDecision HintMove.
Proof. solve_decision. Defined.

(** [this.dragData]: [draggedCards] is [None] when the field was never
    assigned (tableau card not found in its column). *)
Record DragData := mkDrag {
  dragCardId : string;
  dragLocation : Location;
  draggedCards : option (list Card)
}.

(** Payloads handed to the shell callbacks.  [timeSeconds] of the win
    payload depends on the wall clock and is left out. *)
Inductive Notification :=
| OnFirstMove
| OnMove (moves : nat) (score : Z) (stockCount : nat)
| OnWin (moves : nat) (score : Z)
| OnReset.

Record Engine := mkEngine {
  gameState : GameState;
  firstMoveDone : bool;
  currentHint : option HintMove;
  isMoveAnimating : bool;
  isFlipAnimating : bool;
  revealedCardIds : list string;
  animationSpeedPreset : string;
  animationBaseMs : Z;
  animationsEnabled : bool;
  dragData : option DragData;
  (** [window.UndoManager], [None] when it is not installed *)
  undoManager : option UndoManager.t;
  (** every callback invocation so far, oldest first *)
  notifications : list Notification
}.

Definition set_gameState (x : GameState) (e : Engine) : Engine :=
  mkEngine x (firstMoveDone e) (currentHint e) (isMoveAnimating e)
    (isFlipAnimating e) (revealedCardIds e) (animationSpeedPreset e)
    (animationBaseMs e) (animationsEnabled e) (dragData e) (undoManager e)
    (notifications e).
Definition set_firstMoveDone (x : bool) (e : Engine) : Engine :=
  mkEngine (gameState e) x (currentHint e) (isMoveAnimating e)
    (isFlipAnimating e) (revealedCardIds e) (animationSpeedPreset e)
    (animationBaseMs e) (animationsEnabled e) (dragData e) (undoManager e)
    (notifications e).
Definition set_currentHint (x : option HintMove) (e : Engine) : Engine :=
  mkEngine (gameState e) (firstMoveDone e) x (isMoveAnimating e)
    (isFlipAnimating e) (revealedCardIds e) (animationSpeedPreset e)
    (animationBaseMs e) (animationsEnabled e) (dragData e) (undoManager e)
    (notifications e).
Definition set_isMoveAnimating (x : bool) (e : Engine) : Engine :=
  mkEngine (gameState e) (firstMoveDone e) (currentHint e) x
    (isFlipAnimating e) (revealedCardIds e) (animationSpeedPreset e)
    (animationBaseMs e) (animationsEnabled e) (dragData e) (undoManager e)
    (notifications e).
Definition set_isFlipAnimating (x : bool) (e : Engine) : Engine :=
  mkEngine (gameState e) (firstMoveDone e) (currentHint e) (isMoveAnimating e)
    x (revealedCardIds e) (animationSpeedPreset e) (animationBaseMs e)
    (animationsEnabled e) (dragData e) (undoManager e) (notifications e).
Definition set_revealedCardIds (x : list string) (e : Engine) : Engine :=
  mkEngine (gameState e) (firstMoveDone e) (currentHint e) (isMoveAnimating e)
    (isFlipAnimating e) x (animationSpeedPreset e) (animationBaseMs e)
    (animationsEnabled e) (dragData e) (undoManager e) (notifications e).
Definition set_animationSpeedPreset (x : string) (e : Engine) : Engine :=
  mkEngine (gameState e) (firstMoveDone e) (currentHint e) (isMoveAnimating e)
    (isFlipAnimating e) (revealedCardIds e) x (animationBaseMs e)
    (animationsEnabled e) (dragData e) (undoManager e) (notifications e).
Definition set_animationBaseMs (x : Z) (e : Engine) : Engine :=
  mkEngine (gameState e) (firstMoveDone e) (currentHint e) (isMoveAnimating e)
    (isFlipAnimating e) (revealedCardIds e) (animationSpeedPreset e) x
    (animationsEnabled e) (dragData e) (undoManager e) (notifications e).
Definition set_animationsEnabled (x : bool) (e : Engine) : Engine :=
  mkEngine (gameState e) (firstMoveDone e) (currentHint e) (isMoveAnimating e)
    (isFlipAnimating e) (revealedCardIds e) (animationSpeedPreset e)
    (animationBaseMs e) x (dragData e) (undoManager e) (notifications e).
Definition set_dragData (x : option DragData) (e : Engine) : Engine :=
  mkEngine (gameState e) (firstMoveDone e) (currentHint e) (isMoveAnimating e)
    (isFlipAnimating e) (revealedCardIds e) (animationSpeedPreset e)
    (animationBaseMs e) (animationsEnabled e) x (undoManager e)
    (notifications e).
Definition set_undoManager (x : option UndoManager.t) (e : Engine) : Engine :=
  mkEngine (gameState e) (firstMoveDone e) (currentHint e) (isMoveAnimating e)
    (isFlipAnimating e) (revealedCardIds e) (animationSpeedPreset e)
    (animationBaseMs e) (animationsEnabled e) (dragData e) x (notifications e).
Definition notify (n : Notification) (e : Engine) : Engine :=
  mkEngine (gameState e) (firstMoveDone e) (currentHint e) (isMoveAnimating e)
    (isFlipAnimating e) (revealedCardIds e) (animationSpeedPreset e)
    (animationBaseMs e) (animationsEnabled e) (dragData e) (undoManager e)
    (notifications e ++ [n]).

(** The engine as built by the constructor, after [initializeGameState]. *)
Definition newEngine (um : option UndoManager.t) : Engine :=
  mkEngine emptyGameState false None false false [] "normal" 80%Z true None um [].

(** ** Methods: state passing with exceptions

    A method maps the engine to its return value and the engine
    afterwards; [None] as return value stands for a thrown [TypeError]
    (a property read on [undefined]), the engine then being the object
    as left at the throw. *)
Definition M (A : Type) : Type := Engine → option A * Engine.

#[global] Instance M_ret : MRet M := λ A a e, (Some a, e).
#[global] Instance M_bind : MBind M := λ A B f m e,
  match m e with
  | (Some a, e') => f a e'
  | (None, e') => (None, e')
  end.

Definition throw {A} : M A := λ e, (None, e).
Definition gets {A} (f : Engine → A) : M A := λ e, (Some (f e), e).
Definition modify (f : Engine → Engine) : M unit := λ e, (Some tt, f e).
Definition getsG {A} (f : GameState → A) : M A := gets (λ e, f (gameState e)).
Definition modifyG (f : GameState → GameState) : M unit :=
  modify (λ e, set_gameState (f (gameState e)) e).
(** Reading through a value that may be [undefined]. *)
Definition defined {A} (o : option A) : M A :=
  match o with Some a => mret a | None => throw end.

(* ===================================================================== *)
(** ** Deck construction and dealing *)
(* ===================================================================== *)

(** [`card-${suit}-${rank}`] *)
Definition cardId (s : nat) (r : Z) : string :=
  "card-" +:+ pretty s +:+ "-" +:+ pretty r.

Definition suits : list nat := [0; 1; 2; 3].
Definition ranks : list Z := [1; 2; 3; 4; 5; 6; 7; 8; 9; 10; 11; 12; 13]%Z.

Definition createDeck : list Card :=
  s ← suits; r ← ranks; [mkCard s r false (cardId s r)].

(** [[deck[i], deck[j]] = [deck[j], deck[i]]] for two existing indices. *)
Definition swap (i j : nat) (deck : list Card) : list Card :=
  match deck !! i, deck !! j with
  | Some a, Some b => <[j := a]> (<[i := b]> deck)
  | _, _ => deck
  end.

(** Fisher-Yates.  [rand i] is the value of
    [Math.floor(Math.random() * (i + 1))] drawn at iteration [i]; it lies
    in [0..i], so both swapped indices always exist. *)
Definition shuffleDeck (rand : nat → nat) (deck : list Card) : list Card :=
  foldl (λ d i, swap i (rand i) d) deck (reverse (seq 1 (length deck - 1))).

(** One iteration of the inner loop of [dealTableau]; [None] when the
    deck has run out (the source then reads [faceUp] of [undefined]). *)
Definition dealCard (st : list Card * list (list Card)) (cr : nat * nat)
  : option (list Card * list (list Card)) :=
  let '(deck, tab) := st in
  let '(col, row) := cr in
  card ← fst (pop deck);
  column ← tab !! col;
  let card' := if row =? col then setFaceUp true card else card in
  Some (snd (pop deck), <[col := column ++ [card']]> tab).

Fixpoint foldO {A B} (f : A → B → option A) (a : A) (l : list B) : option A :=
  match l with
  | [] => Some a
  | b :: l' => match f a b with Some a' => foldO f a' l' | None => None end
  end.

(** The iteration space of the two nested loops, in execution order. *)
Definition dealOrder : list (nat * nat) :=
  col ← seq 0 7; row ← seq 0 (S col); [(col, row)].

Definition dealTableau (deck : list Card) (tab : list (list Card))
  : option (list Card * list (list Card)) :=
  foldO dealCard (deck, tab) dealOrder.

(* ===================================================================== *)
(** ** Move engine *)
(* ===================================================================== *)

Definition captureUndoSnapshot : M unit :=
  modify (λ e,
    match undoManager e with
    | None => e
    | Some u => set_undoManager (Some (UndoManager.pushSnapshot (gameState e) u)) e
    end).

(** [revealedCardIds.add(id)] on a [Set] *)
Definition setAdd (x : string) (l : list string) : list string :=
  if decide (x ∈ l) then l else l ++ [x].

Definition registerMove : M unit :=
  modify (set_currentHint None);;
  done ← gets firstMoveDone;
  (if negb done
   then modify (set_firstMoveDone true);; modify (notify OnFirstMove)
   else mret tt);;
  modifyG (λ g, set_moveCount (S (moveCount g)) g);;
  g ← gets gameState;
  modify (notify (OnMove (moveCount g) (score g) (length (stock g)))).

Definition totalInFoundations (g : GameState) : nat :=
  foldl (λ sum pile, sum + length pile) 0 (foundations g).

Definition checkWinCondition : M unit :=
  g ← gets gameState;
  if totalInFoundations g =? 52
  then modify (notify (OnWin (moveCount g) (score g)))
  else mret tt.

(** [canMoveToFoundation(card)]: the foundation index, [-1] when the
    card does not fit; [None] when [foundations[card.suit]] is
    [undefined]. *)
Definition canMoveToFoundation (g : GameState) (card : Card) : option Z :=
  foundation ← foundations g !! suit card;
  match last foundation with
  | None =>
      Some (if (rank card =? 1)%Z then Z.of_nat (suit card) else (-1)%Z)
  | Some topCard =>
      Some (if (rank card =? rank topCard + 1)%Z
            then Z.of_nat (suit card) else (-1)%Z)
  end.

Definition isRed (c : Card) : bool := (suit c =? 0) || (suit c =? 1).

(** [canMoveToTableau(cards, colIndex)]; [None] when
    [tableau[colIndex]] is [undefined]. *)
Definition canMoveToTableau (g : GameState) (cards : list Card) (colIndex : nat)
  : option bool :=
  match cards with
  | [] => Some false
  | bottomCard :: _ =>
      column ← tableau g !! colIndex;
      match last column with
      | None => Some (rank bottomCard =? 13)%Z
      | Some topCard =>
          if negb (faceUp topCard) then Some false
          else
            let topIsRed := isRed topCard in
            let bottomIsRed := isRed bottomCard in
            let isOppositeColor := negb (eqb topIsRed bottomIsRed) in
            let isOneRankLower := (rank bottomCard =? rank topCard - 1)%Z in
            Some (isOppositeColor && isOneRankLower)
      end
  end.

Definition addScore (d : Z) : M unit :=
  modifyG (λ g, set_score (score g + d)%Z g).

(** The reveal step shared by both move methods: if the column is
    non-empty and its last card is face down, flip it, remember its id
    and add 5 points.  Returns the column afterwards. *)
Definition revealTop (column : list Card) : M (list Card) :=
  match last column with
  | Some revealedCard =>
      if negb (faceUp revealedCard) then
        modify (λ e, set_revealedCardIds
                       (setAdd (id revealedCard) (revealedCardIds e)) e);;
        addScore 5;;
        mret (snd (pop column) ++ [setFaceUp true revealedCard])
      else mret column
  | None => mret column
  end.

(** The block "Remove cards from source" of [moveCardsToTableau]. *)
Definition removeRunFromSource (fromLocation : Location) (cards : list Card)
  : M unit :=
  match fromLocation with
  | LWaste =>
      w ← getsG waste;
      if (length cards =? 1) && (0 <? length w)
      then modifyG (set_waste (snd (pop w)));; addScore 5
      else mret tt
  | LFoundation foundationIndex =>
      if length cards =? 1 then
        f ← getsG (λ g, foundations g !! foundationIndex) ≫= defined;
        if 0 <? length f
        then modifyG (λ g, set_foundations
                             (<[foundationIndex := snd (pop f)]> (foundations g)) g);;
             addScore (-15)
        else mret tt
      else mret tt
  | LTableau fromColIndex =>
      fromColumn ← getsG (λ g, tableau g !! fromColIndex) ≫= defined;
      let fromColumn := spliceLast (length cards) fromColumn in
      modifyG (λ g, set_tableau (<[fromColIndex := fromColumn]> (tableau g)) g);;
      fromColumn ← revealTop fromColumn;
      modifyG (λ g, set_tableau (<[fromColIndex := fromColumn]> (tableau g)) g)
  | LFloating => mret tt
  end.

(** [this.gameState.tableau[toColIndex].push(...cards)] *)
Definition pushToTableau (toColIndex : nat) (cards : list Card) : M unit :=
  dest ← getsG (λ g, tableau g !! toColIndex) ≫= defined;
  modifyG (λ g, set_tableau (<[toColIndex := dest ++ cards]> (tableau g)) g).

Definition moveCardsToTableau (fromLocation : Location) (toColIndex : nat)
    (cards : list Card) : M bool :=
  can ← getsG (λ g, canMoveToTableau g cards toColIndex) ≫= defined;
  if negb can then mret false else
  captureUndoSnapshot;;
  removeRunFromSource fromLocation cards;;
  pushToTableau toColIndex cards;;
  registerMove;;
  mret true.

(** The block "Remove card from source" of [moveCardToFoundation]. *)
Definition removeCardFromSource (fromLocation : Location) : M unit :=
  match fromLocation with
  | LWaste =>
      w ← getsG waste;
      if 0 <? length w then modifyG (set_waste (snd (pop w))) else mret tt
  | LTableau colIndex =>
      column ← getsG (λ g, tableau g !! colIndex) ≫= defined;
      if 0 <? length column then
        let column := snd (pop column) in
        modifyG (λ g, set_tableau (<[colIndex := column]> (tableau g)) g);;
        column ← revealTop column;
        modifyG (λ g, set_tableau (<[colIndex := column]> (tableau g)) g)
      else mret tt
  | _ => mret tt
  end.

(** [this.gameState.foundations[foundationIndex].push(card)] *)
Definition pushToFoundation (foundationIndex : Z) (card : Card) : M unit :=
  f ← getsG (λ g, lookupZ (foundations g) foundationIndex) ≫= defined;
  modifyG (λ g, set_foundations
                  (insertZ foundationIndex (f ++ [card]) (foundations g)) g).

Definition moveCardToFoundation (fromLocation : Location) (foundationIndex : Z)
    (card : Card) : M bool :=
  canMove ← getsG (λ g, canMoveToFoundation g card) ≫= defined;
  if negb (canMove =? foundationIndex)%Z then mret false else
  captureUndoSnapshot;;
  removeCardFromSource fromLocation;;
  pushToFoundation foundationIndex card;;
  addScore 10;;
  registerMove;;
  checkWinCondition;;
  mret true.

(** ** Animation windows *)

Record Durations := mkDurations {
  moveDurationMs : Q;
  flipTotalMs : Q;
  flipMidpointMs : Q;
  stockDelayMs : Q
}.

Definition getAnimationDurations (e : Engine) : Durations :=
  let b := inject_Z (animationBaseMs e) in
  mkDurations (2 * b)%Q ((5 # 2) * b)%Q ((5 # 4) * b)%Q (1 * b)%Q.

Definition isAnimating (e : Engine) : bool :=
  isMoveAnimating e || isFlipAnimating e.

(** [updateOptions]: the two animation options and the recomputation of
    [animationBaseMs] ([preset] is the requested base of a valid preset:
    40, 80 or 400; [None] when the option is absent or not one of the
    three names). *)
Definition presetBaseMs (name : string) : option Z :=
  if decide (name = "fast") then Some 40%Z
  else if decide (name = "normal") then Some 80%Z
  else if decide (name = "slow") then Some 400%Z
  else None.

(** [animateCardMovement(sourceElement, destElement)], synchronous part.
    [found] tells whether both elements were found by the DOM queries of
    the caller.  The flag is cleared later by the timer of the method
    (event [MoveAnimationEnd] below). *)
Definition animateCardMovement (found : bool) : M unit :=
  if negb found then mret tt else
  e ← gets (λ e, e);
  if negb (animationsEnabled e)
     || Qeq_bool (moveDurationMs (getAnimationDurations e)) 0
  then mret tt
  else modify (set_isMoveAnimating true).

(** [animateRevealedCards()]; [anyFound] tells whether the DOM query
    found at least one of the revealed cards (when none is found the
    pending counter reaches zero at once and the flag is cleared). *)
Definition animateRevealedCards (anyFound : bool) : M unit :=
  e ← gets (λ e, e);
  if length (revealedCardIds e) =? 0 then mret tt else
  if negb (animationsEnabled e)
     || Qeq_bool (flipTotalMs (getAnimationDurations e)) 0
  then mret tt
  else modify (set_isFlipAnimating anyFound).

(** ** Stock and waste *)

(** The body of the draw loop: [drawCount] iterations of
    [pop / faceUp = true / push]. *)
Fixpoint drawLoop (drawCount : nat) : M unit :=
  match drawCount with
  | 0 => mret tt
  | S n =>
      s ← getsG stock;
      card ← defined (fst (pop s));
      modifyG (set_stock (snd (pop s)));;
      modifyG (λ g, set_waste (waste g ++ [setFaceUp true card]) g);;
      drawLoop n
  end.

(** [while (waste.length > 0) { pop / faceUp = false / push }]; the loop
    is entered with [fuel] equal to the length of the waste, one unit per
    card. *)
Fixpoint recycleLoop (fuel : nat) : M unit :=
  match fuel with
  | 0 => mret tt
  | S n =>
      w ← getsG waste;
      if 0 <? length w then
        card ← defined (fst (pop w));
        modifyG (set_waste (snd (pop w)));;
        modifyG (λ g, set_stock (stock g ++ [setFaceUp false card]) g);;
        recycleLoop n
      else mret tt
  end.

(** [handleStockClick()]; the value returned here is the local flag
    [moved] (the method itself returns nothing). *)
Definition handleStockClick : M bool :=
  g ← gets gameState;
  moved ←
    (if 0 <? length (stock g) then
       captureUndoSnapshot;;
       drawLoop (Nat.min 3 (length (stock g)));;
       mret true
     else if 0 <? length (waste g) then
       captureUndoSnapshot;;
       recycleLoop (length (waste g));;
       mret true
     else mret false);
  (if moved : bool then registerMove else mret tt);;
  mret moved.

(** ** Auto moves *)

Definition tryMoveWasteToFoundation : M bool :=
  w ← getsG waste;
  match last w with
  | None => mret false
  | Some card =>
      foundationIndex ← getsG (λ g, canMoveToFoundation g card) ≫= defined;
      if (foundationIndex =? -1)%Z then mret false
      else moveCardToFoundation LWaste foundationIndex card
  end.

(** The tableau loop of [tryMoveTableauToFoundation]. *)
Fixpoint autoTableauLoop (colIndex : nat) (card : Card) (found : bool)
    (cols : list nat) : M bool :=
  match cols with
  | [] => mret false
  | targetCol :: rest =>
      if targetCol =? colIndex then autoTableauLoop colIndex card found rest
      else
        can ← getsG (λ g, canMoveToTableau g [card] targetCol) ≫= defined;
        if can : bool then
          movedToTableau ← moveCardsToTableau (LTableau colIndex) targetCol [card];
          if movedToTableau : bool
          then animateCardMovement found;; mret true
          else autoTableauLoop colIndex card found rest
        else autoTableauLoop colIndex card found rest
  end.

Definition tryMoveTableauToFoundation (colIndex : nat) (found : bool) : M bool :=
  g ← gets gameState;
  match tableau g !! colIndex with
  | None => mret false
  | Some column =>
      match last column with
      | None => mret false
      | Some card =>
          if negb (faceUp card) then mret false else
          foundationIndex ← defined (canMoveToFoundation g card);
          movedToFoundation ←
            (if negb (foundationIndex =? -1)%Z
             then moveCardToFoundation (LTableau colIndex) foundationIndex card
             else mret false);
          if movedToFoundation : bool
          then animateCardMovement found;; mret true
          else autoTableauLoop colIndex card found (seq 0 (length (tableau g)))
      end
  end.

(** The column loop of [tryMoveFoundationToTableau]. *)
Fixpoint foundationToTableauLoop (foundationIndex : nat) (card : Card)
    (found : bool) (cols : list nat) : M bool :=
  match cols with
  | [] => mret false
  | col :: rest =>
      can ← getsG (λ g, canMoveToTableau g [card] col) ≫= defined;
      if can : bool then
        captureUndoSnapshot;;
        f ← getsG (λ g, foundations g !! foundationIndex) ≫= defined;
        modifyG (λ g, set_foundations
                        (<[foundationIndex := snd (pop f)]> (foundations g)) g);;
        pushToTableau col [card];;
        addScore (-15);;
        registerMove;;
        animateCardMovement found;;
        mret true
      else foundationToTableauLoop foundationIndex card found rest
  end.

Definition tryMoveFoundationToTableau (foundationIndex : nat) (found : bool)
  : M bool :=
  foundation ← getsG (λ g, foundations g !! foundationIndex) ≫= defined;
  match last foundation with
  | None => mret false
  | Some card => foundationToTableauLoop foundationIndex card found (seq 0 7)
  end.

(** The tableau loop of [handleWasteClick]. *)
Fixpoint wasteToTableauLoop (topCard : Card) (found : bool) (cols : list nat)
  : M unit :=
  match cols with
  | [] => mret tt
  | col :: rest =>
      can ← getsG (λ g, canMoveToTableau g [topCard] col) ≫= defined;
      if can : bool then
        movedToTableau ← moveCardsToTableau LWaste col [topCard];
        if movedToTableau : bool then animateCardMovement found else mret tt
      else wasteToTableauLoop topCard found rest
  end.

Definition handleWasteClick (found : bool) : M unit :=
  g ← gets gameState;
  match last (waste g) with
  | None => mret tt
  | Some topCard =>
      foundationIndex ← defined (canMoveToFoundation g topCard);
      if negb (foundationIndex =? -1)%Z then
        movedToFoundation ← moveCardToFoundation LWaste foundationIndex topCard;
        if movedToFoundation : bool then animateCardMovement found else mret tt
      else wasteToTableauLoop topCard found (seq 0 (length (tableau g)))
  end.

(** [attemptMove(fromLocation, toLocation, cards)]; [cards] is [None]
    for [undefined]. *)
Definition attemptMove (fromLocation toLocation : Location)
    (cards : option (list Card)) : M bool :=
  match cards with
  | None | Some [] => mret false
  | Some ((card0 :: _) as cards) =>
      match toLocation with
      | LTableau colIndex => moveCardsToTableau fromLocation colIndex cards
      | LFoundation foundationIndex =>
          moveCardToFoundation fromLocation (Z.of_nat foundationIndex) card0
      | _ => mret false
      end
  end.

(** ** Undo *)

Definition undoLastMove : M bool :=
  um ← gets undoManager;
  match um with
  | None => mret false
  | Some u =>
      if negb (UndoManager.canUndo u) then mret false else
      let '(previousState, u') := UndoManager.undo u in
      modify (set_undoManager (Some u'));;
      match previousState with
      | None => mret false
      | Some previousState =>
          modify (set_gameState previousState);;
          modify (set_currentHint None);;
          g ← gets gameState;
          modify (notify (OnMove (moveCount g) (score g) (length (stock g))));;
          mret true
      end
  end.

(** ** New deal *)

Definition startNewDeal (rand : nat → nat) : M unit :=
  modify (λ e, match undoManager e with
               | Some u => set_undoManager (Some (UndoManager.reset u)) e
               | None => e
               end);;
  modify (set_currentHint None);;
  modify (set_revealedCardIds []);;
  modify (set_gameState emptyGameState);;
  modify (set_firstMoveDone false);;
  let deck := shuffleDeck rand createDeck in
  tab ← getsG tableau;
  '(deck, tab) ← defined (dealTableau deck tab);
  modifyG (set_tableau tab);;
  modifyG (set_stock deck);;
  modify (notify OnReset).

(* ===================================================================== *)
(** ** Hint engine *)
(* ===================================================================== *)

Definition willTableauMoveFlip (g : GameState) (colIndex count : nat) : bool :=
  match tableau g !! colIndex with
  | None => false
  | Some column =>
      if length column <=? count then false
      else match column !! (length column - 1 - count) with
           | Some newTop => negb (faceUp newTop)
           | None => false
           end
  end.

(** First column of [cols], other than [skip], that accepts [cards]: the
    inner loops with [continue] on the source column and [break] on the
    first hit. *)
Fixpoint firstTableauTarget (g : GameState) (cards : list Card)
    (skip : option nat) (cols : list nat) : option (option nat) :=
  match cols with
  | [] => Some None
  | targetCol :: rest =>
      if decide (skip = Some targetCol)
      then firstTableauTarget g cards skip rest
      else
        can ← canMoveToTableau g cards targetCol;
        if can : bool then Some (Some targetCol)
        else firstTableauTarget g cards skip rest
  end.

Record HintBuckets := mkBuckets {
  priority1 : list HintMove;
  priority2 : list HintMove;
  priority3 : list HintMove;
  priority4 : list HintMove
}.

Definition push1 (m : HintMove) (b : HintBuckets) : HintBuckets :=
  mkBuckets (priority1 b ++ [m]) (priority2 b) (priority3 b) (priority4 b).
Definition push2 (m : HintMove) (b : HintBuckets) : HintBuckets :=
  mkBuckets (priority1 b) (priority2 b ++ [m]) (priority3 b) (priority4 b).
Definition push3 (m : HintMove) (b : HintBuckets) : HintBuckets :=
  mkBuckets (priority1 b) (priority2 b) (priority3 b ++ [m]) (priority4 b).
Definition push4 (m : HintMove) (b : HintBuckets) : HintBuckets :=
  mkBuckets (priority1 b) (priority2 b) (priority3 b) (priority4 b ++ [m]).

(** One iteration of the source-column loop of [computeHintMove]. *)
Definition hintColumn (g : GameState) (b : HintBuckets) (colIndex : nat)
  : option HintBuckets :=
  match tableau g !! colIndex with
  | None => Some b
  | Some column =>
      match last column with
      | None => Some b
      | Some card =>
          if negb (faceUp card) then Some b else
          let from := FromTableau colIndex (id card) in
          foundationIndex ← canMoveToFoundation g card;
          let b :=
            if negb (foundationIndex =? -1)%Z then
              let moveToFoundation :=
                mkHint TableauToFoundation from (ToFoundation foundationIndex)
                       (willTableauMoveFlip g colIndex 1) in
              if willFlip moveToFoundation
              then push1 moveToFoundation b else push2 moveToFoundation b
            else b in
          target ← firstTableauTarget g [card] (Some colIndex)
                     (seq 0 (length (tableau g)));
          match target with
          | Some targetCol =>
              let moveToTableau :=
                mkHint TableauToTableau from (ToTableau targetCol)
                       (willTableauMoveFlip g colIndex 1) in
              Some (if willFlip moveToTableau
                    then push1 moveToTableau b else push4 moveToTableau b)
          | None => Some b
          end
      end
  end.

(** The waste block of [computeHintMove]. *)
Definition hintWaste (g : GameState) (b : HintBuckets) : option HintBuckets :=
  match last (waste g) with
  | None => Some b
  | Some topWaste =>
      target ← firstTableauTarget g [topWaste] None (seq 0 (length (tableau g)));
      match target with
      | Some colIndex =>
          Some (push3 (mkHint WasteToTableau (FromWaste (id topWaste))
                              (ToTableau colIndex) false) b)
      | None => Some b
      end
  end.

Definition pickHint (b : HintBuckets) : option HintMove :=
  match priority1 b, priority2 b, priority3 b, priority4 b with
  | m :: _, _, _, _ => Some m
  | [], m :: _, _, _ => Some m
  | [], [], m :: _, _ => Some m
  | [], [], [], m :: _ => Some m
  | [], [], [], [] => None
  end.

(** [computeHintMove()]: outer [None] for a thrown error, inner [None]
    for the [null] result. *)
Definition computeHintMove (g : GameState) : option (option HintMove) :=
  b ← foldO (hintColumn g) (mkBuckets [] [] [] []) (seq 0 (length (tableau g)));
  b ← hintWaste g b;
  Some (pickHint b).

Definition requestHint : M unit :=
  modify (set_currentHint None);;
  move ← getsG computeHintMove ≫= defined;
  match move with
  | None => mret tt
  | Some move => modify (set_currentHint (Some move))
  end.

(* ===================================================================== *)
(** ** Interaction: event handlers *)
(* ===================================================================== *)

(** What the handlers read from a card element: [dataset.location],
    [dataset.cardId] and the presence of the class [is-face-up]. *)
Record CardElement := mkElement {
  elLocation : Location;
  elCardId : string;
  elFaceUp : bool
}.

(** [createCardElement(card, location)] *)
Definition createCardElement (card : Card) (location : Location) : CardElement :=
  mkElement location (id card) (faceUp card).

(** The card elements produced by [updateStockAndWaste],
    [updateFoundations] and [updateTableau] once flips have settled (the
    stock card carries no dataset and no card listeners). *)
Definition renderedCards (g : GameState) : list CardElement :=
  ((λ c, createCardElement c LWaste) <$> sliceLast 3 (waste g))
  ++ concat (imap (λ i pile,
               match last pile with
               | Some topCard => [createCardElement topCard (LFoundation i)]
               | None => []
               end) (foundations g))
  ++ concat (imap (λ col column,
               (λ c, createCardElement c (LTableau col)) <$> column)
             (tableau g)).

Definition isCardDraggable (g : GameState) (el : CardElement) : option bool :=
  match elLocation el with
  | LWaste =>
      Some (match last (waste g) with
            | Some top => bool_decide (id top = elCardId el)
            | None => false
            end)
  | LFoundation _ => Some true
  | LTableau colIndex =>
      column ← tableau g !! colIndex;
      match findIndexById (elCardId el) column with
      | None => Some false
      | Some cardIndex => Some (forallb faceUp (slice cardIndex column))
      end
  | LFloating => Some false
  end.

Definition findCardById (g : GameState) (cardId : string) : option Card :=
  match findById cardId (waste g) with
  | Some wasteCard => Some wasteCard
  | None =>
      match list_find is_Some (findById cardId <$> foundations g) with
      | Some (_, Some foundCard) => Some foundCard
      | _ =>
          match list_find is_Some (findById cardId <$> tableau g) with
          | Some (_, Some foundCard) => Some foundCard
          | _ => None
          end
      end
  end.

Definition handleDragStart (el : CardElement) : M unit :=
  let cardId := elCardId el in
  let location := elLocation el in
  modify (set_dragData (Some (mkDrag cardId location None)));;
  match location with
  | LTableau colIndex =>
      column ← getsG (λ g, tableau g !! colIndex) ≫= defined;
      match findIndexById cardId column with
      | Some cardIndex =>
          modify (set_dragData
                    (Some (mkDrag cardId location (Some (slice cardIndex column)))))
      | None => mret tt
      end
  | _ =>
      card ← getsG (λ g, findCardById g cardId);
      modify (set_dragData
                (Some (mkDrag cardId location
                         (Some (match card with Some c => [c] | None => [] end)))))
  end.

(** [handleDrop(e, dropZoneId)].  After a successful move
    [cleanupDragVisuals] has reset [this.dragData] to [null], and the
    following read of [this.dragData.element] throws. *)
Definition handleDrop (dropZoneId : Location) : M unit :=
  d ← gets dragData;
  match d with
  | None => mret tt
  | Some d =>
      success ← attemptMove (dragLocation d) dropZoneId (draggedCards d);
      modify (set_dragData None);;
      if success : bool then throw else mret tt
  end.

Definition stockClickHandler : M unit :=
  a ← gets isAnimating;
  if a : bool then mret tt else handleStockClick;; mret tt.

(** The loop of the mid-stack branch of the click handler. *)
Fixpoint stackMoveLoop (colIndex : nat) (stack : list Card) (found : bool)
    (cols : list nat) : M unit :=
  match cols with
  | [] => mret tt
  | targetCol :: rest =>
      if targetCol =? colIndex then stackMoveLoop colIndex stack found rest
      else
        can ← getsG (λ g, canMoveToTableau g stack targetCol) ≫= defined;
        if can : bool then
          moved ← moveCardsToTableau (LTableau colIndex) targetCol stack;
          if moved : bool then animateCardMovement found else mret tt
        else stackMoveLoop colIndex stack found rest
  end.

(** The click listener of a card element.  [handleCardClick] only
    toggles a CSS class and [selectedCard]; it leaves every modelled
    field alone and is omitted. *)
Definition clickHandler (el : CardElement) (found : bool) : M unit :=
  a ← gets isAnimating;
  if a : bool then mret tt else
  match elLocation el with
  | LWaste => handleWasteClick found
  | LTableau colIndex =>
      if negb (elFaceUp el) then mret tt else
      g ← gets gameState;
      match tableau g !! colIndex with
      | None => mret tt
      | Some column =>
          if length column =? 0 then mret tt else
          match findIndexById (elCardId el) column with
          | None => tryMoveTableauToFoundation colIndex found;; mret tt
          | Some cardIndex =>
              if cardIndex =? length column - 1
              then tryMoveTableauToFoundation colIndex found;; mret tt
              else
                draggable ← defined (isCardDraggable g el);
                if draggable : bool
                then stackMoveLoop colIndex (slice cardIndex column) found
                       (seq 0 (length (tableau g)))
                else mret tt
          end
      end
  | _ => mret tt
  end.

Definition dropHandler (dropZoneId : Location) : M unit :=
  a ← gets isAnimating;
  if a : bool then mret tt else handleDrop dropZoneId.

Definition dragStartHandler (el : CardElement) : M unit :=
  a ← gets isAnimating;
  if a : bool then mret tt else handleDragStart el.

(** [dragend] on the dragged element: [cleanupDragVisuals(false)]. *)
Definition dragEndHandler : M unit := modify (set_dragData None).

(** [updateOptions(options)] restricted to the two animation options;
    [preset] is the requested preset name, [enabled] the requested
    boolean, each [None] when absent. *)
Definition updateOptions (preset : option string) (enabled : option bool)
  : M unit :=
  e ← gets (λ e, e);
  presetChanged ←
    match preset with
    | Some p =>
        if bool_decide (is_Some (presetBaseMs p))
           && negb (bool_decide (animationSpeedPreset e = p))
        then modify (set_animationSpeedPreset p);; mret true
        else mret false
    | None => mret false
    end;
  animationsToggled ←
    match enabled with
    | Some b =>
        if negb (eqb (animationsEnabled e) b)
        then modify (set_animationsEnabled b);; mret true
        else mret false
    | None => mret false
    end;
  if (presetChanged : bool) || (animationsToggled : bool) then
    e ← gets (λ e, e);
    if negb (animationsEnabled e) then modify (set_animationBaseMs 0%Z)
    else modify (set_animationBaseMs
                   (default 80%Z (presetBaseMs (animationSpeedPreset e))))
  else mret tt.

(* ===================================================================== *)
(** ** Reachable engine states *)
(* ===================================================================== *)

(** The engine after a handler has run to completion or thrown. *)
Definition run {A} (m : M A) (e : Engine) : Engine := snd (m e).

(** The draws of [Math.random] stay in range. *)
Definition validRand (rand : nat → nat) : Prop := ∀ i, rand i ≤ i.

(** Elements that carry drop listeners ([attachDropZoneListeners]). *)
Definition isDropZone (z : Location) : bool :=
  match z with
  | LTableau i => i <? 7
  | LFoundation i => i <? 4
  | _ => false
  end.

(** One drag gesture on a card element: [dragstart], then either a
    [drop] on a drop zone or none (released elsewhere, or ignored by the
    gate), then [dragend].  Each listener runs on the engine left by the
    previous one, also when that one threw. *)
Definition dragGesture (el : CardElement) (dropZone : option Location)
    (e : Engine) : Engine :=
  if isAnimating e then e else
  let e1 := run (handleDragStart el) e in
  let e2 := match dropZone with
            | Some z => run (dropHandler z) e1
            | None => e1
            end in
  run dragEndHandler e2.

(** The display work queued by [updateDisplay]: the flip animation of
    the revealed cards, then [revealedCardIds.clear()]. *)
Definition animationFrame (anyFound : bool) : M unit :=
  animateRevealedCards anyFound;; modify (set_revealedCardIds []).

(** One event of the page.  User events act on an element of the
    current rendering; the [dragstart] listener exists only on elements
    that were face up and draggable when listeners were attached. *)
Inductive step : Engine → Engine → Prop :=
| step_stockClick e :
    step e (run stockClickHandler e)
| step_click e el found :
    el ∈ renderedCards (gameState e) →
    step e (run (clickHandler el found) e)
| step_drag e el dropZone :
    el ∈ renderedCards (gameState e) →
    elFaceUp el = true →
    isCardDraggable (gameState e) el = Some true →
    (∀ z, dropZone = Some z → isDropZone z = true) →
    step e (dragGesture el dropZone e)
| step_undo e :
    step e (run undoLastMove e)
| step_hint e :
    step e (run requestHint e)
| step_newDeal e rand :
    validRand rand →
    step e (run (startNewDeal rand) e)
| step_options e preset enabled :
    step e (run (updateOptions preset enabled) e)
| step_wasteToFoundation e :
    step e (run tryMoveWasteToFoundation e)
| step_tableauAutoMove e colIndex found :
    step e (run (tryMoveTableauToFoundation colIndex found) e)
| step_foundationToTableau e foundationIndex found :
    step e (run (tryMoveFoundationToTableau foundationIndex found) e)
| step_animationFrame e anyFound :
    step e (run (animationFrame anyFound) e)
| step_moveAnimationEnd e :
    step e (set_isMoveAnimating false e)
| step_flipAnimationEnd e :
    step e (set_isFlipAnimating false e).

(** [mount] ends with [startNewDeal]; everything after is an event. *)
Inductive Reachable : Engine → Prop :=
| reach_mount um rand :
    validRand rand →
    Reachable (run (startNewDeal rand) (newEngine um))
| reach_step e e' :
    Reachable e → step e e' → Reachable e'.

(** All cards of a state, pile by pile. *)
Definition allCards (g : GameState) : list Card :=
  stock g ++ waste g ++ concat (foundations g) ++ concat (tableau g).

Definition allCardIds (g : GameState) : list string := id <$> allCards g.

(* ===================================================================== *)
(** * Notions used in the statements *)
(* ===================================================================== *)

(** ** Engine after the shared steps of a move *)

(** The engine after [captureUndoSnapshot]. *)
Definition snapshotTaken (e : Engine) : Engine :=
  match undoManager e with
  | None => e
  | Some u => set_undoManager (Some (UndoManager.pushSnapshot (gameState e) u)) e
  end.

(** The engine after [registerMove]. *)
Definition moveRegistered (e : Engine) : Engine :=
  let e1 := set_currentHint None e in
  let e2 := if firstMoveDone e1
            then e1 else notify OnFirstMove (set_firstMoveDone true e1) in
  let g := set_moveCount (S (moveCount (gameState e2))) (gameState e2) in
  notify (OnMove (moveCount g) (score g) (length (stock g))) (set_gameState g e2).

(** ** Legal tableau moves and stock clicks *)

(** The run really lies on its source: the single top card of the waste
    or of a foundation, or a non-empty suffix of a tableau column.  The
    last component is what stays on a tableau source. *)
Inductive runOnSource (g : GameState) : Location → list Card → Prop :=
| run_waste c :
    last (waste g) = Some c → runOnSource g LWaste [c]
| run_foundation i f c :
    foundations g !! i = Some f → last f = Some c →
    runOnSource g (LFoundation i) [c]
| run_tableau i below cards :
    tableau g !! i = Some (below ++ cards) → cards ≠ [] →
    runOnSource g (LTableau i) cards.

(** A column whose covered cards became its top: the last card is turned
    face up when it was face down. *)
Definition exposesFaceDown (below : list Card) : bool :=
  match last below with
  | Some c => negb (faceUp c)
  | None => false
  end.

Definition withTopRevealed (below : list Card) : list Card :=
  match last below with
  | Some c => if faceUp c then below else removelast below ++ [setFaceUp true c]
  | None => below
  end.

(** The score delta of a tableau move, by source. *)
Definition tableauMoveDelta (g : GameState) (fromLocation : Location)
    (cards : list Card) : Z :=
  match fromLocation with
  | LWaste => 5
  | LFoundation _ => -15
  | LTableau i =>
      match tableau g !! i with
      | Some column =>
          if exposesFaceDown (take (length column - length cards) column)
          then 5 else 0
      | None => 0
      end
  | LFloating => 0
  end.

(** The tableau once the run has left its source. *)
Definition tableauWithoutRun (g : GameState) (fromLocation : Location)
    (cards : list Card) : list (list Card) :=
  match fromLocation with
  | LTableau i =>
      match tableau g !! i with
      | Some column =>
          <[i := withTopRevealed (take (length column - length cards) column)]>
            (tableau g)
      | None => tableau g
      end
  | _ => tableau g
  end.

(** The state after a draw of [k] cards and after a recycle. *)
Definition drawn (g : GameState) : GameState :=
  let k := Nat.min 3 (length (stock g)) in
  set_waste (waste g ++ (setFaceUp true <$>
                           reverse (drop (length (stock g) - k) (stock g))))
    (set_stock (take (length (stock g) - k) (stock g)) g).

Definition recycled (g : GameState) : GameState :=
  set_waste [] (set_stock (setFaceUp false <$> reverse (waste g)) g).


(** ** Invariants of methods; the mutating moves *)

(** [m] keeps [I], whether it returns or throws. *)
Definition pres {A} (I : Engine → Prop) (m : M A) : Prop :=
  ∀ e, I e → I (run m e).

Definition undoIs (U : option UndoManager.t) (e : Engine) : Prop :=
  undoManager e = U.

(** The mutating moves of the engine. *)
Inductive MoveCall :=
| CallStockClick
| CallMoveCardToFoundation (fromLocation : Location) (foundationIndex : Z)
    (card : Card)
| CallMoveCardsToTableau (fromLocation : Location) (toColIndex : nat)
    (cards : list Card)
| CallFoundationToTableau (foundationIndex : nat) (found : bool).

Definition execMove (c : MoveCall) : M bool :=
  match c with
  | CallStockClick => handleStockClick
  | CallMoveCardToFoundation fromLocation foundationIndex card =>
      moveCardToFoundation fromLocation foundationIndex card
  | CallMoveCardsToTableau fromLocation toColIndex cards =>
      moveCardsToTableau fromLocation toColIndex cards
  | CallFoundationToTableau foundationIndex found =>
      tryMoveFoundationToTableau foundationIndex found
  end.

(** ** The dealt layout *)

(** Column [i] of a fresh deal: the [i+1] cards lying [i(i+1)/2] cards
    under the top of the deck, in pop order, the last one popped turned
    face up. *)
Definition dealSegment (deck : list Card) (i : nat) : list Card :=
  take (S i) (drop (52 - S i * S (S i) / 2) deck).

Definition flipHead (seg : list Card) : list Card :=
  match seg with
  | x :: r => setFaceUp true x :: r
  | [] => []
  end.

Definition dealtColumn (deck : list Card) (i : nat) : list Card :=
  reverse (flipHead (dealSegment deck i)).

Definition faceDown (c : Card) : Prop := faceUp c = false.

(** The state dealt from a shuffled deck. *)
Definition dealt (deck : list Card) : GameState :=
  mkGameState (take 24 deck) [] [[]; []; []; []]
    (dealtColumn deck <$> seq 0 7) 0 0%Z.

(** ** Animation windows closed *)

(** No window can open: flags down and a zero base duration. *)
Definition noWindow (e : Engine) : Prop :=
  isMoveAnimating e = false ∧ isFlipAnimating e = false ∧
  animationBaseMs e = 0%Z.

(** ** Face-up suffix invariant *)

Definition isUp (c : Card) : Prop := faceUp c = true.

(** No face-down card lies above (after) a face-up card. *)
Definition faceUpSuffix (column : list Card) : Prop :=
  ∀ i j a b, column !! i = Some a → column !! j = Some b → i < j →
             faceUp a = true → faceUp b = true.

Definition pilesOk (g : GameState) : Prop :=
  Forall faceUpSuffix (tableau g) ∧
  Forall isUp (waste g) ∧
  Forall (Forall isUp) (foundations g).

Definition historyOk (e : Engine) : Prop :=
  ∀ u, undoManager e = Some u → Forall pilesOk (UndoManager.history u).

Definition engineOk (e : Engine) : Prop :=
  pilesOk (gameState e) ∧ historyOk e.

(** The run picked up by a drag is face up. *)
Definition dragOk (e : Engine) : Prop :=
  ∀ d cs, dragData e = Some d → draggedCards d = Some cs → Forall isUp cs.

(** ** What a hint should be *)

(** The top card of a column, when it is face up. *)
Definition visibleTop (g : GameState) (colIndex : nat) : option Card :=
  column ← tableau g !! colIndex;
  top ← last column;
  if faceUp top then Some top else None.

(** Would the card under the top of the column be face down once the
    top card has left? *)
Definition wouldReveal (g : GameState) (colIndex : nat) : bool :=
  match tableau g !! colIndex with
  | Some column => exposesFaceDown (removelast column)
  | None => false
  end.

(** The legal moves of a visible top card that a hint may describe. *)
Inductive legalHint (g : GameState) : HintMove → Prop :=
| legal_tableau_to_foundation colIndex card foundationIndex :
    visibleTop g colIndex = Some card →
    canMoveToFoundation g card = Some foundationIndex →
    foundationIndex ≠ (-1)%Z →
    legalHint g (mkHint TableauToFoundation (FromTableau colIndex (id card))
                   (ToFoundation foundationIndex) (wouldReveal g colIndex))
| legal_tableau_to_tableau colIndex card targetCol :
    visibleTop g colIndex = Some card →
    targetCol ≠ colIndex →
    canMoveToTableau g [card] targetCol = Some true →
    legalHint g (mkHint TableauToTableau (FromTableau colIndex (id card))
                   (ToTableau targetCol) (wouldReveal g colIndex))
| legal_waste_to_tableau card targetCol :
    last (waste g) = Some card →
    canMoveToTableau g [card] targetCol = Some true →
    legalHint g (mkHint WasteToTableau (FromWaste (id card))
                   (ToTableau targetCol) false).

(** Priority tier of a move, 1 the highest. *)
Definition tier (m : HintMove) : nat :=
  match hintType m with
  | TableauToFoundation => if willFlip m then 1 else 2
  | WasteToTableau => 3
  | TableauToTableau => if willFlip m then 1 else 4
  end.

(** Every top card that is face up has a foundation for its suit. *)
Definition hintReadable (g : GameState) : Prop :=
  ∀ colIndex card, visibleTop g colIndex = Some card →
                   suit card < length (foundations g).

Definition addHint (b : HintBuckets) (m : HintMove) : HintBuckets :=
  match tier m with
  | 1 => push1 m b
  | 2 => push2 m b
  | 3 => push3 m b
  | _ => push4 m b
  end.

Definition bucket (k : nat) (b : HintBuckets) : list HintMove :=
  match k with
  | 1 => priority1 b
  | 2 => priority2 b
  | 3 => priority3 b
  | _ => priority4 b
  end.

Definition inTier (k : nat) (m : HintMove) : Prop := tier m = k.

#[global] Instance inTier_dec k m : Decision (inTier k m).
Proof. unfold inTier. apply _. Defined.

(** Candidates of one source column, in the order they are produced. *)
Definition columnHints (g : GameState) (colIndex : nat) : list HintMove :=
  match visibleTop g colIndex with
  | None => []
  | Some card =>
      let from := FromTableau colIndex (id card) in
      let flip := willTableauMoveFlip g colIndex 1 in
      match canMoveToFoundation g card with
      | Some foundationIndex =>
          if (foundationIndex =? -1)%Z then []
          else [mkHint TableauToFoundation from (ToFoundation foundationIndex) flip]
      | None => []
      end
      ++
      match firstTableauTarget g [card] (Some colIndex)
              (seq 0 (length (tableau g))) with
      | Some (Some targetCol) =>
          [mkHint TableauToTableau from (ToTableau targetCol) flip]
      | _ => []
      end
  end.

Definition wasteHints (g : GameState) : list HintMove :=
  match last (waste g) with
  | None => []
  | Some topWaste =>
      match firstTableauTarget g [topWaste] None
              (seq 0 (length (tableau g))) with
      | Some (Some colIndex) =>
          [mkHint WasteToTableau (FromWaste (id topWaste)) (ToTableau colIndex) false]
      | _ => []
      end
  end.

Definition allHints (g : GameState) : list HintMove :=
  concat (columnHints g <$> seq 0 (length (tableau g))) ++ wasteHints g.

(** ** A play that breaks the deck *)

#[global] Instance CardElement_eq_dec : EqDecision CardElement.
Proof. solve_decision. Defined.

(** Draws that leave the ace of hearts on column 0, the two of hearts on
    column 1 and the ace of spades on column 2. *)
Definition sampleRand (i : nat) : nat :=
  if i =? 51 then 0 else if i =? 49 then 1 else if i =? 46 then 39 else i.

Definition sampleDeal : Engine :=
  run (startNewDeal sampleRand) (newEngine (Some UndoManager.init)).

(** Click on the ace of hearts: it goes to foundation 0. *)
Definition afterAceClick : Engine :=
  run (clickHandler (mkElement (LTableau 0) "card-0-1" true) true) sampleDeal.

Definition afterAceSettled : Engine := set_isMoveAnimating false afterAceClick.

(** Drag the ace of spades from column 2 onto the two of hearts. *)
Definition afterSpadeDrag : Engine :=
  dragGesture (mkElement (LTableau 2) "card-3-1" true) (Some (LTableau 1))
    afterAceSettled.

(** Drag the two of hearts, with the ace of spades on it, onto
    foundation 0. *)
Definition afterStackDrop : Engine :=
  dragGesture (mkElement (LTableau 1) "card-0-2" true) (Some (LFoundation 0))
    afterSpadeDrag.

(** ** Sample cards and moves *)

Definition aceOfSpades : Card := mkCard 3 1 true "card-3-1".
Definition twoOfSpades : Card := mkCard 3 2 true "card-3-2".
Definition threeOfSpades : Card := mkCard 3 3 true "card-3-3".

Definition sampleUndo : UndoManager.t :=
  default UndoManager.init (undoManager afterAceSettled).

Definition sampleMove : MoveCall :=
  CallMoveCardsToTableau (LTableau 2) 1 [aceOfSpades].

(** ** First version of the stock click *)

(** The first version of the engine (no undo, no drag and drop), kept as
    a second copy in the repository: its stock click registers a move
    whatever happened. *)
Definition legacyRegisterMove : M unit :=
  done ← gets firstMoveDone;
  (if negb done
   then modify (set_firstMoveDone true);; modify (notify OnFirstMove)
   else mret tt);;
  modifyG (λ g, set_moveCount (S (moveCount g)) g);;
  g ← gets gameState;
  modify (notify (OnMove (moveCount g) (score g) (length (stock g)))).

Definition legacyHandleStockClick : M unit :=
  g ← gets gameState;
  (if 0 <? length (stock g) then drawLoop (Nat.min 3 (length (stock g)))
   else if 0 <? length (waste g) then recycleLoop (length (waste g))
   else mret tt);;
  legacyRegisterMove.

(** ** The undo manager as a data structure *)

(** The calls of the public API that change the manager. *)
Inductive UndoCall :=
| CallReset
| CallSetMaxHistory (limit : nat)
| CallPushSnapshot (snapshot : GameState)
| CallUndo.

Definition undoCall (u : UndoManager.t) (c : UndoCall) : UndoManager.t :=
  match c with
  | CallReset => UndoManager.reset u
  | CallSetMaxHistory limit => UndoManager.setMaxHistory limit u
  | CallPushSnapshot snapshot => UndoManager.pushSnapshot snapshot u
  | CallUndo => snd (UndoManager.undo u)
  end.

(** The cap is positive and respected. *)
Definition historyBounded (u : UndoManager.t) : Prop :=
  0 < UndoManager.maxHistory u ∧
  length (UndoManager.history u) ≤ UndoManager.maxHistory u.

(** [pushSnapshot] of each element of [l], first to last. *)
Definition pushAll (l : list GameState) (u : UndoManager.t) : UndoManager.t :=
  foldl (λ u s, UndoManager.pushSnapshot s u) u l.

(** [n] calls of [undo()]: the values returned, in call order, and the
    manager afterwards. *)
Fixpoint undoMany (n : nat) (u : UndoManager.t)
  : list (option GameState) * UndoManager.t :=
  match n with
  | 0 => ([], u)
  | S n =>
      let '(r, u1) := UndoManager.undo u in
      let '(rs, u2) := undoMany n u1 in
      (r :: rs, u2)
  end.

(** The newest [n] elements of an array. *)
Definition newest {A} (n : nat) (l : list A) : list A := drop (length l - n) l.

Definition sampleState (n : nat) : GameState := set_moveCount n emptyGameState.

(** ** Closed forms of the move methods *)

(** The part of the engine that the shell and the undo button see: game
    state, undo history, callback log, first-move flag and stored hint.
    Animation flags, options, drag data and the set of revealed ids are
    left out. *)
Definition obs (e : Engine)
  : GameState * option UndoManager.t * list Notification * bool * option HintMove :=
  (gameState e, undoManager e, notifications e, firstMoveDone e, currentHint e).

(** [e'] differs from [e] at most in the game state and in fields that
    [obs] leaves out. *)
Definition sameRest (e e' : Engine) : Prop :=
  undoManager e' = undoManager e ∧ notifications e' = notifications e ∧
  firstMoveDone e' = firstMoveDone e ∧ currentHint e' = currentHint e.

Definition counted (g : GameState) : GameState :=
  set_moveCount (S (moveCount g)) g.

(** The game state after the block "Remove cards from source" of
    [moveCardsToTableau]; [None] when the block throws. *)
Definition withoutRun (g : GameState) (fromLocation : Location)
    (cards : list Card) : option GameState :=
  match fromLocation with
  | LWaste =>
      Some (if (length cards =? 1) && (0 <? length (waste g))
            then set_score (score g + 5)%Z (set_waste (removelast (waste g)) g)
            else g)
  | LFoundation i =>
      if length cards =? 1 then
        f ← foundations g !! i;
        Some (if 0 <? length f
              then set_score (score g + -15)%Z
                     (set_foundations (<[i := removelast f]> (foundations g)) g)
              else g)
      else Some g
  | LTableau i =>
      column ← tableau g !! i;
      let below := take (length column - length cards) column in
      Some (set_score (score g + (if exposesFaceDown below then 5 else 0))%Z
              (set_tableau (<[i := withTopRevealed below]> (tableau g)) g))
  | LFloating => Some g
  end.

(** The game state after the block "Remove card from source" of
    [moveCardToFoundation]. *)
Definition withoutCard (g : GameState) (fromLocation : Location)
  : option GameState :=
  match fromLocation with
  | LWaste =>
      Some (if 0 <? length (waste g)
            then set_waste (removelast (waste g)) g else g)
  | LTableau i =>
      column ← tableau g !! i;
      Some (if 0 <? length column then
              let below := removelast column in
              set_score (score g + (if exposesFaceDown below then 5 else 0))%Z
                (set_tableau (<[i := withTopRevealed below]> (tableau g)) g)
            else g)
  | _ => Some g
  end.

(** The engine after [captureUndoSnapshot], the change of the piles to
    [g1] and [registerMove]. *)
Definition registered (g1 : GameState) (e : Engine) : Engine :=
  moveRegistered (set_gameState g1 (snapshotTaken e)).

(** The engine after [checkWinCondition]. *)
Definition winChecked (e : Engine) : Engine :=
  if totalInFoundations (gameState e) =? 52
  then notify (OnWin (moveCount (gameState e)) (score (gameState e))) e
  else e.

(** ** The moves of the game *)

(** The cards that lie face up or down outside the stock. *)
Definition tableCards (g : GameState) : list Card :=
  waste g ++ concat (foundations g) ++ concat (tableau g).

(** The runs that the handlers hand to [moveCardsToTableau]: a card found
    in the waste; the card found under the id of the top card of a
    non-empty foundation; a non-empty face-up suffix of a column. *)
Inductive RunFrom (g : GameState) : Location → list Card → Prop :=
| run_from_waste c :
    c ∈ waste g → RunFrom g LWaste [c]
| run_from_foundation i f top c :
    foundations g !! i = Some f → last f = Some top →
    findCardById g (id top) = Some c →
    RunFrom g (LFoundation i) [c]
| run_from_tableau i below cards :
    tableau g !! i = Some (below ++ cards) → cards ≠ [] → Forall isUp cards →
    RunFrom g (LTableau i) cards.

(** The cards that the handlers hand to [moveCardToFoundation]. *)
Inductive CardFrom (g : GameState) : Location → Card → Prop :=
| card_from_waste c :
    c ∈ waste g → CardFrom g LWaste c
| card_from_foundation i f top c :
    foundations g !! i = Some f → last f = Some top →
    findCardById g (id top) = Some c →
    CardFrom g (LFoundation i) c
| card_from_tableau i column c :
    tableau g !! i = Some column → c ∈ column → isUp c →
    CardFrom g (LTableau i) c.

(** One move of the game as the engine plays it, from the state before
    to the state after (move counted). *)
Inductive GameMove (g : GameState) : GameState → Prop :=
| move_draw :
    stock g ≠ [] → GameMove g (counted (drawn g))
| move_recycle :
    stock g = [] → waste g ≠ [] → GameMove g (counted (recycled g))
| move_toTableau fromLocation toColIndex cards g1 dest :
    RunFrom g fromLocation cards →
    canMoveToTableau g cards toColIndex = Some true →
    withoutRun g fromLocation cards = Some g1 →
    tableau g1 !! toColIndex = Some dest →
    GameMove g
      (counted (set_tableau (<[toColIndex := dest ++ cards]> (tableau g1)) g1))
| move_toFoundation fromLocation card g1 f :
    CardFrom g fromLocation card →
    canMoveToFoundation g card = Some (Z.of_nat (suit card)) →
    withoutCard g fromLocation = Some g1 →
    foundations g1 !! suit card = Some f →
    GameMove g
      (counted (set_score (score g1 + 10)%Z
                  (set_foundations (<[suit card := f ++ [card]]> (foundations g1))
                     g1)))
| move_foundationToTableau i f card col dest :
    foundations g !! i = Some f → last f = Some card →
    canMoveToTableau g [card] col = Some true →
    tableau g !! col = Some dest →
    GameMove g
      (counted (set_score (score g + -15)%Z
                  (set_tableau (<[col := dest ++ [card]]> (tableau g))
                     (set_foundations (<[i := removelast f]> (foundations g)) g)))).

(** The engine [e'] is [e] after one move: snapshot pushed, piles
    changed by a move of the game, move registered, and possibly the win
    reported. *)
Definition Moved (e e' : Engine) : Prop :=
  ∃ g1, GameMove (gameState e) (counted g1) ∧
        (obs e' = obs (registered g1 e) ∨
         obs e' = obs (winChecked (registered g1 e))).

(** What one event of the page does to the observed part of the
    engine. *)
Inductive StepKind (e e' : Engine) : Prop :=
| kind_quiet :
    obs e' = obs e → StepKind e e'
| kind_hint :
    obs e' = (gameState e, undoManager e, notifications e, firstMoveDone e,
              default None (computeHintMove (gameState e))) →
    StepKind e e'
| kind_moved :
    Moved e e' → StepKind e e'
| kind_undone u h s :
    undoManager e = Some u → UndoManager.history u = h ++ [s] →
    obs e' = (s, Some (UndoManager.mk h (UndoManager.maxHistory u)),
              notifications e ++ [OnMove (moveCount s) (score s) (length (stock s))],
              firstMoveDone e, None) →
    StepKind e e'
| kind_dealt rand :
    validRand rand →
    obs e' = (dealt (shuffleDeck rand createDeck),
              UndoManager.reset <$> undoManager e,
              notifications e ++ [OnReset], false, None) →
    StepKind e e'.

Definition obsIs (e0 : Engine) (e : Engine) : Prop := obs e = obs e0.

(** A move method called by a handler: either it did not return [true]
    and nothing at all happened, or it returned [true] and the engine
    has made one move. *)
Definition MoveResult (e : Engine) (r : option bool * Engine) : Prop :=
  (fst r ≠ Some true ∧ snd r = e) ∨ (fst r = Some true ∧ Moved e (snd r)).

Definition Calm (e e' : Engine) : Prop := obs e' = obs e ∨ Moved e e'.

(** What a drag picks up. *)
Definition Picked (g : GameState) (location : Location) (cards : list Card)
  : Prop :=
  cards = [] ∨
  (RunFrom g location cards ∧
   ∃ c cs, cards = c :: cs ∧ CardFrom g location c).

(** ** Invariants of the game *)

(** [P] holds of the current game state and of every snapshot kept for
    undo. *)
Definition holdsEverywhere (P : GameState → Prop) (e : Engine) : Prop :=
  P (gameState e) ∧
  ∀ u, undoManager e = Some u → Forall P (UndoManager.history u).

(** ** The table in order *)

(** A card of the deck, whichever way it is turned. *)
Definition deckCard (c : Card) : Prop := setFaceUp false c ∈ createDeck.

(** A foundation pile of suit [i]: ace first, then rank by rank without
    gaps. *)
Definition builtUp (i : nat) (pile : list Card) : Prop :=
  ∀ j c, pile !! j = Some c → suit c = i ∧ rank c = Z.of_nat (S j).

(** Whatever lies on a face-up card of a column is of the other colour
    and one rank lower. *)
Definition runOk (column : list Card) : Prop :=
  ∀ j a b, column !! j = Some a → column !! S j = Some b → faceUp a = true →
           isRed a ≠ isRed b ∧ rank b = (rank a - 1)%Z.

(** The table with [inHand] cards taken off it and not yet put back. *)
Record tableOkBut (inHand : nat) (g : GameState) : Prop := mkTableOk {
  tok_foundations : length (foundations g) = 4;
  tok_tableau : length (tableau g) = 7;
  tok_stock : Forall faceDown (stock g);
  tok_deck : Forall deckCard (allCards g);
  tok_built : ∀ i pile, foundations g !! i = Some pile → builtUp i pile;
  tok_runs : Forall runOk (tableau g);
  tok_count : length (allCards g) + inHand = 52
}.

Definition tableOk (g : GameState) : Prop := tableOkBut 0 g.

(** ** A game played to the end *)

(** Draws that deal hearts ace to ten on columns 0 to 3, the rest of the
    hearts, the diamonds and the two lowest clubs on columns 4 to 6, each
    column in the order in which the foundations take it, and that leave
    the stock sorted so that every draw of three brings up the next
    three cards needed. *)
Definition winRand (i : nat) : nat :=
  default 0
    ([0; 0; 0; 3; 4; 5; 6; 6; 6; 6; 10; 6; 10; 11; 12; 15; 16; 17; 15; 16;
      17; 21; 21; 21; 21; 22; 23; 24; 25; 26; 27; 15; 16; 17; 18; 19; 20;
      10; 11; 12; 13; 14; 6; 7; 8; 9; 3; 4; 5; 1; 2; 0] !! i).

(** Calls of the public API that need no rendered element. *)
Inductive Play :=
| PlayStock
| PlayWaste
| PlayColumn (colIndex : nat).

Definition play (e : Engine) (p : Play) : Engine :=
  match p with
  | PlayStock => run stockClickHandler e
  | PlayWaste => run tryMoveWasteToFoundation e
  | PlayColumn colIndex => run (tryMoveTableauToFoundation colIndex false) e
  end.

(** Every column emptied from left to right, then eight draws, each
    followed by three moves from the waste. *)
Definition winPlays : list Play :=
  (i ← seq 0 7; replicate (S i) (PlayColumn i))
  ++ (_ ← seq 0 8; [PlayStock; PlayWaste; PlayWaste; PlayWaste]).

Definition wonDeal : Engine :=
  run (startNewDeal winRand) (newEngine (Some UndoManager.init)).

Definition wonGame : Engine := foldl play wonDeal winPlays.

(** ** What a move tells the shell *)

(** What the shell is told by [registerMove]. *)
Definition moveReport (e : Engine) (g1 : GameState) : list Notification :=
  (if firstMoveDone e then [] else [OnFirstMove])
  ++ [OnMove (S (moveCount g1)) (score g1) (length (stock g1))].

(** What the shell is told by [checkWinCondition] in state [g]. *)
Definition winReport (g : GameState) : list Notification :=
  if totalInFoundations g =? 52 then [OnWin (moveCount g) (score g)] else [].

(** The sample deal after one click on the stock, and the same with the
    top card of the waste taken off. *)
Definition afterDraw : Engine := run stockClickHandler sampleDeal.

Definition afterDrawPopped : GameState :=
  set_waste (removelast (waste (gameState afterDraw))) (gameState afterDraw).

(** ** Sample states *)

(** The sample deal with the top card of column 0 taken off. *)
Definition sampleDealPopped : GameState :=
  set_tableau (<[0 := []]> (tableau (gameState sampleDeal))) (gameState sampleDeal).

(** ** What the shell has been told *)

(** The callbacks that carry or reset the counters of the status bar. *)
Definition isReport (n : Notification) : bool :=
  match n with
  | OnMove _ _ _ | OnReset => true
  | _ => false
  end.

(** The last such callback made so far. *)
Definition lastReport (l : list Notification) : option Notification :=
  last (List.filter isReport l).

(** The counters of [g] are what the callback [n] said: the payload of
    [onMove], or a fresh deal after [onReset]. *)
Definition reportMatches (n : Notification) (g : GameState) : Prop :=
  match n with
  | OnMove moves sc stockCount =>
      moves = moveCount g ∧ sc = score g ∧ stockCount = length (stock g)
  | OnReset => moveCount g = 0 ∧ score g = 0%Z ∧ length (stock g) = 24
  | _ => False
  end.

(** The number of [onFirstMove] callbacks since the last [onReset]. *)
Definition firstMovesSinceDeal (l : list Notification) : nat :=
  foldl (λ n x, match x with
                | OnReset => 0
                | OnFirstMove => S n
                | _ => n
                end) 0 l.

(** The sample deal after a click on the hint button. *)
Definition afterHint : Engine := run requestHint sampleDeal.

(** ** Leftmost columns *)



(** ** The animation options *)

Definition opts (e : Engine) : string * Z * bool :=
  (animationSpeedPreset e, animationBaseMs e, animationsEnabled e).

(** The base duration is the one of the preset, or zero when animations
    are switched off; the preset is one of the three known names. *)
Definition optionsOk (e : Engine) : Prop :=
  is_Some (presetBaseMs (animationSpeedPreset e)) ∧
  animationBaseMs e
  = if animationsEnabled e
    then default 80%Z (presetBaseMs (animationSpeedPreset e)) else 0%Z.

Definition optsIs (o : string * Z * bool) (e : Engine) : Prop := opts e = o.

(** The sample deal with animations switched off and the slow preset
    chosen. *)
Definition sampleQuiet : Engine :=
  run (updateOptions (Some "slow") (Some false)) sampleDeal.

(** ** The top card of a column *)



(** The game state with the top card of column [colIndex] taken off:
    the card below is turned face up when it was face down, for five
    points. *)
Definition topTaken (g : GameState) (colIndex : nat) (column : list Card)
  : GameState :=
  let below := removelast column in
  set_score (score g + (if exposesFaceDown below then 5 else 0))%Z
    (set_tableau (<[colIndex := withTopRevealed below]> (tableau g)) g).

(* ===================================================================== *)
(** * Properties *)
(* ===================================================================== *)

(** ** Array helpers and the foundation check *)

Ltac munfold :=
  unfold addScore, getsG, modifyG, defined, mbind, mret, M_bind, M_ret,
    gets, modify, throw in *.

Ltac msimpl := munfold; cbn [fst snd gameState] in *.

Lemma pop_snoc {A} (l : list A) (x : A) : pop (l ++ [x]) = (Some x, l).
Proof.
  unfold pop. rewrite last_snoc, length_app. simpl.
  replace (length l + 1 - 1) with (length l) by lia.
  by rewrite take_app_length.
Qed.

Lemma pop_nil {A} : pop (@nil A) = (None, []).
Proof. reflexivity. Qed.

Lemma spliceLast_app {A} (l k : list A) : spliceLast (length k) (l ++ k) = l.
Proof.
  unfold spliceLast. rewrite length_app.
  replace (length l + length k - length k) with (length l) by lia.
  by rewrite take_app_length.
Qed.

Lemma length_pos_snoc {A} (l : list A) :
  0 < length l → ∃ l' x, l = l' ++ [x].
Proof.
  intros H. destruct (last l) as [x|] eqn:E.
  - apply last_Some in E as [l' ->]. eauto.
  - apply last_None in E. subst. simpl in H. lia.
Qed.

Lemma canMoveToFoundation_defined (g : GameState) (card : Card) :
  suit card < length (foundations g) → is_Some (canMoveToFoundation g card).
Proof.
  intros H. unfold canMoveToFoundation.
  destruct (lookup_lt_is_Some_2 _ _ H) as [f ->]. simpl.
  destruct (last f); eauto.
Qed.

(** C7.  When the legality check on [card] does not return the requested
    foundation index, [moveCardToFoundation] returns [false] without an
    exception and the whole engine (piles, score, move count, undo
    history, notifications) is exactly as before. *)
Theorem moveCardToFoundation_illegal_is_rejected
    (e : Engine) (fromLocation : Location) (foundationIndex : Z) (card : Card) :
  suit card < length (foundations (gameState e)) →
  canMoveToFoundation (gameState e) card ≠ Some foundationIndex →
  moveCardToFoundation fromLocation foundationIndex card e = (Some false, e).
Proof.
  intros Hs Hne.
  destruct (canMoveToFoundation_defined _ _ Hs) as [r Hr].
  unfold moveCardToFoundation. msimpl. rewrite Hr.
  destruct (Z.eqb_spec r foundationIndex) as [->|Hd]; [congruence|].
  reflexivity.
Qed.

Lemma captureUndoSnapshot_eq (e : Engine) :
  captureUndoSnapshot e = (Some tt, snapshotTaken e).
Proof. reflexivity. Qed.

Lemma registerMove_eq (e : Engine) :
  registerMove e = (Some tt, moveRegistered e).
Proof.
  unfold registerMove, moveRegistered. msimpl. simpl.
  destruct (firstMoveDone e); reflexivity.
Qed.

Lemma gameState_snapshotTaken (e : Engine) :
  gameState (snapshotTaken e) = gameState e.
Proof. unfold snapshotTaken. by destruct (undoManager e). Qed.

Lemma gameState_moveRegistered (e : Engine) :
  gameState (moveRegistered e)
  = set_moveCount (S (moveCount (gameState e))) (gameState e).
Proof. unfold moveRegistered. simpl. by destruct (firstMoveDone e). Qed.

(** A legal destination exists as a column. *)
Lemma canMoveToTableau_true_dest (g : GameState) cards to :
  canMoveToTableau g cards to = Some true →
  ∃ c cs dest, cards = c :: cs ∧ tableau g !! to = Some dest.
Proof.
  unfold canMoveToTableau. destruct cards as [|c cs]; [discriminate|].
  destruct (tableau g !! to) as [dest|]; [|discriminate]. eauto.
Qed.

(** ** Tableau moves and stock clicks *)

(** C10.  Called with source 'waste' or a foundation locator and at least
    two cards whose first card passes the tableau check,
    [moveCardsToTableau] returns [true], appends the whole array to the
    destination column and counts one move, while stock, waste, every
    foundation and the score stay as they were: only a run of exactly
    one card is ever taken off the waste or a foundation. *)
Theorem moveCardsToTableau_run_from_waste_or_foundation
    (e : Engine) (fromLocation : Location) (toColIndex : nat) (cards : list Card) :
  (fromLocation = LWaste ∨ ∃ i, fromLocation = LFoundation i) →
  2 ≤ length cards →
  canMoveToTableau (gameState e) cards toColIndex = Some true →
  ∃ e' dest,
    moveCardsToTableau fromLocation toColIndex cards e = (Some true, e') ∧
    tableau (gameState e) !! toColIndex = Some dest ∧
    tableau (gameState e')
      = <[toColIndex := dest ++ cards]> (tableau (gameState e)) ∧
    moveCount (gameState e') = S (moveCount (gameState e)) ∧
    waste (gameState e') = waste (gameState e) ∧
    foundations (gameState e') = foundations (gameState e) ∧
    stock (gameState e') = stock (gameState e) ∧
    score (gameState e') = score (gameState e).
Proof.
  intros Hfrom Hlen Hcan.
  destruct (canMoveToTableau_true_dest _ _ _ Hcan) as (c & cs & dest & -> & Hdest).
  assert (Hl : (length (c :: cs) =? 1) = false) by (apply Nat.eqb_neq; lia).
  unfold moveCardsToTableau, removeRunFromSource, pushToTableau. msimpl.
  rewrite Hcan. cbn [negb].
  rewrite captureUndoSnapshot_eq.
  destruct Hfrom as [-> | [i ->]]; rewrite Hl; cbn [andb];
    rewrite gameState_snapshotTaken, Hdest; cbn beta iota;
    rewrite registerMove_eq;
    eexists _, dest; (split; [reflexivity|]);
    rewrite gameState_moveRegistered; simpl;
    rewrite gameState_snapshotTaken; repeat split.
Qed.

Lemma take_pop {A} (l : list A) : take (length l - 1) l = removelast l.
Proof.
  induction l as [|x l IH] using rev_ind; [done|].
  rewrite removelast_last, length_app. simpl.
  replace (length l + 1 - 1) with (length l) by lia.
  by rewrite take_app_length.
Qed.

Lemma revealTop_eq (column : list Card) (e : Engine) :
  ∃ e', revealTop column e = (Some (withTopRevealed column), e') ∧
    gameState e'
      = set_score (score (gameState e)
                   + (if exposesFaceDown column then 5 else 0))%Z (gameState e) ∧
    undoManager e' = undoManager e ∧
    notifications e' = notifications e ∧
    firstMoveDone e' = firstMoveDone e.
Proof.
  unfold revealTop, withTopRevealed, exposesFaceDown.
  destruct (last column) as [c|]; [destruct (faceUp c)|]; msimpl; simpl.
  - eexists. split; [reflexivity|]. destruct e as [[] ?]; simpl.
    rewrite Z.add_0_r. auto.
  - unfold pop. simpl. rewrite take_pop. eexists. split; [reflexivity|]. auto.
  - eexists. split; [reflexivity|]. destruct e as [[] ?]; simpl.
    rewrite Z.add_0_r. auto.
Qed.

Lemma take_run {A} (below cards : list A) :
  take (length (below ++ cards) - length cards) (below ++ cards) = below.
Proof. apply spliceLast_app. Qed.

(** C4.  A legal tableau move (the run lies on its source and passes the
    tableau check) succeeds; the score changes by exactly +5 from the
    waste, -15 from a foundation, and +5 from a tableau column when the
    removal exposes a face-down card, which is turned face up, and 0
    otherwise; the run is appended to the destination column in its own
    order; the move count grows by one. *)
Theorem moveCardsToTableau_legal_move
    (e : Engine) (fromLocation : Location) (toColIndex : nat) (cards : list Card) :
  canMoveToTableau (gameState e) cards toColIndex = Some true →
  runOnSource (gameState e) fromLocation cards →
  ∃ e' dest,
    moveCardsToTableau fromLocation toColIndex cards e = (Some true, e') ∧
    score (gameState e')
      = (score (gameState e)
         + tableauMoveDelta (gameState e) fromLocation cards)%Z ∧
    moveCount (gameState e') = S (moveCount (gameState e)) ∧
    tableauWithoutRun (gameState e) fromLocation cards !! toColIndex
      = Some dest ∧
    tableau (gameState e')
      = <[toColIndex := dest ++ cards]>
          (tableauWithoutRun (gameState e) fromLocation cards).
Proof.
  intros Hcan Hsrc.
  destruct (canMoveToTableau_true_dest _ _ _ Hcan) as (c0 & cs & dest & Hc & Hdest).
  unfold moveCardsToTableau, removeRunFromSource, pushToTableau. msimpl.
  rewrite Hcan. cbn [negb].
  rewrite captureUndoSnapshot_eq.
  destruct Hsrc as [c Hw | i f c Hf Hl | i below cards Hcol Hne].
  - apply last_Some in Hw as [w' Hw].
    cbn [length Nat.eqb andb]. rewrite gameState_snapshotTaken, Hw.
    rewrite length_app. cbn [length].
    replace (0 <? length w' + 1) with true by (symmetry; apply Nat.ltb_lt; lia).
    cbn beta iota. rewrite !gameState_snapshotTaken. simpl.
    rewrite Hdest. cbn beta iota. rewrite registerMove_eq.
    eexists _, dest. split; [reflexivity|].
    rewrite gameState_moveRegistered. simpl. auto.
  - apply last_Some in Hl as [f' ->].
    cbn [length Nat.eqb]. rewrite gameState_snapshotTaken, Hf.
    rewrite length_app. cbn [length].
    replace (0 <? length f' + 1) with true by (symmetry; apply Nat.ltb_lt; lia).
    cbn beta iota. rewrite !gameState_snapshotTaken. simpl.
    rewrite Hdest. cbn beta iota. rewrite registerMove_eq.
    eexists _, dest. split; [reflexivity|].
    rewrite gameState_moveRegistered. simpl. auto.
  - rewrite gameState_snapshotTaken, Hcol. cbn beta iota.
    rewrite spliceLast_app.
    match goal with |- context [revealTop below ?e1] =>
      destruct (revealTop_eq below e1) as (e2 & -> & Hg2 & _) end.
    cbn beta iota. rewrite Hg2. simpl.
    rewrite gameState_snapshotTaken, list_insert_insert_eq.
    unfold tableauWithoutRun, tableauMoveDelta. rewrite Hcol, take_run.
    assert (Hi : i < length (tableau (gameState e)))
      by (eapply lookup_lt_Some; eauto).
    assert (Hto : toColIndex < length (tableau (gameState e)))
      by (eapply lookup_lt_Some; eauto).
    destruct (lookup_lt_is_Some_2
                (<[i := withTopRevealed below]> (tableau (gameState e)))
                toColIndex) as [d Hd]; [by rewrite length_insert|].
    rewrite Hd. cbn beta iota. rewrite registerMove_eq.
    eexists _, d. split; [reflexivity|].
    rewrite gameState_moveRegistered. simpl. auto.
Qed.
(** ** Stock clicks *)

Lemma set_gameState_twice (g1 g2 : GameState) (e : Engine) :
  set_gameState g1 (set_gameState g2 e) = set_gameState g1 e.
Proof. reflexivity. Qed.

Lemma set_gameState_same (e : Engine) : set_gameState (gameState e) e = e.
Proof. by destruct e. Qed.

Lemma drawLoop_eq (n : nat) : ∀ (e : Engine) (s0 r : list Card),
  stock (gameState e) = s0 ++ r → length r = n →
  drawLoop n e
  = (Some tt,
     set_gameState
       (set_waste (waste (gameState e) ++ (setFaceUp true <$> reverse r))
          (set_stock s0 (gameState e))) e).
Proof.
  induction n as [|n IH]; intros e s0 r Hs Hr.
  - destruct r; [|discriminate]. rewrite app_nil_r in Hs. simpl.
    rewrite app_nil_r. unfold mret, M_ret. f_equal.
    destruct e as [[] ?]; simpl in *; by subst.
  - destruct (length_pos_snoc r) as (r' & x & ->); [lia|].
    rewrite length_app in Hr. simpl in Hr.
    cbn [drawLoop]. msimpl. rewrite Hs, app_assoc, pop_snoc. cbn [fst snd].
    erewrite IH; [|simpl; reflexivity|lia].
    simpl. rewrite reverse_snoc, fmap_cons, <- app_assoc. reflexivity.
Qed.

Lemma recycleLoop_eq (n : nat) : ∀ (e : Engine),
  length (waste (gameState e)) = n →
  recycleLoop n e
  = (Some tt,
     set_gameState
       (set_waste []
          (set_stock (stock (gameState e)
                      ++ (setFaceUp false <$> reverse (waste (gameState e))))
             (gameState e))) e).
Proof.
  induction n as [|n IH]; intros e Hw.
  - apply nil_length_inv in Hw. simpl. unfold mret, M_ret. f_equal.
    destruct e as [[] ?]; simpl in *; subst. by rewrite app_nil_r.
  - destruct (length_pos_snoc (waste (gameState e))) as (w' & x & Hx); [lia|].
    cbn [recycleLoop]. msimpl. rewrite Hx, length_app. cbn [length].
    replace (0 <? length w' + 1) with true by (symmetry; apply Nat.ltb_lt; lia).
    rewrite pop_snoc. cbn [fst snd].
    rewrite IH; [|simpl; rewrite Hx, length_app in Hw; simpl in Hw; lia].
    simpl. rewrite reverse_snoc, fmap_cons, <- app_assoc. reflexivity.
Qed.

Lemma handleStockClick_eq (e : Engine) :
  handleStockClick e =
  if 0 <? length (stock (gameState e)) then
    (Some true,
     moveRegistered (set_gameState (drawn (gameState e)) (snapshotTaken e)))
  else if 0 <? length (waste (gameState e)) then
    (Some true,
     moveRegistered (set_gameState (recycled (gameState e)) (snapshotTaken e)))
  else (Some false, e).
Proof.
  unfold handleStockClick. msimpl.
  destruct (0 <? length (stock (gameState e))) eqn:Hs.
  - rewrite captureUndoSnapshot_eq. cbn beta iota.
    erewrite drawLoop_eq with
      (s0 := take (length (stock (gameState e))
                   - Nat.min 3 (length (stock (gameState e))))
                  (stock (gameState e)))
      (r := drop (length (stock (gameState e))
                  - Nat.min 3 (length (stock (gameState e))))
                 (stock (gameState e))).
    + cbn beta iota. rewrite registerMove_eq. cbn beta iota.
      rewrite gameState_snapshotTaken. reflexivity.
    + rewrite gameState_snapshotTaken. by rewrite take_drop.
    + rewrite length_drop. lia.
  - destruct (0 <? length (waste (gameState e))) eqn:Hw.
    + rewrite captureUndoSnapshot_eq. cbn beta iota.
      rewrite recycleLoop_eq by (by rewrite gameState_snapshotTaken).
      cbn beta iota. rewrite registerMove_eq. cbn beta iota.
      rewrite gameState_snapshotTaken.
      apply Nat.ltb_ge in Hs.
      assert (stock (gameState e) = []) as Hnil by (apply nil_length_inv; lia).
      unfold recycled. rewrite Hnil. reflexivity.
    + reflexivity.
Qed.



Lemma setFaceUp_twice (a b : bool) (c : Card) :
  setFaceUp a (setFaceUp b c) = setFaceUp a c.
Proof. reflexivity. Qed.



Lemma elem_of_concat {A} (x : A) (ls : list (list A)) :
  x ∈ concat ls ↔ ∃ l, l ∈ ls ∧ x ∈ l.
Proof.
  rewrite list_elem_of_In, in_concat. split; intros (l & H1 & H2); exists l;
    by rewrite ?list_elem_of_In in *.
Qed.

(** ** Reasoning about methods; undo frame *)

Section Pres.
Context (I : Engine → Prop).

Lemma pres_ret {A} (a : A) : pres I (mret a).
Proof. by intros e. Qed.

Lemma pres_throw {A} : pres I (@throw A).
Proof. by intros e. Qed.

Lemma pres_bind {A B} (m : M A) (k : A → M B) :
  pres I m → (∀ a, pres I (k a)) → pres I (m ≫= k).
Proof.
  intros Hm Hk e He. specialize (Hm e He). unfold run in *.
  unfold mbind, M_bind. destruct (m e) as [[a|] e1]; simpl in *; [|done].
  by apply Hk.
Qed.

(** A bind whose continuation may use what the first part returned. *)
Lemma pres_bind_val {A B} (m : M A) (k : A → M B) :
  pres I m →
  (∀ e a e1, I e → m e = (Some a, e1) → I (run (k a) e1)) →
  pres I (m ≫= k).
Proof.
  intros Hm Hk e He. specialize (Hm e He). unfold run in *.
  unfold mbind, M_bind. destruct (m e) as [[a|] e1] eqn:E; simpl in *; [|done].
  by eapply Hk.
Qed.

Lemma pres_gets {A} (f : Engine → A) : pres I (gets f).
Proof. by intros e. Qed.

Lemma pres_getsG {A} (f : GameState → A) : pres I (getsG f).
Proof. by intros e. Qed.

Lemma pres_defined {A} (o : option A) : pres I (defined o).
Proof. destruct o; by intros e. Qed.

Lemma pres_modify (f : Engine → Engine) :
  (∀ e, I e → I (f e)) → pres I (modify f).
Proof. intros H e He. by apply H. Qed.

Lemma pres_if {A} (b : bool) (m1 m2 : M A) :
  pres I m1 → pres I m2 → pres I (if b then m1 else m2).
Proof. by destruct b. Qed.
End Pres.

Ltac pres_go leaf :=
  repeat first
    [ assumption
    | match goal with
      | |- pres _ (mret _) => apply pres_ret
      | |- pres _ throw => apply pres_throw
      | |- pres _ (gets _) => apply pres_gets
      | |- pres _ (getsG _) => apply pres_getsG
      | |- pres _ (defined _) => apply pres_defined
      | |- pres _ (modify _) => apply pres_modify; solve [leaf]
      | |- pres _ (_ ≫= _) => apply pres_bind; [|intros ?]
      | |- pres _ (if ?b then _ else _) => destruct b
      | |- pres _ (match ?x with _ => _ end) => destruct x
      end ].

Lemma undoManager_moveRegistered (e : Engine) :
  undoManager (moveRegistered e) = undoManager e.
Proof. unfold moveRegistered. simpl. by destruct (firstMoveDone e). Qed.

Ltac frame_leaf := unfold undoIs; intros; simpl; assumption.

Lemma undoIs_modifyG U f : pres (undoIs U) (modifyG f).
Proof. unfold modifyG. pres_go frame_leaf. Qed.

Lemma undoIs_addScore U d : pres (undoIs U) (addScore d).
Proof. apply undoIs_modifyG. Qed.

Lemma undoIs_registerMove U : pres (undoIs U) registerMove.
Proof.
  intros e He. unfold run. rewrite registerMove_eq. simpl.
  unfold undoIs. by rewrite undoManager_moveRegistered.
Qed.

Lemma undoIs_checkWinCondition U : pres (undoIs U) checkWinCondition.
Proof. unfold checkWinCondition. pres_go frame_leaf. Qed.

Lemma undoIs_animateCardMovement U found :
  pres (undoIs U) (animateCardMovement found).
Proof. unfold animateCardMovement. pres_go frame_leaf. Qed.

Lemma undoIs_revealTop U column : pres (undoIs U) (revealTop column).
Proof.
  unfold revealTop.
  pres_go frame_leaf; apply undoIs_addScore || apply undoIs_modifyG.
Qed.

Ltac frame_go :=
  pres_go frame_leaf;
  auto using undoIs_modifyG, undoIs_addScore, undoIs_registerMove,
    undoIs_checkWinCondition, undoIs_animateCardMovement, undoIs_revealTop.

Lemma undoIs_removeRunFromSource U fromLocation cards :
  pres (undoIs U) (removeRunFromSource fromLocation cards).
Proof. unfold removeRunFromSource. frame_go. Qed.

Lemma undoIs_pushToTableau U toColIndex cards :
  pres (undoIs U) (pushToTableau toColIndex cards).
Proof. unfold pushToTableau. frame_go. Qed.

Lemma undoIs_removeCardFromSource U fromLocation :
  pres (undoIs U) (removeCardFromSource fromLocation).
Proof. unfold removeCardFromSource. frame_go. Qed.

Lemma undoIs_pushToFoundation U foundationIndex card :
  pres (undoIs U) (pushToFoundation foundationIndex card).
Proof. unfold pushToFoundation. frame_go. Qed.

Lemma bind_gets_defined {A B} (f : GameState → option A) (k : A → M B) (e : Engine) :
  ((getsG f ≫= defined) ≫= k) e
  = match f (gameState e) with Some a => k a e | None => (None, e) end.
Proof. msimpl. by destruct (f (gameState e)). Qed.

Lemma bind_capture {B} (k : M B) (e : Engine) :
  (captureUndoSnapshot;; k) e = k (snapshotTaken e).
Proof. reflexivity. Qed.

Lemma pres_at {A} (I : Engine → Prop) (m : M A) (e e' : Engine) (r : option A) :
  pres I m → I e → m e = (r, e') → I e'.
Proof. intros Hm He Heq. specialize (Hm e He). unfold run in Hm. by rewrite Heq in Hm. Qed.

Ltac frame_all :=
  frame_go;
  auto using undoIs_removeRunFromSource, undoIs_pushToTableau,
    undoIs_removeCardFromSource, undoIs_pushToFoundation.

Lemma moveCardsToTableau_undoManager e fromLocation toColIndex cards e' :
  moveCardsToTableau fromLocation toColIndex cards e = (Some true, e') →
  undoManager e' = undoManager (snapshotTaken e).
Proof.
  unfold moveCardsToTableau. rewrite bind_gets_defined.
  destruct (canMoveToTableau _ _ _) as [[]|]; [|discriminate..].
  cbn [negb]. rewrite bind_capture.
  apply (pres_at (undoIs (undoManager (snapshotTaken e)))); [|done].
  frame_all.
Qed.

Lemma moveCardToFoundation_undoManager e fromLocation foundationIndex card e' :
  moveCardToFoundation fromLocation foundationIndex card e = (Some true, e') →
  undoManager e' = undoManager (snapshotTaken e).
Proof.
  unfold moveCardToFoundation. rewrite bind_gets_defined.
  destruct (canMoveToFoundation _ _) as [r|]; [|discriminate].
  destruct (negb _); [discriminate|]. rewrite bind_capture.
  apply (pres_at (undoIs (undoManager (snapshotTaken e)))); [|done].
  frame_all.
Qed.

Lemma foundationToTableauLoop_undoManager foundationIndex card found cols :
  ∀ e e',
  foundationToTableauLoop foundationIndex card found cols e = (Some true, e') →
  undoManager e' = undoManager (snapshotTaken e).
Proof.
  induction cols as [|col cols IH]; intros e e'; cbn [foundationToTableauLoop].
  - discriminate.
  - rewrite bind_gets_defined.
    destruct (canMoveToTableau _ _ _) as [[]|]; [|by apply IH|discriminate].
    rewrite bind_capture.
    apply (pres_at (undoIs (undoManager (snapshotTaken e)))); [|done].
    frame_all.
Qed.

Lemma execMove_undoManager (c : MoveCall) (e e' : Engine) :
  execMove c e = (Some true, e') →
  undoManager e' = undoManager (snapshotTaken e).
Proof.
  destruct c; cbn [execMove].
  - rewrite handleStockClick_eq.
    destruct (0 <? _); [|destruct (0 <? _)]; intros [= <-];
      by rewrite undoManager_moveRegistered.
  - apply moveCardToFoundation_undoManager.
  - apply moveCardsToTableau_undoManager.
  - unfold tryMoveFoundationToTableau. rewrite bind_gets_defined.
    destruct (foundations _ !! _) as [f|]; [|discriminate].
    destruct (last f); [|discriminate].
    apply foundationToTableauLoop_undoManager.
Qed.

(** ** Undo *)

Lemma pushSnapshot_history (g : GameState) (u : UndoManager.t) :
  0 < UndoManager.maxHistory u →
  ∃ h, UndoManager.history (UndoManager.pushSnapshot g u) = h ++ [g].
Proof.
  intros Hmax. unfold UndoManager.pushSnapshot, UndoManager.cloneState.
  destruct (UndoManager.maxHistory u <? length (UndoManager.history u ++ [g]));
    simpl; [|eauto].
  rewrite length_app. simpl. rewrite drop_app_le by lia. eauto.
Qed.

(** C2.  With the undo manager installed, every move that the engine
    executes pushes exactly one snapshot equal to the state before the
    move, and one [undoLastMove] then returns [true] and puts that state
    back in every field, leaving the history as it was under the
    snapshot. *)
Theorem undo_restores_state_before_move
    (c : MoveCall) (e e' : Engine) (u : UndoManager.t) :
  undoManager e = Some u →
  0 < UndoManager.maxHistory u →
  execMove c e = (Some true, e') →
  undoManager e' = Some (UndoManager.pushSnapshot (gameState e) u) ∧
  ∃ h e'',
    UndoManager.history (UndoManager.pushSnapshot (gameState e) u)
      = h ++ [gameState e] ∧
    undoLastMove e' = (Some true, e'') ∧
    gameState e'' = gameState e ∧
    undoManager e''
      = Some (UndoManager.mk h (UndoManager.maxHistory u)).
Proof.
  intros Hu Hmax Hexec.
  apply execMove_undoManager in Hexec.
  unfold snapshotTaken in Hexec. rewrite Hu in Hexec. simpl in Hexec.
  split; [exact Hexec|].
  destruct (pushSnapshot_history (gameState e) u Hmax) as [h Hh].
  exists h. unfold undoLastMove. msimpl. rewrite Hexec.
  unfold UndoManager.canUndo, UndoManager.undo, UndoManager.canUndo.
  rewrite Hh, length_app. simpl.
  replace (0 <? length h + 1) with true by (symmetry; apply Nat.ltb_lt; lia).
  rewrite last_snoc, length_app. cbn [length].
  replace (length h + 1 - 1) with (length h) by lia.
  rewrite take_app_length.
  eexists. split; [reflexivity|]. split; [reflexivity|]. split; [reflexivity|].
  simpl. do 2 f_equal.
  unfold UndoManager.pushSnapshot.
  destruct (_ <? _); reflexivity.
Qed.

(** ** Shuffle and deal *)

Lemma insert_swap_head (x b : Card) : ∀ (d : list Card) (j : nat),
  d !! j = Some b → b :: <[j := x]> d ≡ₚ x :: d.
Proof.
  induction d as [|y d IH]; intros [|j] Hj; simplify_eq/=.
  - apply perm_swap.
  - rewrite (perm_swap y b), (IH _ Hj). apply perm_swap.
Qed.

Lemma swap_Permutation (i j : nat) (deck : list Card) : swap i j deck ≡ₚ deck.
Proof.
  unfold swap.
  destruct (deck !! i) as [a|] eqn:Hi; [|done].
  destruct (deck !! j) as [b|] eqn:Hj; [|done].
  revert i j Hi Hj. induction deck as [|x d IH]; intros [|i] [|j] Hi Hj;
    simplify_eq/=; try done.
  - by apply insert_swap_head.
  - by apply insert_swap_head.
  - f_equiv. by apply IH.
Qed.

Lemma shuffleDeck_Permutation (rand : nat → nat) (deck : list Card) :
  shuffleDeck rand deck ≡ₚ deck.
Proof.
  unfold shuffleDeck. generalize (reverse (seq 1 (length deck - 1))).
  intros l. revert deck. induction l as [|i l IH]; intros deck; simpl; [done|].
  rewrite IH. apply swap_Permutation.
Qed.

Ltac explode d H :=
  do 52 (destruct d as [|? d]; [simpl in H; lia|]);
  destruct d; [|simpl in H; lia].

Lemma dealTableau_eq (deck : list Card) :
  length deck = 52 →
  dealTableau deck (tableau emptyGameState)
  = Some (take 24 deck, dealtColumn deck <$> seq 0 7).
Proof. intros H. explode deck H. reflexivity. Qed.

Lemma dealt_partition (deck : list Card) :
  length deck = 52 →
  drop 24 deck = concat (dealSegment deck <$> reverse (seq 0 7)).
Proof. intros H. explode deck H. reflexivity. Qed.

Lemma createDeck_faceDown : Forall faceDown createDeck.
Proof. by repeat constructor. Qed.

Lemma faceDown_Permutation (l k : list Card) :
  l ≡ₚ k → Forall faceDown k → Forall faceDown l.
Proof. intros H. by rewrite H. Qed.

Lemma dealSegment_faceDown (deck : list Card) (i : nat) :
  Forall faceDown deck → Forall faceDown (dealSegment deck i).
Proof. intros H. unfold dealSegment. by apply Forall_take, Forall_drop. Qed.

Lemma dealSegment_length (deck : list Card) (i : nat) :
  length deck = 52 → i < 7 → length (dealSegment deck i) = S i.
Proof.
  intros H Hi. unfold dealSegment. rewrite length_take, length_drop, H.
  do 7 (destruct i as [|i]; [reflexivity|]). lia.
Qed.

Lemma dealtColumn_shape (deck : list Card) (i : nat) :
  length deck = 52 → i < 7 → Forall faceDown deck →
  length (dealtColumn deck i) = i + 1 ∧
  ∃ below top, dealtColumn deck i = below ++ [top] ∧
               faceUp top = true ∧ Forall faceDown below.
Proof.
  intros H Hi Hd.
  pose proof (dealSegment_length deck i H Hi) as Hl.
  pose proof (dealSegment_faceDown deck i Hd) as Hf.
  unfold dealtColumn. destruct (dealSegment deck i) as [|x r]; [discriminate|].
  simpl in *. split.
  - rewrite reverse_cons, length_app, length_reverse. simpl. lia.
  - exists (reverse r), (setFaceUp true x). rewrite reverse_cons.
    split; [done|]. split; [done|].
    apply Forall_reverse. by inversion Hf.
Qed.

Lemma dealtColumn_ids (deck : list Card) (i : nat) :
  id <$> dealtColumn deck i ≡ₚ id <$> dealSegment deck i.
Proof.
  unfold dealtColumn. rewrite reverse_Permutation.
  by destruct (dealSegment deck i).
Qed.

Lemma concat_reverse_Permutation {A} (l : list (list A)) :
  concat (reverse l) ≡ₚ concat l.
Proof.
  induction l as [|x l IH]; [done|].
  rewrite reverse_cons, concat_app. simpl.
  rewrite app_nil_r, IH. apply Permutation_app_comm.
Qed.

Lemma dealt_ids (deck : list Card) :
  length deck = 52 →
  id <$> (take 24 deck ++ concat (dealtColumn deck <$> seq 0 7))
  ≡ₚ id <$> deck.
Proof.
  intros H.
  rewrite <- (take_drop 24 deck) at 3. rewrite (dealt_partition deck H).
  rewrite !fmap_app. f_equiv.
  rewrite fmap_reverse, concat_reverse_Permutation.
  simpl. rewrite !fmap_app, !dealtColumn_ids. done.
Qed.

Lemma createDeck_ids_NoDup : NoDup (id <$> createDeck).
Proof. apply (bool_decide_unpack _). by vm_compute. Qed.

(** The ids of the deck are the 4 x 13 combinations of suit and rank. *)
Lemma createDeck_ids :
  id <$> createDeck = (s ← suits; r ← ranks; [cardId s r]).
Proof. reflexivity. Qed.

Lemma shuffled_length (rand : nat → nat) :
  length (shuffleDeck rand createDeck) = 52.
Proof. by rewrite (shuffleDeck_Permutation rand createDeck). Qed.

Lemma shuffled_faceDown (rand : nat → nat) :
  Forall faceDown (shuffleDeck rand createDeck).
Proof.
  eapply faceDown_Permutation; [apply shuffleDeck_Permutation|].
  apply createDeck_faceDown.
Qed.

Lemma startNewDeal_eq (rand : nat → nat) (e : Engine) :
  ∃ e', startNewDeal rand e = (Some tt, e') ∧
    gameState e' = dealt (shuffleDeck rand createDeck) ∧
    undoManager e' = (UndoManager.reset <$> undoManager e) ∧
    dragData e' = dragData e ∧
    notifications e' = notifications e ++ [OnReset].
Proof.
  unfold startNewDeal.
  pose proof (dealTableau_eq _ (shuffled_length rand)) as Hd.
  revert Hd. generalize (shuffleDeck rand createDeck). intros deck Hd.
  msimpl. simpl in *. rewrite Hd. simpl.
  eexists. split; [reflexivity|]. simpl.
  destruct (undoManager e) eqn:E; simpl; rewrite ?E; auto.
Qed.

(** C5.  Right after a new deal the stock holds 24 face-down cards, the
    waste and the four foundations are empty, column [i] holds [i+1]
    cards of which only the last is face up, score and move count are 0,
    and the 52 ids of the deck (4 suits x 13 ranks) occur exactly once
    over all piles. *)
Theorem startNewDeal_layout (rand : nat → nat) (e : Engine) :
  validRand rand →
  ∃ e', startNewDeal rand e = (Some tt, e') ∧
    let g := gameState e' in
    length (stock g) = 24 ∧ Forall faceDown (stock g) ∧
    waste g = [] ∧
    foundations g = [[]; []; []; []] ∧
    length (tableau g) = 7 ∧
    (∀ i column, tableau g !! i = Some column →
       length column = i + 1 ∧
       ∃ below top, column = below ++ [top] ∧
                    faceUp top = true ∧ Forall faceDown below) ∧
    score g = 0%Z ∧ moveCount g = 0 ∧
    allCardIds g ≡ₚ (s ← suits; r ← ranks; [cardId s r]) ∧
    NoDup (allCardIds g) ∧
    length (allCardIds g) = 52.
Proof.
  intros _.
  destruct (startNewDeal_eq rand e) as (e' & Heq & Hg & _).
  exists e'. split; [exact Heq|]. rewrite Hg. clear Heq Hg.
  pose proof (shuffled_length rand) as Hlen.
  pose proof (shuffled_faceDown rand) as Hfd.
  pose proof (shuffleDeck_Permutation rand createDeck) as Hperm.
  revert Hlen Hfd Hperm. generalize (shuffleDeck rand createDeck).
  intros deck Hlen Hfd Hperm.
  assert (Hids : allCardIds (dealt deck) ≡ₚ id <$> createDeck).
  { unfold allCardIds, allCards, dealt. cbn [stock waste foundations tableau].
    cbn [concat app]. rewrite (dealt_ids deck Hlen). by rewrite Hperm. }
  cbn zeta. cbn [dealt stock waste foundations tableau score moveCount].
  split; [rewrite length_take; lia|].
  split; [by apply Forall_take|].
  split; [done|]. split; [done|].
  split; [by rewrite length_fmap, length_seq|].
  split.
  { intros i column Hi.
    apply list_lookup_fmap_Some in Hi as (k & -> & Hk).
    apply lookup_seq in Hk as [-> Hk]. simpl.
    by apply dealtColumn_shape. }
  split; [done|]. split; [done|].
  split; [by rewrite Hids, createDeck_ids|].
  split; [rewrite Hids; apply createDeck_ids_NoDup|].
  by rewrite Hids.
Qed.

(** ** Animation gate *)

Section FrameInvariant.
Context (I : Engine → Prop).
Hypothesis I_gameState : ∀ e g, I e → I (set_gameState g e).
Hypothesis I_currentHint : ∀ e h, I e → I (set_currentHint h e).
Hypothesis I_firstMoveDone : ∀ e b, I e → I (set_firstMoveDone b e).
Hypothesis I_notify : ∀ e n, I e → I (notify n e).
Hypothesis I_revealed : ∀ e r, I e → I (set_revealedCardIds r e).
Hypothesis I_dragData : ∀ e d, I e → I (set_dragData d e).
Hypothesis I_undoManager : ∀ e u, I e → I (set_undoManager u e).
Hypothesis I_animate : ∀ found, pres I (animateCardMovement found).

Ltac leaf :=
  intros;
  repeat first
    [ assumption
    | apply I_gameState | apply I_currentHint | apply I_firstMoveDone
    | apply I_notify | apply I_revealed | apply I_dragData
    | apply I_undoManager
    | match goal with |- I (match ?x with _ => _ end) => destruct x end ].

Ltac go := pres_go leaf.

Lemma frame_modifyG f : pres I (modifyG f).
Proof. unfold modifyG. go. Qed.

Lemma frame_addScore d : pres I (addScore d).
Proof. apply frame_modifyG. Qed.

Lemma frame_captureUndoSnapshot : pres I captureUndoSnapshot.
Proof. unfold captureUndoSnapshot. go. Qed.

Lemma frame_registerMove : pres I registerMove.
Proof. unfold registerMove. go; apply frame_modifyG. Qed.

Lemma frame_checkWinCondition : pres I checkWinCondition.
Proof. unfold checkWinCondition. go. Qed.

Lemma frame_revealTop column : pres I (revealTop column).
Proof. unfold revealTop. go; apply frame_addScore. Qed.

Local Hint Resolve frame_modifyG frame_addScore frame_captureUndoSnapshot
  frame_registerMove frame_checkWinCondition frame_revealTop I_animate : core.

Ltac go' := pres_go leaf; auto.

Lemma frame_removeRunFromSource fromLocation cards :
  pres I (removeRunFromSource fromLocation cards).
Proof. unfold removeRunFromSource. go'. Qed.

Lemma frame_pushToTableau toColIndex cards :
  pres I (pushToTableau toColIndex cards).
Proof. unfold pushToTableau. go'. Qed.

Lemma frame_removeCardFromSource fromLocation :
  pres I (removeCardFromSource fromLocation).
Proof. unfold removeCardFromSource. go'. Qed.

Lemma frame_pushToFoundation foundationIndex card :
  pres I (pushToFoundation foundationIndex card).
Proof. unfold pushToFoundation. go'. Qed.

Local Hint Resolve frame_removeRunFromSource frame_pushToTableau
  frame_removeCardFromSource frame_pushToFoundation : core.

Lemma frame_moveCardsToTableau fromLocation toColIndex cards :
  pres I (moveCardsToTableau fromLocation toColIndex cards).
Proof. unfold moveCardsToTableau. go'. Qed.

Lemma frame_moveCardToFoundation fromLocation foundationIndex card :
  pres I (moveCardToFoundation fromLocation foundationIndex card).
Proof. unfold moveCardToFoundation. go'. Qed.

Lemma frame_drawLoop n : pres I (drawLoop n).
Proof. induction n; simpl; go'. Qed.

Lemma frame_recycleLoop n : pres I (recycleLoop n).
Proof. induction n; simpl; go'. Qed.

Local Hint Resolve frame_moveCardsToTableau frame_moveCardToFoundation
  frame_drawLoop frame_recycleLoop : core.

Lemma frame_handleStockClick : pres I handleStockClick.
Proof. unfold handleStockClick. go'. Qed.

Lemma frame_tryMoveWasteToFoundation : pres I tryMoveWasteToFoundation.
Proof. unfold tryMoveWasteToFoundation. go'. Qed.

Lemma frame_autoTableauLoop colIndex card found cols :
  pres I (autoTableauLoop colIndex card found cols).
Proof. induction cols; simpl; go'. Qed.

Lemma frame_stackMoveLoop colIndex stack found cols :
  pres I (stackMoveLoop colIndex stack found cols).
Proof. induction cols; simpl; go'. Qed.

Lemma frame_wasteToTableauLoop topCard found cols :
  pres I (wasteToTableauLoop topCard found cols).
Proof. induction cols; simpl; go'. Qed.

Lemma frame_foundationToTableauLoop foundationIndex card found cols :
  pres I (foundationToTableauLoop foundationIndex card found cols).
Proof. induction cols; simpl; go'. Qed.

Local Hint Resolve frame_handleStockClick frame_tryMoveWasteToFoundation
  frame_autoTableauLoop frame_stackMoveLoop frame_wasteToTableauLoop
  frame_foundationToTableauLoop : core.

Lemma frame_tryMoveTableauToFoundation colIndex found :
  pres I (tryMoveTableauToFoundation colIndex found).
Proof. unfold tryMoveTableauToFoundation. go'. Qed.

Lemma frame_tryMoveFoundationToTableau foundationIndex found :
  pres I (tryMoveFoundationToTableau foundationIndex found).
Proof. unfold tryMoveFoundationToTableau. go'. Qed.

Lemma frame_handleWasteClick found : pres I (handleWasteClick found).
Proof. unfold handleWasteClick. go'. Qed.

Lemma frame_attemptMove fromLocation toLocation cards :
  pres I (attemptMove fromLocation toLocation cards).
Proof. unfold attemptMove. go'. Qed.

Local Hint Resolve frame_tryMoveTableauToFoundation
  frame_tryMoveFoundationToTableau frame_handleWasteClick
  frame_attemptMove : core.

Lemma frame_undoLastMove : pres I undoLastMove.
Proof. unfold undoLastMove. go'. Qed.

Lemma frame_requestHint : pres I requestHint.
Proof. unfold requestHint. go'. Qed.

Lemma frame_startNewDeal rand : pres I (startNewDeal rand).
Proof. unfold startNewDeal. go'. Qed.

Lemma frame_handleDragStart el : pres I (handleDragStart el).
Proof. unfold handleDragStart. go'. Qed.

Lemma frame_handleDrop dropZoneId : pres I (handleDrop dropZoneId).
Proof. unfold handleDrop. go'. Qed.

Lemma frame_stockClickHandler : pres I stockClickHandler.
Proof. unfold stockClickHandler. go'. Qed.

Lemma frame_clickHandler el found : pres I (clickHandler el found).
Proof. unfold clickHandler. go'. Qed.

Lemma frame_dropHandler dropZoneId : pres I (dropHandler dropZoneId).
Proof. unfold dropHandler. go'. apply frame_handleDrop. Qed.

Lemma frame_dragEndHandler : pres I dragEndHandler.
Proof. unfold dragEndHandler. go'. Qed.
End FrameInvariant.

Lemma zero_durations (e : Engine) :
  animationBaseMs e = 0%Z →
  Qeq_bool (moveDurationMs (getAnimationDurations e)) 0 = true ∧
  Qeq_bool (flipTotalMs (getAnimationDurations e)) 0 = true.
Proof. intros H. unfold getAnimationDurations. rewrite H. done. Qed.

Lemma noWindow_animateCardMovement found :
  pres noWindow (animateCardMovement found).
Proof.
  intros e (Hm & Hf & Hb). unfold run, animateCardMovement. msimpl.
  destruct found; [|done]. cbn [negb].
  destruct (zero_durations e Hb) as [-> _]. rewrite orb_true_r. done.
Qed.

Lemma noWindow_animationFrame anyFound :
  pres noWindow (animationFrame anyFound).
Proof.
  intros e (Hm & Hf & Hb).
  unfold run, animationFrame, animateRevealedCards. msimpl.
  destruct (length (revealedCardIds e) =? 0); [done|].
  destruct (zero_durations e Hb) as [_ ->]. rewrite orb_true_r. done.
Qed.

Lemma updateOptions_flags preset enabled (e : Engine) :
  isMoveAnimating (run (updateOptions preset enabled) e) = isMoveAnimating e ∧
  isFlipAnimating (run (updateOptions preset enabled) e) = isFlipAnimating e.
Proof.
  unfold run, updateOptions. msimpl.
  destruct preset as [p|], enabled as [b|]; simpl;
    repeat (match goal with |- context [if ?c then _ else _] => destruct c end;
            simpl); done.
Qed.

Ltac noWindow_leaf := unfold noWindow; intros ? ? (? & ? & ?); done.

Lemma noWindow_step (e e' : Engine) :
  noWindow e → step e e' → isAnimating e' = false.
Proof.
  intros Hn Hstep.
  assert (Hgo : ∀ e1, noWindow e1 → isAnimating e1 = false).
  { intros e1 (H1 & H2 & _). unfold isAnimating. by rewrite H1, H2. }
  assert (HA := noWindow_animateCardMovement).
  destruct Hstep.
  - apply Hgo. apply frame_stockClickHandler; try done; noWindow_leaf.
  - apply Hgo. apply frame_clickHandler; try done; noWindow_leaf.
  - apply Hgo. unfold dragGesture.
    destruct (isAnimating e); [done|].
    apply frame_dragEndHandler; try noWindow_leaf.
    destruct dropZone.
    + apply frame_dropHandler; try done; try noWindow_leaf.
      apply frame_handleDragStart; try done; noWindow_leaf.
    + apply frame_handleDragStart; try done; noWindow_leaf.
  - apply Hgo. apply frame_undoLastMove; try done; noWindow_leaf.
  - apply Hgo. apply frame_requestHint; try done; noWindow_leaf.
  - apply Hgo. apply frame_startNewDeal; try done; noWindow_leaf.
  - destruct Hn as (H1 & H2 & _).
    destruct (updateOptions_flags preset enabled e) as [Hm Hf].
    unfold isAnimating. by rewrite Hm, Hf, H1, H2.
  - apply Hgo. apply frame_tryMoveWasteToFoundation; try done; noWindow_leaf.
  - apply Hgo. apply frame_tryMoveTableauToFoundation; try done; noWindow_leaf.
  - apply Hgo. apply frame_tryMoveFoundationToTableau; try done; noWindow_leaf.
  - apply Hgo. by apply noWindow_animationFrame.
  - destruct Hn as (H1 & H2 & _). unfold isAnimating. simpl. by rewrite H2.
  - destruct Hn as (H1 & H2 & _). unfold isAnimating. simpl. by rewrite H1.
Qed.

(** C9.  While [isAnimating] holds, the stock, card-click and drop
    listeners return at once and leave the whole engine as it is: no
    state change, no notification, nothing recorded for later.  With a
    zero base duration no event ever raises either flag. *)
Theorem animation_gate :
  (∀ e, isAnimating e = true →
     stockClickHandler e = (Some tt, e) ∧
     (∀ el found, clickHandler el found e = (Some tt, e)) ∧
     (∀ dropZoneId, dropHandler dropZoneId e = (Some tt, e))) ∧
  (∀ e e', animationBaseMs e = 0%Z → isAnimating e = false →
     step e e' → isAnimating e' = false).
Proof.
  split.
  - intros e Ha. unfold stockClickHandler, clickHandler, dropHandler. msimpl.
    rewrite Ha. done.
  - intros e e' Hb Ha. apply noWindow_step.
    unfold isAnimating in Ha. apply orb_false_elim in Ha as [? ?]. done.
Qed.

(** ** Face-up suffix invariant *)

Lemma faceUpSuffix_nil : faceUpSuffix [].
Proof. intros i j a b Hi. by rewrite lookup_nil in Hi. Qed.

Lemma faceUpSuffix_take (n : nat) (column : list Card) :
  faceUpSuffix column → faceUpSuffix (take n column).
Proof.
  intros H i j a b Hi Hj Hij Ha.
  apply lookup_take_Some in Hi as [Hi _]. apply lookup_take_Some in Hj as [Hj _].
  eauto.
Qed.

Lemma faceUpSuffix_app (column cards : list Card) :
  faceUpSuffix column → Forall isUp cards → faceUpSuffix (column ++ cards).
Proof.
  intros H Hc i j a b Hi Hj Hij Ha.
  apply lookup_app_Some in Hj as [Hj | [Hlen Hj]].
  - apply lookup_app_Some in Hi as [Hi | [Hlen' _]].
    + eauto.
    + apply lookup_lt_Some in Hj. lia.
  - rewrite Forall_lookup in Hc. by eapply Hc.
Qed.

Lemma faceUpSuffix_all_up (cards : list Card) :
  Forall isUp cards → faceUpSuffix cards.
Proof. intros H. apply (faceUpSuffix_app [] cards faceUpSuffix_nil H). Qed.

Lemma removelast_take {A} (l : list A) : removelast l = take (length l - 1) l.
Proof. symmetry. apply take_pop. Qed.

Lemma faceUpSuffix_reveal (column : list Card) :
  faceUpSuffix column → faceUpSuffix (withTopRevealed column).
Proof.
  intros H. unfold withTopRevealed.
  destruct (last column) as [c|]; [|done]. destruct (faceUp c); [done|].
  apply faceUpSuffix_app.
  - rewrite removelast_take. by apply faceUpSuffix_take.
  - by repeat constructor.
Qed.

Lemma faceUpSuffix_down_up (below : list Card) (top : Card) :
  Forall faceDown below → faceUpSuffix (below ++ [top]).
Proof.
  intros Hb i j a b Hi Hj Hij Ha.
  apply lookup_app_Some in Hi as [Hi | [Hlen Hi]].
  - rewrite Forall_lookup in Hb. specialize (Hb _ _ Hi).
    unfold faceDown in Hb. congruence.
  - apply lookup_lt_Some in Hj. rewrite length_app in Hj. simpl in Hj.
    apply lookup_lt_Some in Hi. simpl in Hi. lia.
Qed.

Lemma Forall_pop {A} (P : A → Prop) (l : list A) :
  Forall P l → Forall P (snd (pop l)).
Proof. intros H. unfold pop. simpl. by apply Forall_take. Qed.

Lemma last_Forall {A} (P : A → Prop) (l : list A) (x : A) :
  Forall P l → last l = Some x → P x.
Proof.
  intros H Hl. apply last_Some in Hl as [l' ->].
  apply Forall_app in H as [_ H]. by inversion H.
Qed.

Lemma pilesOk_set_tableau (g : GameState) (i : nat) (column : list Card) :
  pilesOk g → faceUpSuffix column →
  pilesOk (set_tableau (<[i := column]> (tableau g)) g).
Proof.
  intros (Ht & Hw & Hf) Hc. repeat split; simpl; try done.
  by apply Forall_insert.
Qed.

Lemma pilesOk_set_waste (g : GameState) (w : list Card) :
  pilesOk g → Forall isUp w → pilesOk (set_waste w g).
Proof. intros (Ht & Hw & Hf) Hc. by repeat split. Qed.

Lemma pilesOk_set_stock (g : GameState) (s : list Card) :
  pilesOk g → pilesOk (set_stock s g).
Proof. intros (Ht & Hw & Hf). by repeat split. Qed.

Lemma pilesOk_set_score (g : GameState) (s : Z) :
  pilesOk g → pilesOk (set_score s g).
Proof. intros (Ht & Hw & Hf). by repeat split. Qed.

Lemma pilesOk_set_moveCount (g : GameState) (n : nat) :
  pilesOk g → pilesOk (set_moveCount n g).
Proof. intros (Ht & Hw & Hf). by repeat split. Qed.

Lemma pilesOk_set_foundation (g : GameState) (i : nat) (f : list Card) :
  pilesOk g → Forall isUp f →
  pilesOk (set_foundations (<[i := f]> (foundations g)) g).
Proof.
  intros (Ht & Hw & Hf) Hc. repeat split; simpl; try done.
  by apply Forall_insert.
Qed.

Lemma pilesOk_column (g : GameState) (i : nat) (column : list Card) :
  pilesOk g → tableau g !! i = Some column → faceUpSuffix column.
Proof. intros (Ht & _) Hi. rewrite Forall_lookup in Ht. eauto. Qed.

Lemma pilesOk_foundation (g : GameState) (i : nat) (f : list Card) :
  pilesOk g → foundations g !! i = Some f → Forall isUp f.
Proof. intros (_ & _ & Hf) Hi. rewrite Forall_lookup in Hf. eauto. Qed.

Lemma pilesOk_dealt (deck : list Card) :
  length deck = 52 → Forall faceDown deck → pilesOk (dealt deck).
Proof.
  intros Hlen Hfd. repeat split; simpl.
  - apply Forall_lookup. intros i column Hi.
    change ((dealtColumn deck <$> seq 0 7) !! i = Some column) in Hi.
    apply list_lookup_fmap_Some in Hi as (k & -> & Hk).
    apply lookup_seq in Hk as [-> Hk]. simpl.
    destruct (dealtColumn_shape deck i Hlen Hk Hfd) as (_ & below & top & -> & _ & Hb).
    by apply faceUpSuffix_down_up.
  - constructor.
  - by repeat constructor.
Qed.

Ltac ok_leaf :=
  unfold engineOk, historyOk; intros ? [? ?]; simpl; split;
  auto using pilesOk_set_score, pilesOk_set_moveCount, pilesOk_set_stock.

Lemma ok_set_gameState (g : GameState) (e : Engine) :
  engineOk e → pilesOk g → engineOk (set_gameState g e).
Proof. intros [_ Hh] Hg. by split. Qed.

Lemma pilesOk_gameState (e : Engine) : engineOk e → pilesOk (gameState e).
Proof. by intros [? _]. Qed.

Lemma ok_modifyG (f : GameState → GameState) :
  (∀ g, pilesOk g → pilesOk (f g)) → pres engineOk (modifyG f).
Proof.
  intros Hf e [Hp Hh]. unfold run, modifyG, modify. simpl.
  split; [by apply Hf|done].
Qed.

Lemma ok_addScore d : pres engineOk (addScore d).
Proof. apply ok_modifyG. intros g. apply pilesOk_set_score. Qed.

Lemma ok_snapshotTaken (e : Engine) : engineOk e → engineOk (snapshotTaken e).
Proof.
  intros [Hp Hh]. unfold snapshotTaken.
  destruct (undoManager e) as [u|] eqn:Hu; [|by split].
  split; [done|]. intros u' [= <-].
  specialize (Hh u Hu).
  unfold UndoManager.pushSnapshot, UndoManager.cloneState.
  assert (Forall pilesOk (UndoManager.history u ++ [gameState e]))
    by (apply Forall_app; split; [done|by constructor]).
  destruct (_ <? _); simpl; [by apply Forall_drop|done].
Qed.

Lemma ok_captureUndoSnapshot : pres engineOk captureUndoSnapshot.
Proof. intros e He. apply ok_snapshotTaken, He. Qed.

Lemma ok_moveRegistered (e : Engine) : engineOk e → engineOk (moveRegistered e).
Proof.
  intros [Hp Hh]. split.
  - rewrite gameState_moveRegistered. by apply pilesOk_set_moveCount.
  - unfold historyOk. by rewrite undoManager_moveRegistered.
Qed.

Lemma ok_registerMove : pres engineOk registerMove.
Proof. intros e He. unfold run. rewrite registerMove_eq. by apply ok_moveRegistered. Qed.

Lemma ok_checkWinCondition : pres engineOk checkWinCondition.
Proof. unfold checkWinCondition. pres_go ok_leaf. Qed.

Lemma ok_animateCardMovement found : pres engineOk (animateCardMovement found).
Proof. unfold animateCardMovement. pres_go ok_leaf. Qed.

Lemma ok_animationFrame anyFound : pres engineOk (animationFrame anyFound).
Proof. unfold animationFrame, animateRevealedCards. pres_go ok_leaf. Qed.

Lemma ok_revealTop column : pres engineOk (revealTop column).
Proof. unfold revealTop. pres_go ok_leaf. apply ok_addScore. Qed.

Lemma run_bind {A B} (I : Engine → Prop) (m : M A) (k : A → M B) (e : Engine) :
  (∀ a e1, m e = (Some a, e1) → I (run (k a) e1)) →
  (∀ e1, m e = (None, e1) → I e1) →
  I (run (m ≫= k) e).
Proof.
  intros Hs Hn. unfold run, mbind, M_bind.
  destruct (m e) as [[a|] e1]; simpl; eauto.
Qed.

Lemma run_gets_defined {A B} (I : Engine → Prop) (f : GameState → option A)
    (k : A → M B) (e : Engine) :
  I e →
  (∀ a, f (gameState e) = Some a → I (run (k a) e)) →
  I (run ((getsG f ≫= defined) ≫= k) e).
Proof.
  intros He Hk. unfold run. rewrite bind_gets_defined.
  destruct (f (gameState e)); simpl; eauto.
Qed.

Lemma run_getsG {A B} (I : Engine → Prop) (f : GameState → A)
    (k : A → M B) (e : Engine) :
  I (run (k (f (gameState e))) e) → I (run (getsG f ≫= k) e).
Proof. done. Qed.

Lemma run_gets {A B} (I : Engine → Prop) (f : Engine → A)
    (k : A → M B) (e : Engine) :
  I (run (k (f e)) e) → I (run (gets f ≫= k) e).
Proof. done. Qed.

Lemma ok_removeRunFromSource fromLocation cards :
  pres engineOk (removeRunFromSource fromLocation cards).
Proof.
  intros e He. unfold removeRunFromSource.
  destruct fromLocation as [|i|i|]; [| | |done].
  - apply run_getsG. destruct (_ && _); [|done].
    apply pres_bind; [|intros; apply ok_addScore|done].
    apply ok_modifyG. intros g Hg. apply pilesOk_set_waste; [done|].
    apply Forall_pop. apply He.
  - destruct (_ =? _); [|done].
    apply run_gets_defined; [done|]. intros f Hf.
    destruct (0 <? _); [|done].
    apply pres_bind; [|intros; apply ok_addScore|done].
    apply ok_modifyG. intros g Hg. apply pilesOk_set_foundation; [done|].
    apply Forall_pop. eapply pilesOk_foundation; [apply He|done].
  - apply run_gets_defined; [done|]. intros col Hcol.
    assert (Hs : faceUpSuffix (spliceLast (length cards) col)).
    { apply faceUpSuffix_take. eapply pilesOk_column; [apply He|done]. }
    apply pres_bind; [| |done].
    + apply ok_modifyG. intros g Hg. by apply pilesOk_set_tableau.
    + intros _. apply pres_bind_val; [apply ok_revealTop|].
      intros e1 a e2 He1 Hr.
      destruct (revealTop_eq (spliceLast (length cards) col) e1) as (e3 & Hr' & _).
      rewrite Hr in Hr'. injection Hr' as -> ->.
      apply ok_modifyG.
      * intros g Hg. apply pilesOk_set_tableau; [done|].
        by apply faceUpSuffix_reveal.
      * by apply (pres_at engineOk _ _ _ _ (ok_revealTop _) He1 Hr).
Qed.

Lemma ok_pushToTableau toColIndex cards :
  Forall isUp cards → pres engineOk (pushToTableau toColIndex cards).
Proof.
  intros Hc e He. unfold pushToTableau.
  apply run_gets_defined; [done|]. intros dest Hd.
  apply ok_modifyG; [|done]. intros g Hg. apply pilesOk_set_tableau; [done|].
  apply faceUpSuffix_app; [|done]. eapply pilesOk_column; [apply He|done].
Qed.

Lemma ok_removeCardFromSource fromLocation :
  pres engineOk (removeCardFromSource fromLocation).
Proof.
  intros e He. unfold removeCardFromSource.
  destruct fromLocation as [|i|i|]; [|done| |done].
  - apply run_getsG. destruct (0 <? _); [|done].
    apply ok_modifyG; [|done]. intros g Hg. apply pilesOk_set_waste; [done|].
    apply Forall_pop. apply He.
  - apply run_gets_defined; [done|]. intros col Hcol.
    destruct (0 <? _); [|done].
    assert (Hs : faceUpSuffix (snd (pop col))).
    { apply faceUpSuffix_take. eapply pilesOk_column; [apply He|done]. }
    apply pres_bind; [| |done].
    + apply ok_modifyG. intros g Hg. by apply pilesOk_set_tableau.
    + intros _. apply pres_bind_val; [apply ok_revealTop|].
      intros e1 a e2 He1 Hr.
      destruct (revealTop_eq (snd (pop col)) e1) as (e3 & Hr' & _).
      rewrite Hr in Hr'. injection Hr' as -> ->.
      apply ok_modifyG.
      * intros g Hg. apply pilesOk_set_tableau; [done|].
        by apply faceUpSuffix_reveal.
      * by apply (pres_at engineOk _ _ _ _ (ok_revealTop _) He1 Hr).
Qed.

Lemma pilesOk_lookupZ (g : GameState) (i : Z) (f : list Card) :
  pilesOk g → lookupZ (foundations g) i = Some f → Forall isUp f.
Proof.
  unfold lookupZ. destruct (i <? 0)%Z; [done|]. apply pilesOk_foundation.
Qed.

Lemma ok_pushToFoundation foundationIndex card :
  isUp card → pres engineOk (pushToFoundation foundationIndex card).
Proof.
  intros Hc e He. unfold pushToFoundation.
  apply run_gets_defined; [done|]. intros f Hf.
  apply ok_modifyG; [|done]. intros g Hg. unfold insertZ.
  destruct (foundationIndex <? 0)%Z.
  - destruct g, Hg as (? & ? & ?). by repeat split.
  - apply pilesOk_set_foundation; [done|].
    apply Forall_app. split; [|by repeat constructor].
    eapply pilesOk_lookupZ; [apply He|done].
Qed.

Lemma ok_moveCardsToTableau fromLocation toColIndex cards :
  Forall isUp cards →
  pres engineOk (moveCardsToTableau fromLocation toColIndex cards).
Proof.
  intros Hc. unfold moveCardsToTableau.
  pres_go ok_leaf;
    auto using ok_captureUndoSnapshot, ok_removeRunFromSource,
      ok_pushToTableau, ok_registerMove.
Qed.

Lemma ok_moveCardToFoundation fromLocation foundationIndex card :
  isUp card →
  pres engineOk (moveCardToFoundation fromLocation foundationIndex card).
Proof.
  intros Hc. unfold moveCardToFoundation.
  pres_go ok_leaf;
    auto using ok_captureUndoSnapshot, ok_removeCardFromSource,
      ok_pushToFoundation, ok_registerMove, ok_checkWinCondition, ok_addScore.
Qed.

Lemma ok_handleStockClick : pres engineOk handleStockClick.
Proof.
  intros e He. unfold run. rewrite handleStockClick_eq.
  destruct (0 <? _); [|destruct (0 <? _)]; simpl; [| |done];
    apply ok_moveRegistered, ok_set_gameState;
    try (apply ok_snapshotTaken, He).
  - unfold drawn. apply pilesOk_set_waste; [apply pilesOk_set_stock, He|].
    apply Forall_app. split; [apply He|].
    apply Forall_fmap, Forall_true. done.
  - unfold recycled. apply pilesOk_set_waste; [apply pilesOk_set_stock, He|].
    constructor.
Qed.

Lemma ok_autoTableauLoop colIndex card found cols :
  isUp card → pres engineOk (autoTableauLoop colIndex card found cols).
Proof.
  intros Hc. induction cols; simpl;
    pres_go ok_leaf;
    auto using ok_moveCardsToTableau, ok_animateCardMovement, Forall_cons, Forall_nil.
Qed.

Lemma ok_stackMoveLoop colIndex stack found cols :
  Forall isUp stack → pres engineOk (stackMoveLoop colIndex stack found cols).
Proof.
  intros Hc. induction cols; simpl;
    pres_go ok_leaf;
    auto using ok_moveCardsToTableau, ok_animateCardMovement.
Qed.

Lemma ok_wasteToTableauLoop topCard found cols :
  isUp topCard → pres engineOk (wasteToTableauLoop topCard found cols).
Proof.
  intros Hc. induction cols; simpl;
    pres_go ok_leaf;
    auto using ok_moveCardsToTableau, ok_animateCardMovement, Forall_cons, Forall_nil.
Qed.

Lemma ok_foundationToTableauLoop foundationIndex card found cols :
  isUp card →
  pres engineOk (foundationToTableauLoop foundationIndex card found cols).
Proof.
  intros Hc. induction cols as [|col cols IH]; cbn [foundationToTableauLoop];
    [apply pres_ret|].
  apply pres_bind; [pres_go ok_leaf|]. intros [|]; [|done].
  apply pres_bind; [apply ok_captureUndoSnapshot|]. intros _.
  intros e He. apply run_gets_defined; [done|]. intros f Hf.
  apply pres_bind; [| |done].
  - apply ok_modifyG. intros g Hg. apply pilesOk_set_foundation; [done|].
    apply Forall_pop. eapply pilesOk_foundation; [apply He|done].
  - intros _. pres_go ok_leaf;
      auto using ok_pushToTableau, ok_registerMove, ok_animateCardMovement,
        ok_addScore, Forall_cons, Forall_nil.
Qed.

Lemma pres_apply {A} (I : Engine → Prop) (m : M A) (e : Engine) :
  pres I m → I e → I (run m e).
Proof. intros H. apply H. Qed.

Lemma ok_tryMoveWasteToFoundation : pres engineOk tryMoveWasteToFoundation.
Proof.
  intros e He. unfold tryMoveWasteToFoundation. apply run_getsG.
  destruct (last _) as [card|] eqn:Hl; [|done].
  assert (isUp card) by (eapply last_Forall; [apply He|done]).
  apply pres_apply; [|done].
  pres_go ok_leaf. by apply ok_moveCardToFoundation.
Qed.

Lemma ok_tryMoveTableauToFoundation colIndex found :
  pres engineOk (tryMoveTableauToFoundation colIndex found).
Proof.
  intros e He. unfold tryMoveTableauToFoundation. apply run_gets.
  destruct (_ !! _) as [column|]; [|done].
  destruct (last _) as [card|]; [|done].
  destruct (faceUp card) eqn:Hc; [|done]. cbn [negb].
  apply pres_apply; [|done].
  pres_go ok_leaf;
    auto using ok_moveCardToFoundation, ok_animateCardMovement,
      ok_autoTableauLoop.
Qed.

Lemma ok_tryMoveFoundationToTableau foundationIndex found :
  pres engineOk (tryMoveFoundationToTableau foundationIndex found).
Proof.
  intros e He. unfold tryMoveFoundationToTableau.
  apply run_gets_defined; [done|]. intros f Hf.
  destruct (last f) as [card|] eqn:Hl; [|done].
  apply ok_foundationToTableauLoop; [|done].
  eapply last_Forall; [|done]. eapply pilesOk_foundation; [apply He|done].
Qed.

Lemma ok_handleWasteClick found : pres engineOk (handleWasteClick found).
Proof.
  intros e He. unfold handleWasteClick. apply run_gets.
  destruct (last _) as [card|] eqn:Hl; [|done].
  assert (isUp card) by (eapply last_Forall; [apply He|done]).
  apply pres_apply; [|done].
  pres_go ok_leaf;
    auto using ok_moveCardToFoundation, ok_animateCardMovement,
      ok_wasteToTableauLoop.
Qed.

Lemma ok_attemptMove fromLocation toLocation cards :
  (∀ cs, cards = Some cs → Forall isUp cs) →
  pres engineOk (attemptMove fromLocation toLocation cards).
Proof.
  intros Hc. unfold attemptMove.
  destruct cards as [[|card0 cs]|]; [apply pres_ret| |apply pres_ret].
  specialize (Hc _ eq_refl).
  destruct toLocation; try apply pres_ret.
  - apply ok_moveCardToFoundation. by inversion Hc.
  - by apply ok_moveCardsToTableau.
Qed.

Lemma ok_handleDrop dropZoneId (e : Engine) :
  engineOk e → dragOk e → engineOk (run (handleDrop dropZoneId) e).
Proof.
  intros He Hd. unfold handleDrop. apply run_gets.
  destruct (dragData e) as [d|] eqn:Hdd; [|done].
  apply pres_apply; [|done].
  pres_go ok_leaf. apply ok_attemptMove. intros cs Hcs. by eapply Hd.
Qed.

Lemma ok_dropHandler dropZoneId (e : Engine) :
  engineOk e → dragOk e → engineOk (run (dropHandler dropZoneId) e).
Proof.
  intros He Hd. unfold dropHandler. apply run_gets.
  destruct (isAnimating e); [done|]. by apply ok_handleDrop.
Qed.

Lemma ok_stockClickHandler : pres engineOk stockClickHandler.
Proof. unfold stockClickHandler. pres_go ok_leaf. apply ok_handleStockClick. Qed.

Lemma findById_Some (cardId : string) (l : list Card) (c : Card) :
  findById cardId l = Some c → c ∈ l ∧ id c = cardId.
Proof.
  unfold findById. intros H.
  apply fmap_Some in H as ([i x] & Hf & ->).
  apply list_find_Some in Hf as (Hi & Hx & _). simpl.
  split; [by eapply list_elem_of_lookup_2|done].
Qed.

Lemma findById_None (cardId : string) (l : list Card) (c : Card) :
  findById cardId l = None → c ∈ l → id c ≠ cardId.
Proof.
  unfold findById. intros H Hc. apply fmap_None in H.
  rewrite list_find_None in H. rewrite Forall_forall in H. by apply H.
Qed.

(** A card found through a pile scan that hits the waste or a
    foundation lies in that pile. *)
Lemma findCardById_top (g : GameState) (cardId : string) (c x : Card) :
  pilesOk g →
  (x ∈ waste g ∨ ∃ f, f ∈ foundations g ∧ x ∈ f) → id x = cardId →
  findCardById g cardId = Some c → isUp c.
Proof.
  intros (Ht & Hw & Hf) Hx Hid. unfold findCardById.
  destruct (findById cardId (waste g)) as [wc|] eqn:Ew.
  { intros [= <-]. apply findById_Some in Ew as [Hin _].
    rewrite Forall_forall in Hw. by apply Hw. }
  destruct Hx as [Hx | (f & Hfin & Hx)].
  { by destruct (findById_None _ _ _ Ew Hx). }
  destruct (list_find is_Some (findById cardId <$> foundations g))
    as [[i [fc|]]|] eqn:Ef.
  - intros [= <-]. apply list_find_Some in Ef as (Hi & _ & _).
    apply list_lookup_fmap_Some in Hi as (f' & Hfc & Hf').
    symmetry in Hfc. apply findById_Some in Hfc as [Hin _].
    rewrite Forall_lookup in Hf. specialize (Hf _ _ Hf').
    rewrite Forall_forall in Hf. by apply Hf.
  - apply list_find_Some in Ef as (_ & Hs & _). by destruct Hs.
  - exfalso. rewrite list_find_None in Ef. rewrite Forall_fmap in Ef.
    rewrite Forall_forall in Ef. specialize (Ef f Hfin). simpl in Ef.
    destruct (findById cardId f) eqn:E; [by apply Ef|].
    by destruct (findById_None _ _ _ E Hx).
Qed.

Lemma rendered_foundation (g : GameState) (el : CardElement) (i : nat) :
  el ∈ renderedCards g → elLocation el = LFoundation i →
  ∃ f top, f ∈ foundations g ∧ top ∈ f ∧ elCardId el = id top.
Proof.
  unfold renderedCards. intros Hel Hloc.
  apply elem_of_app in Hel as [Hel | Hel].
  { apply list_elem_of_fmap in Hel as (c & -> & _). discriminate. }
  apply elem_of_app in Hel as [Hel | Hel].
  - apply elem_of_concat in Hel as (l & Hl & Hel).
    apply elem_of_lookup_imap in Hl as (k & f & -> & Hk).
    destruct (last f) as [top|] eqn:Et; [|by apply elem_of_nil in Hel].
    apply list_elem_of_singleton in Hel as ->.
    exists f, top. split; [by eapply list_elem_of_lookup_2|].
    split; [|done]. apply last_Some in Et as [f' ->].
    apply elem_of_app. right. by apply list_elem_of_singleton.
  - apply elem_of_concat in Hel as (l & Hl & Hel).
    apply elem_of_lookup_imap in Hl as (k & col & -> & Hk).
    apply list_elem_of_fmap in Hel as (c & -> & _). discriminate.
Qed.

Lemma forallb_isUp (l : list Card) :
  forallb faceUp l = true → Forall isUp l.
Proof.
  rewrite forallb_forall, Forall_forall. intros H x Hx.
  apply H. by apply list_elem_of_In.
Qed.

Lemma ok_handleDragStart (el : CardElement) (e : Engine) :
  engineOk e →
  el ∈ renderedCards (gameState e) →
  isCardDraggable (gameState e) el = Some true →
  engineOk (run (handleDragStart el) e) ∧ dragOk (run (handleDragStart el) e).
Proof.
  intros He Hel Hdrag. unfold handleDragStart, run. msimpl.
  unfold isCardDraggable in Hdrag.
  destruct (elLocation el) as [|i|i|] eqn:Hloc; simpl.
  - split; [by destruct He|]. intros d cs [= <-] [= <-].
    destruct (findCardById _ _) as [c|] eqn:Ef; [|constructor].
    repeat constructor.
    destruct (last (waste (gameState e))) as [top|] eqn:Et; [|done].
    injection Hdrag as Hid. apply bool_decide_eq_true in Hid.
    eapply (findCardById_top _ _ c top); [apply He| |exact Hid|exact Ef].
    left. apply last_Some in Et as [w' ->].
    apply elem_of_app. right. by apply list_elem_of_singleton.
  - split; [by destruct He|]. intros d cs [= <-] [= <-].
    destruct (findCardById _ _) as [c|] eqn:Ef; [|constructor].
    repeat constructor.
    destruct (rendered_foundation _ _ _ Hel Hloc) as (f & top & Hf & Ht & Hid).
    eapply (findCardById_top _ _ c top); [apply He| |by symmetry|exact Ef].
    right. eauto.
  - destruct (tableau (gameState e) !! i) as [column|]; simpl;
      [|split; [by destruct He|by intros d cs [= <-] [=]]].
    simpl in Hdrag.
    destruct (findIndexById (elCardId el) column) as [idx|]; simpl;
      [|split; [by destruct He|by intros d cs [= <-] [=]]].
    split; [by destruct He|]. intros d cs [= <-] [= <-].
    injection Hdrag as Hall. by apply forallb_isUp.
  - discriminate.
Qed.

Lemma ok_clickHandler el found : pres engineOk (clickHandler el found).
Proof.
  intros e He. unfold clickHandler. apply run_gets.
  destruct (isAnimating e); [done|].
  destruct (elLocation el) as [|i|i|] eqn:Hloc; [|done| |done].
  { by apply ok_handleWasteClick. }
  destruct (negb _); [done|]. apply run_gets.
  destruct (tableau (gameState e) !! i) as [column|] eqn:Hcol; [|done].
  destruct (length column =? 0); [done|].
  destruct (findIndexById _ _) as [idx|] eqn:Hidx.
  - destruct (idx =? _).
    + apply pres_apply; [|done]. pres_go ok_leaf.
      apply ok_tryMoveTableauToFoundation.
    + unfold isCardDraggable. rewrite Hloc, Hcol. simpl. rewrite Hidx.
      unfold run. msimpl.
      destruct (forallb faceUp (slice idx column)) eqn:Hall; [|done].
      apply ok_stackMoveLoop; [|done]. by apply forallb_isUp.
  - apply pres_apply; [|done]. pres_go ok_leaf.
    apply ok_tryMoveTableauToFoundation.
Qed.

Lemma ok_undoLastMove : pres engineOk undoLastMove.
Proof.
  intros e He. unfold undoLastMove. apply run_gets.
  destruct (undoManager e) as [u|] eqn:Hu; [|done].
  destruct (negb _) eqn:Hcan; [done|].
  unfold UndoManager.undo. rewrite Hcan.
  destruct He as [Hp Hh]. specialize (Hh u Hu).
  unfold run. msimpl. simpl.
  destruct (last (UndoManager.history u)) as [prev|] eqn:Hl; simpl.
  - split; simpl.
    + by eapply last_Forall.
    + intros u' [= <-]. simpl. by apply Forall_take.
  - split; [done|]. intros u' [= <-]. simpl. by apply Forall_take.
Qed.

Lemma ok_requestHint : pres engineOk requestHint.
Proof. unfold requestHint. pres_go ok_leaf. Qed.

Lemma ok_updateOptions preset enabled :
  pres engineOk (updateOptions preset enabled).
Proof. unfold updateOptions. pres_go ok_leaf. Qed.

Lemma ok_startNewDeal rand (e : Engine) : engineOk (run (startNewDeal rand) e).
Proof.
  destruct (startNewDeal_eq rand e) as (e' & Heq & Hg & Hu & _).
  unfold run. rewrite Heq. simpl. split.
  - rewrite Hg. apply pilesOk_dealt;
      [apply shuffled_length|apply shuffled_faceDown].
  - intros u Hu'. rewrite Hu in Hu'.
    destruct (undoManager e); [|done]. injection Hu' as <-. constructor.
Qed.

Lemma ok_dragGesture el dropZone (e : Engine) :
  engineOk e →
  el ∈ renderedCards (gameState e) →
  isCardDraggable (gameState e) el = Some true →
  engineOk (dragGesture el dropZone e).
Proof.
  intros He Hel Hd. unfold dragGesture.
  destruct (isAnimating e); [done|].
  destruct (ok_handleDragStart el e He Hel Hd) as [H1 H2].
  assert (pres engineOk dragEndHandler) as Hend
    by (unfold dragEndHandler; pres_go ok_leaf).
  apply Hend. destruct dropZone; [|done]. by apply ok_dropHandler.
Qed.

Lemma step_engineOk (e e' : Engine) : engineOk e → step e e' → engineOk e'.
Proof.
  intros He Hstep. destruct Hstep.
  - by apply ok_stockClickHandler.
  - by apply ok_clickHandler.
  - by apply ok_dragGesture.
  - by apply ok_undoLastMove.
  - by apply ok_requestHint.
  - apply ok_startNewDeal.
  - by apply ok_updateOptions.
  - by apply ok_tryMoveWasteToFoundation.
  - by apply ok_tryMoveTableauToFoundation.
  - by apply ok_tryMoveFoundationToTableau.
  - by apply ok_animationFrame.
  - by destruct He.
  - by destruct He.
Qed.

Lemma Reachable_engineOk (e : Engine) : Reachable e → engineOk e.
Proof.
  induction 1 as [um rand Hr | e e' _ IH Hstep].
  - apply ok_startNewDeal.
  - by eapply step_engineOk.
Qed.


(** ** Hint engine *)

Lemma canMoveToTableau_defined (g : GameState) (card : Card) (cs : list Card) (t : nat) :
  t < length (tableau g) → is_Some (canMoveToTableau g (card :: cs) t).
Proof.
  intros H. unfold canMoveToTableau.
  destruct (lookup_lt_is_Some_2 _ _ H) as [col ->]. simpl.
  destruct (last col) as [top|]; [|eauto]. destruct (negb _); eauto.
Qed.

Lemma canMoveToTableau_true_lt (g : GameState) cards (t : nat) :
  canMoveToTableau g cards t = Some true → t < length (tableau g).
Proof.
  intros H. destruct (canMoveToTableau_true_dest _ _ _ H) as (? & ? & ? & _ & Hd).
  by eapply lookup_lt_Some.
Qed.

Lemma firstTableauTarget_spec (g : GameState) (card : Card) (skip : option nat) :
  ∀ cols, (∀ t, t ∈ cols → t < length (tableau g)) →
  ∃ r, firstTableauTarget g [card] skip cols = Some r ∧
    match r with
    | Some t =>
        ∃ pre post, cols = pre ++ t :: post ∧ skip ≠ Some t ∧
          canMoveToTableau g [card] t = Some true ∧
          ∀ t', t' ∈ pre → skip ≠ Some t' →
                canMoveToTableau g [card] t' ≠ Some true
    | None =>
        ∀ t', t' ∈ cols → skip ≠ Some t' →
              canMoveToTableau g [card] t' ≠ Some true
    end.
Proof.
  induction cols as [|c cols IH]; intros Hlt.
  - exists None. split; [done|]. intros t' Ht'. by apply elem_of_nil in Ht'.
  - cbn [firstTableauTarget].
    destruct IH as (r & Hr & Hspec).
    { intros t Ht. apply Hlt. by right. }
    destruct (decide (skip = Some c)) as [Hs|Hs].
    + exists r. split; [done|]. destruct r as [t|].
      * destruct Hspec as (pre & post & -> & H1 & H2 & H3).
        exists (c :: pre), post. repeat split; try done.
        intros t' [->|Ht']%elem_of_cons Hn; [done|by apply H3].
      * intros t' [->|Ht']%elem_of_cons Hn; [done|by apply Hspec].
    + destruct (canMoveToTableau_defined g card [] c) as [b Hb].
      { apply Hlt. by left. }
      rewrite Hb. cbn [mbind option_bind]. destruct b.
      * exists (Some c). split; [done|]. exists [], cols.
        repeat split; try done. intros t' Ht'. by apply elem_of_nil in Ht'.
      * exists r. split; [done|]. destruct r as [t|].
        -- destruct Hspec as (pre & post & -> & H1 & H2 & H3).
           exists (c :: pre), post. repeat split; try done.
           intros t' [->|Ht']%elem_of_cons Hn; [congruence|by apply H3].
        -- intros t' [->|Ht']%elem_of_cons Hn; [congruence|by apply Hspec].
Qed.

Lemma seq_split_prefix (n t : nat) (pre post : list nat) :
  seq 0 n = pre ++ t :: post → ∀ t', t' < t → t' ∈ pre.
Proof.
  intros H t' Ht'.
  assert (Ht : (seq 0 n) !! length pre = Some t)
    by (rewrite H; apply list_lookup_middle; done).
  apply lookup_seq in Ht as [Ht _]. simpl in Ht. subst t.
  assert (Hn : n = length pre + S (length post)).
  { apply (f_equal length) in H.
    rewrite length_seq, length_app in H. simpl in H. lia. }
  assert (Hp : take (length pre) (seq 0 n) = pre)
    by (rewrite H; apply take_app_length).
  rewrite take_seq in Hp. rewrite <- Hp. apply elem_of_seq. lia.
Qed.

(** The first accepting column, scanning all columns from the left. *)
Lemma firstTableauTarget_all (g : GameState) (card : Card) (skip : option nat) :
  ∃ r, firstTableauTarget g [card] skip (seq 0 (length (tableau g))) = Some r ∧
    match r with
    | Some t =>
        skip ≠ Some t ∧ canMoveToTableau g [card] t = Some true ∧
        ∀ t', skip ≠ Some t' → canMoveToTableau g [card] t' = Some true → t ≤ t'
    | None =>
        ∀ t', skip ≠ Some t' → canMoveToTableau g [card] t' ≠ Some true
    end.
Proof.
  destruct (firstTableauTarget_spec g card skip (seq 0 (length (tableau g))))
    as (r & Hr & Hspec).
  { intros t Ht. apply elem_of_seq in Ht. lia. }
  exists r. split; [done|]. destruct r as [t|].
  - destruct Hspec as (pre & post & Hsplit & H1 & H2 & H3).
    repeat split; try done. intros t' Hn Hc.
    destruct (decide (t ≤ t')) as [|Hlt]; [done|]. exfalso.
    apply (H3 t'); [|done|done]. eapply seq_split_prefix; [done|lia].
  - intros t' Hn Hc. apply (Hspec t'); [|done|done].
    apply elem_of_seq. apply canMoveToTableau_true_lt in Hc. lia.
Qed.

Lemma willTableauMoveFlip_top (g : GameState) (colIndex : nat) :
  willTableauMoveFlip g colIndex 1 = wouldReveal g colIndex.
Proof.
  unfold willTableauMoveFlip, wouldReveal, exposesFaceDown.
  destruct (tableau g !! colIndex) as [column|]; [|done].
  destruct column as [|x column _] using rev_ind; [done|].
  rewrite removelast_last, length_app. simpl.
  destruct column as [|y column _] using rev_ind; [done|].
  rewrite last_snoc, length_app. simpl.
  replace (length column + 1 + 1 <=? 1) with false
    by (symmetry; apply Nat.leb_gt; lia).
  replace (length column + 1 + 1 - 1 - 1) with (length column) by lia.
  rewrite <- app_assoc. cbn [app]. by rewrite list_lookup_middle.
Qed.

Lemma tier_range (m : HintMove) : 1 ≤ tier m ≤ 4.
Proof. unfold tier. destruct (hintType m), (willFlip m); lia. Qed.

Lemma bucket_addHint (k : nat) (b : HintBuckets) (m : HintMove) :
  1 ≤ k ≤ 4 →
  bucket k (addHint b m) = bucket k b ++ filter (inTier k) [m].
Proof.
  intros Hk. pose proof (tier_range m) as Hm.
  unfold addHint, filter, list_filter, inTier. 
  destruct (decide (tier m = k)) as [<-|Hne].
  - destruct (tier m) as [|[|[|[|[|]]]]]; try lia; reflexivity.
  - rewrite app_nil_r.
    destruct (tier m) as [|[|[|[|[|]]]]] eqn:Et; try lia;
    destruct k as [|[|[|[|[|]]]]]; try lia; try reflexivity; congruence.
Qed.

Lemma bucket_foldl (k : nat) (ms : list HintMove) : ∀ b : HintBuckets,
  1 ≤ k ≤ 4 →
  bucket k (foldl addHint b ms) = bucket k b ++ filter (inTier k) ms.
Proof.
  induction ms as [|m ms IH]; intros b Hk; simpl.
  - by rewrite app_nil_r.
  - rewrite IH by done. rewrite bucket_addHint by done.
    rewrite <- app_assoc. f_equal.
    change (m :: ms) with ([m] ++ ms). by rewrite filter_app.
Qed.

Lemma pickHint_head (b : HintBuckets) :
  pickHint b = head (bucket 1 b ++ bucket 2 b ++ bucket 3 b ++ bucket 4 b).
Proof.
  unfold pickHint, bucket.
  destruct (priority1 b), (priority2 b), (priority3 b), (priority4 b); done.
Qed.

Lemma hintColumn_eq (g : GameState) (b : HintBuckets) (colIndex : nat) :
  hintReadable g →
  hintColumn g b colIndex = Some (foldl addHint b (columnHints g colIndex)).
Proof.
  intros Hread. unfold hintColumn, columnHints.
  pose proof (Hread colIndex) as Hr. unfold visibleTop in *.
  destruct (tableau g !! colIndex) as [column|]; [|done]. simpl in *.
  destruct (last column) as [card|]; [|done]. simpl in *.
  destruct (faceUp card); [|done]. simpl.
  destruct (canMoveToFoundation_defined g card (Hr _ eq_refl)) as [f ->].
  cbn [mbind option_bind].
  destruct (firstTableauTarget_all g card (Some colIndex)) as (r & -> & _).
  cbn [mbind option_bind].
  destruct (f =? -1)%Z, r as [t|], (willTableauMoveFlip g colIndex 1) eqn:Hw;
    cbn [negb foldl app willFlip]; unfold addHint, tier; cbn; rewrite ?Hw;
    reflexivity.
Qed.

Lemma foldO_hintColumn (g : GameState) (cols : list nat) : ∀ b : HintBuckets,
  hintReadable g →
  foldO (hintColumn g) b cols
  = Some (foldl addHint b (concat (columnHints g <$> cols))).
Proof.
  induction cols as [|c cols IH]; intros b Hread; [done|].
  cbn [foldO]. rewrite hintColumn_eq by done. rewrite IH by done.
  by rewrite fmap_cons, concat_cons, foldl_app.
Qed.

Lemma hintWaste_eq (g : GameState) (b : HintBuckets) :
  hintWaste g b = Some (foldl addHint b (wasteHints g)).
Proof.
  unfold hintWaste, wasteHints.
  destruct (last (waste g)) as [top|]; [|done].
  destruct (firstTableauTarget_all g top None) as (r & -> & _).
  cbn [mbind option_bind]. by destruct r.
Qed.

Lemma computeHintMove_eq (g : GameState) :
  hintReadable g →
  computeHintMove g
  = Some (head (filter (inTier 1) (allHints g) ++ filter (inTier 2) (allHints g)
                ++ filter (inTier 3) (allHints g)
                ++ filter (inTier 4) (allHints g))).
Proof.
  intros Hread. unfold computeHintMove.
  rewrite foldO_hintColumn by done. cbn [mbind option_bind].
  rewrite hintWaste_eq. cbn [mbind option_bind].
  rewrite <- foldl_app. fold (allHints g).
  rewrite pickHint_head. rewrite !bucket_foldl by lia. done.
Qed.

Lemma columnHints_elem (g : GameState) (c : nat) (m : HintMove) :
  m ∈ columnHints g c →
  ∃ card, visibleTop g c = Some card ∧
    hintFrom m = FromTableau c (id card) ∧
    willFlip m = wouldReveal g c ∧
    ((∃ f, m = mkHint TableauToFoundation (FromTableau c (id card))
                 (ToFoundation f) (wouldReveal g c) ∧
           canMoveToFoundation g card = Some f ∧ f ≠ (-1)%Z) ∨
     (∃ t, m = mkHint TableauToTableau (FromTableau c (id card))
                 (ToTableau t) (wouldReveal g c) ∧
           t ≠ c ∧ canMoveToTableau g [card] t = Some true ∧
           ∀ t', t' ≠ c → canMoveToTableau g [card] t' = Some true → t ≤ t')).
Proof.
  unfold columnHints. rewrite willTableauMoveFlip_top.
  destruct (visibleTop g c) as [card|]; [|by intros ?%elem_of_nil].
  intros Hm. exists card. apply elem_of_app in Hm as [Hm|Hm].
  - destruct (canMoveToFoundation g card) as [f|] eqn:Hf;
      [|by apply elem_of_nil in Hm].
    destruct (Z.eqb_spec f (-1)); [by apply elem_of_nil in Hm|].
    apply list_elem_of_singleton in Hm as ->. repeat split; try done.
    left. eauto.
  - destruct (firstTableauTarget_all g card (Some c)) as (r & Hr & Hspec).
    rewrite Hr in Hm. destruct r as [t|]; [|by apply elem_of_nil in Hm].
    apply list_elem_of_singleton in Hm as ->. repeat split; try done.
    right. exists t. destruct Hspec as (H1 & H2 & H3).
    repeat split; try done; [congruence|].
    intros t' Hne. apply H3. congruence.
Qed.

Lemma wasteHints_elem (g : GameState) (m : HintMove) :
  m ∈ wasteHints g →
  ∃ card t, last (waste g) = Some card ∧
    m = mkHint WasteToTableau (FromWaste (id card)) (ToTableau t) false ∧
    canMoveToTableau g [card] t = Some true ∧
    ∀ t', canMoveToTableau g [card] t' = Some true → t ≤ t'.
Proof.
  unfold wasteHints.
  destruct (last (waste g)) as [card|]; [|by intros ?%elem_of_nil].
  destruct (firstTableauTarget_all g card None) as (r & Hr & Hspec).
  rewrite Hr. destruct r as [t|]; [|by intros ?%elem_of_nil].
  intros ->%list_elem_of_singleton. exists card, t.
  destruct Hspec as (H1 & H2 & H3). repeat split; try done.
  intros t'. by apply H3.
Qed.

Lemma columnHints_legal (g : GameState) (c : nat) (m : HintMove) :
  m ∈ columnHints g c → legalHint g m.
Proof.
  intros Hm. destruct (columnHints_elem g c m Hm)
    as (card & Hv & _ & _ & [(f & -> & Hf & Hne) | (t & -> & Hne & Hc & _)]).
  - by constructor.
  - by constructor.
Qed.

Lemma wasteHints_legal (g : GameState) (m : HintMove) :
  m ∈ wasteHints g → legalHint g m.
Proof.
  intros Hm. destruct (wasteHints_elem g m Hm) as (card & t & Hl & -> & Hc & _).
  by constructor.
Qed.

Lemma visibleTop_lt (g : GameState) (c : nat) (card : Card) :
  visibleTop g c = Some card → c < length (tableau g).
Proof.
  unfold visibleTop. destruct (tableau g !! c) eqn:E; [|done].
  intros _. by eapply lookup_lt_Some.
Qed.

Lemma elem_of_allHints (g : GameState) (m : HintMove) :
  m ∈ allHints g ↔ (∃ c, m ∈ columnHints g c) ∨ m ∈ wasteHints g.
Proof.
  unfold allHints. rewrite elem_of_app, elem_of_concat. split.
  - intros [(l & Hl & Hm)|Hm]; [|by right].
    apply list_elem_of_fmap in Hl as (c & -> & _). left. eauto.
  - intros [[c Hm]|Hm]; [|by right]. left.
    exists (columnHints g c). split; [|done].
    apply list_elem_of_fmap. exists c. split; [done|].
    apply elem_of_seq.
    destruct (columnHints_elem g c m Hm) as (card & Hv%visibleTop_lt & _). lia.
Qed.

Lemma allHints_legal (g : GameState) (m : HintMove) :
  m ∈ allHints g → legalHint g m.
Proof.
  intros [[c Hm]|Hm]%elem_of_allHints;
    [by eapply columnHints_legal|by apply wasteHints_legal].
Qed.

(** Every legal move is matched by a candidate of the same tier and the
    same source; for a tableau source it is a candidate of that column. *)
Lemma legalHint_candidate (g : GameState) (m' : HintMove) :
  hintReadable g → legalHint g m' →
  ∃ m, tier m = tier m' ∧ hintFrom m = hintFrom m' ∧
       match hintFrom m' with
       | FromTableau c _ => m ∈ columnHints g c
       | FromWaste _ => m ∈ wasteHints g
       end.
Proof.
  intros Hread Hl. destruct Hl as [c card f Hv Hf Hne | c card t Hv Hne Hc | card t Hl Hc].
  - eexists. split; [reflexivity|]. split; [reflexivity|]. simpl.
    unfold columnHints. rewrite Hv, Hf, willTableauMoveFlip_top.
    apply Z.eqb_neq in Hne. rewrite Hne. apply elem_of_app. left. by left.
  - destruct (firstTableauTarget_all g card (Some c)) as (r & Hr & Hspec).
    destruct r as [t0|]; [|exfalso; apply (Hspec t); [congruence|done]].
    exists (mkHint TableauToTableau (FromTableau c (id card)) (ToTableau t0)
              (wouldReveal g c)).
    split; [reflexivity|]. split; [reflexivity|]. simpl.
    unfold columnHints. rewrite Hv, Hr, willTableauMoveFlip_top.
    apply elem_of_app. right. by left.
  - destruct (firstTableauTarget_all g card None) as (r & Hr & Hspec).
    destruct r as [t0|]; [|exfalso; apply (Hspec t); [congruence|done]].
    exists (mkHint WasteToTableau (FromWaste (id card)) (ToTableau t0) false).
    split; [reflexivity|]. split; [reflexivity|]. simpl.
    unfold wasteHints. rewrite Hl, Hr. by left.
Qed.

Lemma legalHint_in_allHints (g : GameState) (m' : HintMove) :
  hintReadable g → legalHint g m' →
  ∃ m, m ∈ allHints g ∧ tier m = tier m' ∧ hintFrom m = hintFrom m'.
Proof.
  intros Hread Hl.
  destruct (legalHint_candidate g m' Hread Hl) as (m & Ht & Hf & Hin).
  exists m. split; [|done]. apply elem_of_allHints.
  destruct (hintFrom m'); eauto.
Qed.

Lemma filter_nil_not_elem (k : nat) (l : list HintMove) (m : HintMove) :
  filter (inTier k) l = [] → m ∈ l → tier m ≠ k.
Proof.
  intros Hf Hm Ht.
  assert (m ∈ filter (inTier k) l) as Hin by (by apply list_elem_of_filter).
  rewrite Hf in Hin. by apply elem_of_nil in Hin.
Qed.

Lemma head_elem {A} (l : list A) (x : A) : head l = Some x → x ∈ l.
Proof. destruct l; [done|]. intros [= ->]. by left. Qed.

Lemma head_tiers (l : list HintMove) (r : option HintMove) :
  head (filter (inTier 1) l ++ filter (inTier 2) l
        ++ filter (inTier 3) l ++ filter (inTier 4) l) = r →
  match r with
  | Some m =>
      m ∈ l ∧ (∀ m', m' ∈ l → tier m ≤ tier m') ∧
      head (filter (inTier (tier m)) l) = Some m
  | None => l = []
  end.
Proof.
  intros <-.
  destruct (filter (inTier 1) l) as [|m1 l1] eqn:E1.
  2:{ assert (Hm : m1 ∈ filter (inTier 1) l) by (rewrite E1; by left).
      apply list_elem_of_filter in Hm as [Ht Hm]. unfold inTier in Ht. simpl.
      split; [done|]. split.
      - intros m' _. pose proof (tier_range m'). lia.
      - by rewrite Ht, E1. }
  destruct (filter (inTier 2) l) as [|m2 l2] eqn:E2.
  2:{ assert (Hm : m2 ∈ filter (inTier 2) l) by (rewrite E2; by left).
      apply list_elem_of_filter in Hm as [Ht Hm]. unfold inTier in Ht. simpl.
      split; [done|]. split.
      - intros m' Hm'. pose proof (tier_range m').
        pose proof (filter_nil_not_elem 1 l m' E1 Hm'). lia.
      - by rewrite Ht, E2. }
  destruct (filter (inTier 3) l) as [|m3 l3] eqn:E3.
  2:{ assert (Hm : m3 ∈ filter (inTier 3) l) by (rewrite E3; by left).
      apply list_elem_of_filter in Hm as [Ht Hm]. unfold inTier in Ht. simpl.
      split; [done|]. split.
      - intros m' Hm'. pose proof (tier_range m').
        pose proof (filter_nil_not_elem 1 l m' E1 Hm').
        pose proof (filter_nil_not_elem 2 l m' E2 Hm'). lia.
      - by rewrite Ht, E3. }
  destruct (filter (inTier 4) l) as [|m4 l4] eqn:E4.
  2:{ assert (Hm : m4 ∈ filter (inTier 4) l) by (rewrite E4; by left).
      apply list_elem_of_filter in Hm as [Ht Hm]. unfold inTier in Ht. simpl.
      split; [done|]. split.
      - intros m' Hm'. pose proof (tier_range m').
        pose proof (filter_nil_not_elem 1 l m' E1 Hm').
        pose proof (filter_nil_not_elem 2 l m' E2 Hm').
        pose proof (filter_nil_not_elem 3 l m' E3 Hm'). lia.
      - by rewrite Ht, E4. }
  simpl. destruct l as [|m l]; [done|]. exfalso.
  pose proof (tier_range m).
  assert (Hm : m ∈ m :: l) by (by left).
  pose proof (filter_nil_not_elem 1 _ m E1 Hm).
  pose proof (filter_nil_not_elem 2 _ m E2 Hm).
  pose proof (filter_nil_not_elem 3 _ m E3 Hm).
  pose proof (filter_nil_not_elem 4 _ m E4 Hm). lia.
Qed.

(** In a concatenation of per-column lists, the head of a filter comes
    from the first column that has a match. *)
Lemma head_filter_concat (P : HintMove → Prop) `{∀ m, Decision (P m)}
    (f : nat → list HintMove) (w : list HintMove) (m : HintMove) :
  ∀ cols,
  head (filter P (concat (f <$> cols) ++ w)) = Some m →
  ∀ c' m', c' ∈ cols → m' ∈ f c' → P m' →
  ∃ pre c0 post, cols = pre ++ c0 :: post ∧ m ∈ f c0 ∧ c' ∉ pre.
Proof.
  induction cols as [|c cols IH]; intros Hh c' m' Hc' Hm' HP.
  - by apply elem_of_nil in Hc'.
  - rewrite fmap_cons, concat_cons, <- app_assoc, filter_app in Hh.
    destruct (filter P (f c)) as [|x l] eqn:Ef.
    + simpl in Hh.
      assert (c' ≠ c) as Hne.
      { intros ->. assert (m' ∈ filter P (f c)) as Hin
          by (by apply list_elem_of_filter).
        rewrite Ef in Hin. by apply elem_of_nil in Hin. }
      apply elem_of_cons in Hc' as [?|Hc']; [done|].
      destruct (IH Hh c' m' Hc' Hm' HP) as (pre & c0 & post & -> & Hm & Hn).
      exists (c :: pre), c0, post. repeat split; try done.
      intros [?|?]%elem_of_cons; done.
    + simpl in Hh. injection Hh as ->.
      exists [], c, cols. repeat split; [| by intros ?%elem_of_nil].
      assert (m ∈ filter P (f c)) as Hin by (rewrite Ef; by left).
      by apply list_elem_of_filter in Hin as [_ ?].
Qed.

Lemma legalHint_same_source_tableau (g : GameState) (m' : HintMove)
    (c : nat) (card : Card) (i : string) (t' : nat) :
  legalHint g m' → visibleTop g c = Some card →
  hintFrom m' = FromTableau c i → hintTo m' = ToTableau t' →
  t' ≠ c ∧ canMoveToTableau g [card] t' = Some true.
Proof.
  intros Hl Hv Hf Ht. destruct Hl; simpl in *; simplify_eq. done.
Qed.

Lemma legalHint_same_source_waste (g : GameState) (m' : HintMove)
    (card : Card) (i : string) (t' : nat) :
  legalHint g m' → last (waste g) = Some card →
  hintFrom m' = FromWaste i → hintTo m' = ToTableau t' →
  canMoveToTableau g [card] t' = Some true.
Proof.
  intros Hl Hv Hf Ht. destruct Hl; simpl in *; simplify_eq. done.
Qed.

Lemma requestHint_frame (e : Engine) :
  gameState (run requestHint e) = gameState e ∧
  undoManager (run requestHint e) = undoManager e ∧
  notifications (run requestHint e) = notifications e ∧
  firstMoveDone (run requestHint e) = firstMoveDone e.
Proof.
  unfold run, requestHint. msimpl. simpl.
  destruct (computeHintMove (gameState e)) as [[m|]|]; done.
Qed.

(** C6.  On a state whose visible top cards all have a foundation, the
    hint computation returns; a returned move is a legal move of a
    visible top card, no legal move has a higher-priority tier, no legal
    move of its tier has a tableau source further left, and among the
    legal moves from its source no tableau destination has a lower
    index; [null] is returned only when no tier has a legal move.  The
    request changes no pile, score, move count, undo history or
    notification. *)
Theorem computeHintMove_priority (g : GameState) :
  hintReadable g →
  ∃ r, computeHintMove g = Some r ∧
    match r with
    | Some m =>
        legalHint g m ∧
        (∀ m', legalHint g m' → tier m ≤ tier m') ∧
        (∀ m' c c' i i', legalHint g m' → tier m' = tier m →
           hintFrom m = FromTableau c i → hintFrom m' = FromTableau c' i' →
           c ≤ c') ∧
        (∀ m' t t', legalHint g m' → hintFrom m' = hintFrom m →
           hintTo m = ToTableau t → hintTo m' = ToTableau t' → t ≤ t')
    | None => ∀ m', ¬ legalHint g m'
    end ∧
    ∀ e, gameState e = g →
      gameState (run requestHint e) = g ∧
      undoManager (run requestHint e) = undoManager e ∧
      notifications (run requestHint e) = notifications e.
Proof.
  intros Hread. rewrite computeHintMove_eq by done.
  eexists. split; [reflexivity|].
  split.
  2:{ intros e <-. destruct (requestHint_frame e) as (? & ? & ? & _). done. }
  match goal with |- match ?h with _ => _ end =>
    pose proof (head_tiers (allHints g) h eq_refl) as Hh; destruct h as [m|] end.
  - destruct Hh as (Hin & Hmin & Hhead).
    split; [by apply allHints_legal|]. split; [|split].
    + intros m' Hl.
      destruct (legalHint_in_allHints g m' Hread Hl) as (m'' & Hin'' & <- & _).
      by apply Hmin.
    + intros m' c c' i i' Hl Ht Hf Hf'.
      destruct (legalHint_candidate g m' Hread Hl) as (m'' & Ht'' & Hf'' & Hin'').
      rewrite Hf' in Hin''.
      assert (Hc' : c' ∈ seq 0 (length (tableau g))).
      { apply elem_of_seq.
        destruct (columnHints_elem g c' m'' Hin'') as (? & ?%visibleTop_lt & _).
        lia. }
      unfold allHints in Hhead.
      destruct (head_filter_concat (inTier (tier m)) (columnHints g)
                  (wasteHints g) m _ Hhead c' m'' Hc' Hin'')
        as (pre & c0 & post & Hsplit & Hm0 & Hnot).
      { unfold inTier. congruence. }
      destruct (columnHints_elem g c0 m Hm0) as (? & _ & Hf0 & _).
      rewrite Hf in Hf0. injection Hf0 as -> _.
      destruct (decide (c0 ≤ c')) as [|Hgt]; [done|]. exfalso.
      apply Hnot. eapply seq_split_prefix; [done|lia].
    + intros m' t t' Hl Hf Ht Ht'.
      apply elem_of_allHints in Hin as [[c Hin]|Hin].
      * destruct (columnHints_elem g c m Hin)
          as (card & Hv & Hfm & _ & [(f & -> & _) | (t0 & -> & _ & _ & Hleast)]);
          [discriminate|].
        simpl in *. injection Ht as ->.
        destruct (legalHint_same_source_tableau g m' c card _ t' Hl Hv Hf Ht')
          as [Hne Hc].
        by apply Hleast.
      * destruct (wasteHints_elem g m Hin) as (card & t0 & Hlast & -> & _ & Hleast).
        simpl in *. injection Ht as ->.
        apply Hleast.
        by eapply legalHint_same_source_waste.
  - intros m' Hl.
    destruct (legalHint_in_allHints g m' Hread Hl) as (m'' & Hin'' & _).
    rewrite Hh in Hin''. by apply elem_of_nil in Hin''.
Qed.

(** ** A play that breaks the deck *)

Lemma sampleRand_valid : validRand sampleRand.
Proof.
  intros i. unfold sampleRand.
  destruct (Nat.eqb_spec i 51); [lia|].
  destruct (Nat.eqb_spec i 49); [lia|].
  destruct (Nat.eqb_spec i 46); lia.
Qed.

Lemma sampleDeal_reachable : Reachable sampleDeal.
Proof. unfold sampleDeal. apply reach_mount, sampleRand_valid. Qed.

Lemma afterAceClick_reachable : Reachable afterAceClick.
Proof.
  eapply reach_step; [apply sampleDeal_reachable|].
  unfold afterAceClick. apply step_click.
  apply (bool_decide_unpack _). vm_compute. exact I.
Qed.

Lemma afterAceSettled_reachable : Reachable afterAceSettled.
Proof.
  eapply reach_step; [apply afterAceClick_reachable|].
  unfold afterAceSettled. apply step_moveAnimationEnd.
Qed.

Lemma afterSpadeDrag_reachable : Reachable afterSpadeDrag.
Proof.
  eapply reach_step; [apply afterAceSettled_reachable|].
  unfold afterSpadeDrag. apply step_drag.
  - apply (bool_decide_unpack _). vm_compute. exact I.
  - reflexivity.
  - vm_compute. reflexivity.
  - intros z [= <-]. reflexivity.
Qed.

Lemma afterStackDrop_reachable : Reachable afterStackDrop.
Proof.
  eapply reach_step; [apply afterSpadeDrag_reachable|].
  unfold afterStackDrop. apply step_drag.
  - apply (bool_decide_unpack _). vm_compute. exact I.
  - reflexivity.
  - vm_compute. reflexivity.
  - intros z [= <-]. reflexivity.
Qed.

(** C1 (violated).  A reachable play: deal, click the ace of hearts,
    drag the ace of spades onto the two of hearts, then drag that
    two-card run onto foundation 0.  The engine accepts the last drop;
    afterwards the two of hearts lies both in column 1 and on foundation
    0 and the ace of spades is in no pile. *)
Theorem stack_drop_on_foundation_corrupts_deck :
  Reachable afterStackDrop ∧
  fst (attemptMove (LTableau 1) (LFoundation 0)
         (Some [mkCard 0 2 true "card-0-2"; mkCard 3 1 true "card-3-1"])
         afterSpadeDrag) = Some true ∧
  filter (λ x, x = "card-0-2") (allCardIds (gameState afterStackDrop))
    = ["card-0-2"; "card-0-2"] ∧
  ("card-3-1" ∉ allCardIds (gameState afterStackDrop)) ∧
  ¬ NoDup (allCardIds (gameState afterStackDrop)).
Proof.
  split; [apply afterStackDrop_reachable|].
  split; [vm_compute; reflexivity|]. split; [vm_compute; reflexivity|].
  split.
  - apply (bool_decide_unpack _). vm_compute. exact I.
  - apply (bool_decide_unpack _). vm_compute. exact I.
Qed.

(** ** Concrete instances *)

Lemma undo_restores_state_before_move_witness :
  ∃ e'', undoLastMove (run (execMove sampleMove) afterAceSettled) = (Some true, e'') ∧
         gameState e'' = gameState afterAceSettled.
Proof.
  destruct (undo_restores_state_before_move sampleMove afterAceSettled
              (run (execMove sampleMove) afterAceSettled) sampleUndo)
    as (_ & h & e'' & _ & H1 & H2 & _).
  - vm_compute. reflexivity.
  - vm_compute. lia.
  - vm_compute. reflexivity.
  - exists e''. split; assumption.
Defined.


Lemma moveCardsToTableau_legal_move_witness :
  ∃ e', moveCardsToTableau (LTableau 2) 1 [aceOfSpades] afterAceSettled
          = (Some true, e') ∧
        score (gameState e') = 15%Z.
Proof.
  destruct (moveCardsToTableau_legal_move afterAceSettled (LTableau 2) 1
              [aceOfSpades]) as (e' & dest & H1 & H2 & _).
  - vm_compute. reflexivity.
  - apply (run_tableau _ 2 [mkCard 3 10 false "card-3-10";
                            mkCard 3 9 false "card-3-9"]).
    + vm_compute. reflexivity.
    + discriminate.
  - exists e'. split; [exact H1|]. rewrite H2. vm_compute. reflexivity.
Defined.

Lemma startNewDeal_layout_witness :
  ∃ e', startNewDeal (λ i, i) (newEngine None) = (Some tt, e') ∧
        length (stock (gameState e')) = 24.
Proof.
  destruct (startNewDeal_layout (λ i, i) (newEngine None))
    as (e' & H1 & H2 & _).
  - intros i. simpl. lia.
  - exists e'. split; assumption.
Defined.

Lemma sampleDeal_hintReadable : hintReadable (gameState sampleDeal).
Proof.
  intros c card H.
  do 7 (destruct c as [|c];
        [vm_compute in H; injection H as <-; vm_compute; lia|]).
  vm_compute in H. discriminate.
Qed.

Lemma computeHintMove_priority_witness :
  ∃ r, computeHintMove (gameState sampleDeal) = Some r.
Proof.
  destruct (computeHintMove_priority (gameState sampleDeal)) as (r & H & _).
  - apply sampleDeal_hintReadable.
  - exists r. exact H.
Defined.

Lemma moveCardToFoundation_illegal_is_rejected_witness :
  moveCardToFoundation LWaste 3 threeOfSpades afterAceClick
  = (Some false, afterAceClick).
Proof.
  apply moveCardToFoundation_illegal_is_rejected.
  - vm_compute. lia.
  - vm_compute. discriminate.
Defined.


Lemma animation_gate_witness :
  isAnimating afterAceClick = true ∧
  stockClickHandler afterAceClick = (Some tt, afterAceClick).
Proof.
  assert (H : isAnimating afterAceClick = true) by (vm_compute; reflexivity).
  split; [exact H|]. exact (proj1 (proj1 animation_gate afterAceClick H)).
Defined.

Lemma moveCardsToTableau_run_from_waste_or_foundation_witness :
  ∃ e', moveCardsToTableau LWaste 1 [aceOfSpades; twoOfSpades] sampleDeal
          = (Some true, e') ∧
        waste (gameState e') = waste (gameState sampleDeal).
Proof.
  destruct (moveCardsToTableau_run_from_waste_or_foundation sampleDeal LWaste 1
              [aceOfSpades; twoOfSpades])
    as (e' & dest & H1 & _ & _ & _ & H2 & _).
  - left. reflexivity.
  - simpl. lia.
  - vm_compute. reflexivity.
  - exists e'. split; assumption.
Defined.

(** ** First version of the stock click *)

(** In the first version a click on an empty stock with an empty waste
    still counts a move. *)
Lemma legacyHandleStockClick_counts_empty_click (e : Engine) :
  stock (gameState e) = [] → waste (gameState e) = [] →
  moveCount (gameState (run legacyHandleStockClick e))
  = S (moveCount (gameState e)).
Proof.
  intros Hs Hw. unfold run, legacyHandleStockClick, legacyRegisterMove.
  msimpl. rewrite Hs, Hw. simpl. by destruct (firstMoveDone e).
Qed.

(** ** The undo manager as a data structure *)

Lemma historyBounded_undoCall (u : UndoManager.t) (c : UndoCall) :
  historyBounded u → historyBounded (undoCall u c).
Proof.
  intros [Hm Hl]. destruct c as [|limit|s|]; simpl.
  - split; simpl; lia.
  - unfold UndoManager.setMaxHistory, slice.
    destruct (Nat.ltb_spec 0 limit); [|by split].
    destruct (Nat.ltb_spec limit (length (UndoManager.history u)));
      split; simpl; try lia.
    rewrite length_drop. lia.
  - unfold UndoManager.pushSnapshot, UndoManager.cloneState.
    destruct (Nat.ltb_spec (UndoManager.maxHistory u)
                (length (UndoManager.history u ++ [s]))) as [H|H];
      split; simpl; try lia.
    rewrite length_drop. lia.
  - unfold UndoManager.undo, UndoManager.canUndo, pop.
    destruct (0 <? _); simpl; [|by split].
    split; simpl; [done|]. rewrite length_take. lia.
Qed.

(** X1.  Whatever sequence of [reset], [setMaxHistory], [pushSnapshot]
    and [undo] calls is made on a fresh manager, the cap stays positive
    and the history never holds more snapshots than the cap. *)
Theorem undoManager_history_never_exceeds_cap (calls : list UndoCall) :
  historyBounded (foldl undoCall UndoManager.init calls).
Proof.
  assert (H : ∀ u, historyBounded u → historyBounded (foldl undoCall u calls)).
  { induction calls as [|c calls IH]; intros u Hu; [done|].
    simpl. apply IH. by apply historyBounded_undoCall. }
  apply H. split; simpl; lia.
Qed.

Lemma pushSnapshot_newest (s : GameState) (u : UndoManager.t) :
  UndoManager.pushSnapshot s u
  = UndoManager.mk (newest (UndoManager.maxHistory u) (UndoManager.history u ++ [s]))
      (UndoManager.maxHistory u).
Proof.
  unfold UndoManager.pushSnapshot, UndoManager.cloneState, newest.
  destruct (Nat.ltb_spec (UndoManager.maxHistory u)
              (length (UndoManager.history u ++ [s]))) as [H|H]; [done|].
  replace (length (UndoManager.history u ++ [s]) - UndoManager.maxHistory u)
    with 0 by lia.
  by rewrite drop_0.
Qed.

Lemma newest_newest_snoc {A} (n : nat) (l : list A) (x : A) :
  newest n (newest n l ++ [x]) = newest n (l ++ [x]).
Proof.
  unfold newest. rewrite !length_app, length_drop. simpl.
  destruct (Nat.le_gt_cases (length l) n) as [H|H].
  - replace (length l - n) with 0 by lia. rewrite drop_0.
    f_equal. lia.
  - destruct n as [|n].
    { rewrite !drop_ge; [done| |]; rewrite ?length_app, ?length_drop; simpl; lia. }
    replace (length l - (length l - S n) + 1 - S n) with 1 by lia.
    rewrite drop_app_le by (rewrite length_drop; lia).
    rewrite drop_drop.
    replace (length l + 1 - S n) with (length l - S n + 1) by lia.
    rewrite (drop_app_le l) by lia. reflexivity.
Qed.

Lemma pushAll_newest (l : list GameState) : ∀ u : UndoManager.t,
  length (UndoManager.history u) ≤ UndoManager.maxHistory u →
  pushAll l u
  = UndoManager.mk (newest (UndoManager.maxHistory u) (UndoManager.history u ++ l))
      (UndoManager.maxHistory u).
Proof.
  induction l as [|s l IH] using rev_ind; intros u Hu.
  - simpl. rewrite app_nil_r. unfold newest.
    replace (length (UndoManager.history u) - UndoManager.maxHistory u)
      with 0 by lia.
    rewrite drop_0. by destruct u.
  - unfold pushAll in *. rewrite foldl_snoc, IH by done.
    rewrite pushSnapshot_newest. simpl.
    by rewrite newest_newest_snoc, app_assoc.
Qed.

(** X2.  Pushes beyond the cap evict the oldest snapshots first: after
    any number of [pushSnapshot] calls the history is the newest
    [maxHistory] elements of the old history followed by the pushed
    snapshots, in push order, and the cap is unchanged. *)
Theorem pushSnapshot_keeps_the_newest (l : list GameState) (u : UndoManager.t) :
  length (UndoManager.history u) ≤ UndoManager.maxHistory u →
  UndoManager.history (pushAll l u)
    = newest (UndoManager.maxHistory u) (UndoManager.history u ++ l) ∧
  UndoManager.maxHistory (pushAll l u) = UndoManager.maxHistory u.
Proof. intros Hu. by rewrite pushAll_newest. Qed.

Lemma pushSnapshot_keeps_the_newest_witness :
  UndoManager.history
    (pushAll [sampleState 1; sampleState 2; sampleState 3]
       (UndoManager.mk [sampleState 0] 2))
  = [sampleState 2; sampleState 3].
Proof.
  exact (proj1 (pushSnapshot_keeps_the_newest
                  [sampleState 1; sampleState 2; sampleState 3]
                  (UndoManager.mk [sampleState 0] 2) (le_S _ _ (le_n 1)))).
Defined.

Lemma undo_snoc (h : list GameState) (s : GameState) (m : nat) :
  UndoManager.undo (UndoManager.mk (h ++ [s]) m) = (Some s, UndoManager.mk h m).
Proof.
  unfold UndoManager.undo, UndoManager.canUndo.
  cbn [UndoManager.history UndoManager.maxHistory].
  rewrite length_app, pop_snoc. cbn [length].
  by replace (0 <? length h + 1) with true by (symmetry; apply Nat.ltb_lt; lia).
Qed.

Lemma undoMany_app (l : list GameState) : ∀ (h : list GameState) (m : nat),
  undoMany (length l) (UndoManager.mk (h ++ l) m)
  = (Some <$> reverse l, UndoManager.mk h m).
Proof.
  induction l as [|s l IH] using rev_ind; intros h m; [by rewrite app_nil_r|].
  rewrite length_app, Nat.add_comm. simpl.
  rewrite app_assoc, undo_snoc, IH, reverse_snoc. reflexivity.
Qed.

(** X3.  The history is a stack: as long as the cap is not reached,
    pushing a sequence of snapshots and then calling [undo] as many
    times returns them newest first, each exactly as pushed, and leaves
    the manager as it was before the pushes. *)
Theorem undo_returns_snapshots_newest_first
    (l : list GameState) (u : UndoManager.t) :
  length (UndoManager.history u) + length l ≤ UndoManager.maxHistory u →
  undoMany (length l) (pushAll l u) = (Some <$> reverse l, u).
Proof.
  intros Hu. rewrite pushAll_newest by lia. unfold newest.
  rewrite length_app.
  replace (length (UndoManager.history u) + length l - UndoManager.maxHistory u)
    with 0 by lia.
  rewrite drop_0, undoMany_app. by destruct u.
Qed.

Lemma undo_returns_snapshots_newest_first_witness :
  undoMany 2 (pushAll [sampleState 1; sampleState 2] UndoManager.init)
  = ([Some (sampleState 2); Some (sampleState 1)], UndoManager.init).
Proof.
  apply (undo_returns_snapshots_newest_first [sampleState 1; sampleState 2]
           UndoManager.init).
  simpl. lia.
Defined.

(** X4.  [setMaxHistory] with limit 0 is ignored.  With a positive limit
    it installs the limit and keeps the newest [limit] snapshots in
    order, so the next [undo] returns what it would have returned
    before. *)
Theorem setMaxHistory_keeps_the_newest (u : UndoManager.t) :
  UndoManager.setMaxHistory 0 u = u ∧
  ∀ limit, 0 < limit →
    UndoManager.maxHistory (UndoManager.setMaxHistory limit u) = limit ∧
    UndoManager.history (UndoManager.setMaxHistory limit u)
      = newest limit (UndoManager.history u) ∧
    fst (UndoManager.undo (UndoManager.setMaxHistory limit u))
      = fst (UndoManager.undo u).
Proof.
  split; [reflexivity|]. intros limit Hl.
  assert (Hh : UndoManager.setMaxHistory limit u
               = UndoManager.mk (newest limit (UndoManager.history u)) limit).
  { unfold UndoManager.setMaxHistory, slice, newest.
    replace (0 <? limit) with true by (symmetry; by apply Nat.ltb_lt).
    destruct (Nat.ltb_spec limit (length (UndoManager.history u))); [done|].
    replace (length (UndoManager.history u) - limit) with 0 by lia.
    by rewrite drop_0. }
  rewrite Hh. simpl. split; [done|]. split; [done|].
  unfold UndoManager.undo, UndoManager.canUndo, pop, newest. simpl.
  rewrite length_drop.
  destruct (UndoManager.history u) as [|x h] eqn:E using rev_ind; [done|].
  clear IHh. rewrite length_app. simpl.
  replace (0 <? length h + 1 - (length h + 1 - limit)) with true
    by (symmetry; apply Nat.ltb_lt; lia).
  replace (0 <? length h + 1) with true by (symmetry; apply Nat.ltb_lt; lia).
  simpl. rewrite last_snoc.
  rewrite drop_app_le by lia. by rewrite last_snoc.
Qed.

Lemma setMaxHistory_keeps_the_newest_witness :
  UndoManager.history
    (UndoManager.setMaxHistory 1
       (UndoManager.mk [sampleState 0; sampleState 1] 500))
  = [sampleState 1].
Proof.
  exact (proj1 (proj2 (proj2 (setMaxHistory_keeps_the_newest
                  (UndoManager.mk [sampleState 0; sampleState 1] 500)) 1
                  (le_n 1)))).
Defined.

(** ** Closed forms of the move methods *)

Lemma obs_eq (e e' : Engine) :
  obs e' = obs e ↔ gameState e' = gameState e ∧ sameRest e e'.
Proof.
  unfold obs, sameRest. split.
  - intros [= -> -> -> -> ->]. auto.
  - intros (-> & -> & -> & -> & ->). reflexivity.
Qed.

Lemma sameRest_refl (e : Engine) : sameRest e e.
Proof. by repeat split. Qed.

Lemma sameRest_trans (a b c : Engine) :
  sameRest a b → sameRest b c → sameRest a c.
Proof.
  intros (H1 & H2 & H3 & H4) (K1 & K2 & K3 & K4).
  repeat split; congruence.
Qed.

Lemma sameRest_set_gameState (g : GameState) (e : Engine) :
  sameRest e (set_gameState g e).
Proof. by repeat split. Qed.

Lemma obs_moveRegistered_congr (g : GameState) (a b : Engine) :
  sameRest a b →
  obs (moveRegistered (set_gameState g b)) = obs (moveRegistered (set_gameState g a)).
Proof.
  intros (H1 & H2 & H3 & H4). destruct a, b. simpl in *. subst.
  unfold obs, moveRegistered. simpl.
  by match goal with |- context [if ?b then _ else _] => destruct b end.
Qed.

Lemma obs_winChecked_congr (a b : Engine) :
  obs b = obs a → obs (winChecked b) = obs (winChecked a).
Proof.
  intros H. apply obs_eq in H as (Hg & H1 & H2 & H3 & H4).
  unfold winChecked. rewrite Hg.
  destruct (_ =? _); unfold obs; simpl; congruence.
Qed.

(** [revealTop] with what it does to every observed field. *)
Lemma revealTop_full (column : list Card) (e : Engine) :
  ∃ e', revealTop column e = (Some (withTopRevealed column), e') ∧
    gameState e'
      = set_score (score (gameState e)
                   + (if exposesFaceDown column then 5 else 0))%Z (gameState e) ∧
    sameRest e e'.
Proof.
  unfold revealTop, withTopRevealed, exposesFaceDown.
  destruct (last column) as [c|]; [destruct (faceUp c)|]; msimpl; simpl.
  - eexists. split; [reflexivity|]. destruct e as [[] ?]; simpl.
    rewrite Z.add_0_r. by repeat split.
  - unfold pop. simpl. rewrite take_pop. eexists. split; [reflexivity|].
    by repeat split.
  - eexists. split; [reflexivity|]. destruct e as [[] ?]; simpl.
    rewrite Z.add_0_r. by repeat split.
Qed.

(** The tableau branch shared by both removal blocks: cut the column,
    store it, reveal, store again. *)
Lemma cut_and_reveal (i : nat) (below : list Card) (e : Engine) :
  ∃ e1,
    (modifyG (λ g, set_tableau (<[i := below]> (tableau g)) g);;
     column ← revealTop below;
     modifyG (λ g, set_tableau (<[i := column]> (tableau g)) g)) e
    = (Some tt, e1) ∧
    gameState e1
      = set_score (score (gameState e)
                   + (if exposesFaceDown below then 5 else 0))%Z
          (set_tableau (<[i := withTopRevealed below]> (tableau (gameState e)))
             (gameState e)) ∧
    sameRest e e1.
Proof.
  msimpl.
  match goal with |- context [revealTop below ?e0] =>
    destruct (revealTop_full below e0) as (e2 & -> & Hg & Hr) end.
  cbn beta iota. eexists. split; [reflexivity|]. simpl. rewrite Hg. simpl.
  rewrite list_insert_insert_eq. split; [reflexivity|].
  destruct Hr as (? & ? & ? & ?). by repeat split.
Qed.

Lemma removeRunFromSource_eq (fromLocation : Location) (cards : list Card)
    (e : Engine) :
  match withoutRun (gameState e) fromLocation cards with
  | Some g1 =>
      ∃ e1, removeRunFromSource fromLocation cards e = (Some tt, e1) ∧
            gameState e1 = g1 ∧ sameRest e e1
  | None => removeRunFromSource fromLocation cards e = (None, e)
  end.
Proof.
  unfold withoutRun, removeRunFromSource.
  destruct fromLocation as [|i|i|].
  - msimpl. destruct (_ && _).
    + eexists. split; [reflexivity|]. simpl. unfold pop. simpl.
      rewrite take_pop. by repeat split.
    + eexists. split; [reflexivity|]. by repeat split.
  - destruct (length cards =? 1).
    + msimpl. destruct (foundations (gameState e) !! i) as [f|]; simpl; [|done].
      destruct (0 <? length f).
      * eexists. split; [reflexivity|]. simpl. unfold pop. simpl.
        rewrite take_pop. by repeat split.
      * eexists. split; [reflexivity|]. by repeat split.
    + eexists. split; [reflexivity|]. by repeat split.
  - rewrite bind_gets_defined.
    destruct (tableau (gameState e) !! i) as [column|]; simpl; [|done].
    apply cut_and_reveal.
  - eexists. split; [reflexivity|]. by repeat split.
Qed.

Lemma removeCardFromSource_eq (fromLocation : Location) (e : Engine) :
  match withoutCard (gameState e) fromLocation with
  | Some g1 =>
      ∃ e1, removeCardFromSource fromLocation e = (Some tt, e1) ∧
            gameState e1 = g1 ∧ sameRest e e1
  | None => removeCardFromSource fromLocation e = (None, e)
  end.
Proof.
  unfold withoutCard, removeCardFromSource.
  destruct fromLocation as [|i|i|].
  - msimpl. destruct (0 <? _).
    + eexists. split; [reflexivity|]. simpl. unfold pop. simpl.
      rewrite take_pop. by repeat split.
    + eexists. split; [reflexivity|]. by repeat split.
  - eexists. split; [reflexivity|]. by repeat split.
  - rewrite bind_gets_defined.
    destruct (tableau (gameState e) !! i) as [column|]; simpl; [|done].
    destruct (0 <? length column).
    + unfold pop. cbn [snd]. rewrite take_pop. apply cut_and_reveal.
    + eexists. split; [reflexivity|]. by repeat split.
  - eexists. split; [reflexivity|]. by repeat split.
Qed.

Lemma pushToTableau_eq (toColIndex : nat) (cards : list Card) (e : Engine) :
  pushToTableau toColIndex cards e
  = match tableau (gameState e) !! toColIndex with
    | Some dest =>
        (Some tt,
         set_gameState
           (set_tableau (<[toColIndex := dest ++ cards]> (tableau (gameState e)))
              (gameState e)) e)
    | None => (None, e)
    end.
Proof.
  unfold pushToTableau. rewrite bind_gets_defined.
  by destruct (tableau (gameState e) !! toColIndex).
Qed.

Lemma pushToFoundation_eq (foundationIndex : Z) (card : Card) (e : Engine) :
  pushToFoundation foundationIndex card e
  = match lookupZ (foundations (gameState e)) foundationIndex with
    | Some f =>
        (Some tt,
         set_gameState
           (set_foundations
              (insertZ foundationIndex (f ++ [card]) (foundations (gameState e)))
              (gameState e)) e)
    | None => (None, e)
    end.
Proof.
  unfold pushToFoundation. rewrite bind_gets_defined.
  by destruct (lookupZ (foundations (gameState e)) foundationIndex).
Qed.

Lemma checkWinCondition_eq (e : Engine) :
  checkWinCondition e = (Some tt, winChecked e).
Proof.
  unfold checkWinCondition, winChecked. msimpl. by destruct (_ =? _).
Qed.

Lemma withoutRun_tableau_length (g g1 : GameState) fromLocation cards :
  withoutRun g fromLocation cards = Some g1 →
  length (tableau g1) = length (tableau g).
Proof.
  unfold withoutRun. destruct fromLocation as [|i|i|].
  - intros [= <-]. by destruct (_ && _).
  - destruct (_ =? _); [|by intros [= <-]].
    destruct (foundations g !! i) as [f|]; simpl; [|done].
    intros [= <-]. by destruct (0 <? _).
  - destruct (tableau g !! i) as [column|]; simpl; [|done].
    intros [= <-]. simpl. by rewrite length_insert.
  - by intros [= <-].
Qed.

Lemma withoutCard_foundations (g g1 : GameState) fromLocation :
  withoutCard g fromLocation = Some g1 → foundations g1 = foundations g.
Proof.
  unfold withoutCard. destruct fromLocation as [|i|i|].
  - intros [= <-]. by destruct (0 <? _).
  - by intros [= <-].
  - destruct (tableau g !! i) as [column|]; simpl; [|done].
    intros [= <-]. by destruct (0 <? _).
  - by intros [= <-].
Qed.

(** [moveCardsToTableau] in closed form: rejected without a trace,
    interrupted by a missing source pile right after the snapshot, or
    carried out in full. *)
Lemma moveCardsToTableau_cases (fromLocation : Location) (toColIndex : nat)
    (cards : list Card) (e : Engine) :
  match canMoveToTableau (gameState e) cards toColIndex with
  | None => moveCardsToTableau fromLocation toColIndex cards e = (None, e)
  | Some false =>
      moveCardsToTableau fromLocation toColIndex cards e = (Some false, e)
  | Some true =>
      match withoutRun (gameState e) fromLocation cards with
      | None =>
          moveCardsToTableau fromLocation toColIndex cards e
          = (None, snapshotTaken e)
      | Some g1 =>
          ∃ e' dest,
            moveCardsToTableau fromLocation toColIndex cards e = (Some true, e') ∧
            tableau g1 !! toColIndex = Some dest ∧
            obs e' = obs (registered
                            (set_tableau (<[toColIndex := dest ++ cards]> (tableau g1))
                               g1) e)
      end
  end.
Proof.
  unfold moveCardsToTableau. rewrite bind_gets_defined.
  destruct (canMoveToTableau (gameState e) cards toColIndex) as [[|]|] eqn:Hcan;
    [|reflexivity|reflexivity].
  cbn [negb]. rewrite bind_capture.
  pose proof (removeRunFromSource_eq fromLocation cards (snapshotTaken e)) as Hrem.
  rewrite gameState_snapshotTaken in Hrem.
  destruct (withoutRun (gameState e) fromLocation cards) as [g1|] eqn:Hw.
  - destruct Hrem as (e1 & Hrem & Hg1 & Hrest).
    destruct (canMoveToTableau_true_dest _ _ _ Hcan) as (c & cs & d0 & _ & Hd0).
    destruct (lookup_lt_is_Some_2 (tableau g1) toColIndex) as [dest Hdest].
    { rewrite (withoutRun_tableau_length _ _ _ _ Hw). by eapply lookup_lt_Some. }
    exists (moveRegistered
              (set_gameState
                 (set_tableau (<[toColIndex := dest ++ cards]> (tableau g1)) g1) e1)),
      dest.
    split; [|split; [exact Hdest|]].
    + unfold mbind, M_bind at 1. rewrite Hrem. cbn beta iota.
      unfold mbind, M_bind at 1. rewrite pushToTableau_eq, Hg1, Hdest.
      cbn beta iota. unfold mbind, M_bind. rewrite registerMove_eq. reflexivity.
    + unfold registered. by apply obs_moveRegistered_congr.
  - unfold mbind, M_bind at 1. by rewrite Hrem.
Qed.

(** [moveCardToFoundation] in closed form.  The last case, a throw after
    the source card has been taken, needs a requested index that is not
    a foundation although the check returned it: index [-1] with a card
    that fits nowhere. *)
Lemma moveCardToFoundation_cases (fromLocation : Location) (foundationIndex : Z)
    (card : Card) (e : Engine) :
  match canMoveToFoundation (gameState e) card with
  | None => moveCardToFoundation fromLocation foundationIndex card e = (None, e)
  | Some canMove =>
      if negb (canMove =? foundationIndex)%Z
      then moveCardToFoundation fromLocation foundationIndex card e
           = (Some false, e)
      else
        match withoutCard (gameState e) fromLocation with
        | None =>
            moveCardToFoundation fromLocation foundationIndex card e
            = (None, snapshotTaken e)
        | Some g1 =>
            match lookupZ (foundations g1) foundationIndex with
            | Some f =>
                ∃ e',
                  moveCardToFoundation fromLocation foundationIndex card e
                  = (Some true, e') ∧
                  obs e'
                  = obs (winChecked
                           (registered
                              (set_score (score g1 + 10)%Z
                                 (set_foundations
                                    (insertZ foundationIndex (f ++ [card])
                                       (foundations g1)) g1)) e))
            | None =>
                ∃ e',
                  moveCardToFoundation fromLocation foundationIndex card e
                  = (None, e') ∧
                  gameState e' = g1 ∧ sameRest (snapshotTaken e) e'
            end
        end
  end.
Proof.
  unfold moveCardToFoundation. rewrite bind_gets_defined.
  destruct (canMoveToFoundation (gameState e) card) as [canMove|]; [|reflexivity].
  destruct (negb (canMove =? foundationIndex)%Z); [reflexivity|].
  rewrite bind_capture.
  pose proof (removeCardFromSource_eq fromLocation (snapshotTaken e)) as Hrem.
  rewrite gameState_snapshotTaken in Hrem.
  destruct (withoutCard (gameState e) fromLocation) as [g1|] eqn:Hw.
  - destruct Hrem as (e1 & Hrem & Hg1 & Hrest).
    destruct (lookupZ (foundations g1) foundationIndex) as [f|] eqn:Hf.
    + eexists. split.
      * unfold mbind, M_bind at 1. rewrite Hrem. cbn beta iota.
        unfold mbind, M_bind at 1. rewrite pushToFoundation_eq, Hg1, Hf.
        cbn beta iota. msimpl. rewrite registerMove_eq. cbn beta iota.
        rewrite checkWinCondition_eq. reflexivity.
      * apply obs_winChecked_congr. unfold registered. simpl.
        by apply obs_moveRegistered_congr.
    + exists e1. split; [|done].
      unfold mbind, M_bind at 1. rewrite Hrem. cbn beta iota.
      unfold mbind, M_bind at 1. by rewrite pushToFoundation_eq, Hg1, Hf.
  - unfold mbind, M_bind at 1. by rewrite Hrem.
Qed.

(** ** Every event is quiet, a hint, a move, an undo or a deal *)

Ltac obs_leaf := unfold obsIs, obs; intros; simpl; assumption.

Lemma obsIs_animateCardMovement e0 found :
  pres (obsIs e0) (animateCardMovement found).
Proof. unfold animateCardMovement. pres_go obs_leaf. Qed.

Lemma obsIs_animationFrame e0 anyFound :
  pres (obsIs e0) (animationFrame anyFound).
Proof. unfold animationFrame, animateRevealedCards. pres_go obs_leaf. Qed.

Lemma obsIs_updateOptions e0 preset enabled :
  pres (obsIs e0) (updateOptions preset enabled).
Proof. unfold updateOptions. pres_go obs_leaf. Qed.

Lemma obsIs_handleDragStart e0 el : pres (obsIs e0) (handleDragStart el).
Proof. unfold handleDragStart. pres_go obs_leaf. Qed.

Lemma animateCardMovement_obs (found : bool) (e : Engine) :
  ∃ e', animateCardMovement found e = (Some tt, e') ∧ obs e' = obs e.
Proof.
  unfold animateCardMovement. msimpl.
  destruct (negb found); [by eexists|].
  destruct (_ || _); by eexists.
Qed.

Lemma Moved_obs (e e1 e' : Engine) : Moved e e1 → obs e' = obs e1 → Moved e e'.
Proof.
  intros (g1 & Hm & Ho) He. exists g1. split; [done|].
  destruct Ho as [Ho|Ho]; [left|right]; congruence.
Qed.

Lemma RunFrom_withoutRun (g : GameState) fromLocation cards :
  RunFrom g fromLocation cards → is_Some (withoutRun g fromLocation cards).
Proof.
  intros [c Hc | i f top c Hf Hl Hc | i below cs Hcol Hne Hup];
    unfold withoutRun; simpl; [eauto| |].
  - rewrite Hf. simpl. eauto.
  - rewrite Hcol. simpl. eauto.
Qed.

Lemma CardFrom_withoutCard (g : GameState) fromLocation card :
  CardFrom g fromLocation card → is_Some (withoutCard g fromLocation).
Proof.
  intros [c Hc | i f top c Hf Hl Hc | i column c Hcol Hc Hup];
    unfold withoutCard; simpl; [eauto|eauto|].
  rewrite Hcol. simpl. eauto.
Qed.

Lemma moveCardsToTableau_result (e : Engine) fromLocation toColIndex cards :
  RunFrom (gameState e) fromLocation cards →
  MoveResult e (moveCardsToTableau fromLocation toColIndex cards e).
Proof.
  intros Hsrc.
  pose proof (moveCardsToTableau_cases fromLocation toColIndex cards e) as Hc.
  destruct (canMoveToTableau (gameState e) cards toColIndex) as [[|]|] eqn:Hcan;
    [|left; by rewrite Hc|left; by rewrite Hc].
  destruct (RunFrom_withoutRun _ _ _ Hsrc) as [g1 Hg1]. rewrite Hg1 in Hc.
  destruct Hc as (e' & dest & -> & Hdest & Hobs).
  right. split; [done|]. simpl.
  eexists. split; [|left; exact Hobs].
  by eapply move_toTableau.
Qed.

Lemma canMoveToFoundation_value (g : GameState) (card : Card) (v : Z) :
  canMoveToFoundation g card = Some v →
  is_Some (foundations g !! suit card) ∧
  (v = Z.of_nat (suit card) ∨ v = (-1)%Z).
Proof.
  unfold canMoveToFoundation.
  destruct (foundations g !! suit card) as [f|]; simpl; [|done].
  split; [eauto|].
  destruct (last f); destruct (_ =? _)%Z; injection H as <-; auto.
Qed.

Lemma insertZ_of_nat {A} (n : nat) (x : A) (l : list A) :
  insertZ (Z.of_nat n) x l = <[n := x]> l.
Proof.
  unfold insertZ. destruct (Z.ltb_spec (Z.of_nat n) 0); [lia|].
  by rewrite Nat2Z.id.
Qed.

Lemma lookupZ_of_nat {A} (n : nat) (l : list A) :
  lookupZ l (Z.of_nat n) = l !! n.
Proof.
  unfold lookupZ. destruct (Z.ltb_spec (Z.of_nat n) 0); [lia|].
  by rewrite Nat2Z.id.
Qed.

Lemma moveCardToFoundation_result (e : Engine) fromLocation foundationIndex card :
  CardFrom (gameState e) fromLocation card →
  (0 ≤ foundationIndex)%Z →
  MoveResult e (moveCardToFoundation fromLocation foundationIndex card e).
Proof.
  intros Hsrc Hidx.
  pose proof (moveCardToFoundation_cases fromLocation foundationIndex card e) as Hc.
  destruct (canMoveToFoundation (gameState e) card) as [v|] eqn:Hcan;
    [|left; by rewrite Hc].
  destruct (Z.eqb_spec v foundationIndex) as [->|Hne]; cbn [negb] in Hc;
    [|left; by rewrite Hc].
  destruct (canMoveToFoundation_value _ _ _ Hcan) as [[f Hf] [Hv|Hv]]; [|lia].
  subst foundationIndex.
  destruct (CardFrom_withoutCard _ _ _ Hsrc) as [g1 Hg1]. rewrite Hg1 in Hc.
  rewrite lookupZ_of_nat, (withoutCard_foundations _ _ _ Hg1), Hf in Hc.
  destruct Hc as (e' & -> & Hobs). rewrite insertZ_of_nat in Hobs.
  rewrite <- (withoutCard_foundations _ _ _ Hg1) in Hobs.
  right. split; [done|]. simpl.
  eexists. split; [|right; exact Hobs].
  eapply move_toFoundation; eauto.
  by rewrite (withoutCard_foundations _ _ _ Hg1).
Qed.

Lemma Calm_refl (e : Engine) : Calm e e.
Proof. by left. Qed.

Lemma Calm_obs (e e1 e' : Engine) : Calm e e1 → obs e' = obs e1 → Calm e e'.
Proof.
  intros [H|H] He; [left; congruence|right; by eapply Moved_obs].
Qed.

Lemma Calm_bind_move {B} (e : Engine) (m : M bool) (k : bool → M B) :
  MoveResult e (m e) →
  (∀ e1, obs (run (k true) e1) = obs e1) →
  Calm e (run (k false) e) →
  Calm e (run (m ≫= k) e).
Proof.
  intros Hm Ht Hf. unfold run, mbind, M_bind in *.
  destruct (m e) as [[[|]|] e1]; destruct Hm as [[Hr He]|[Hr He]];
    simpl in *; try done; subst; try (by left); [|exact Hf].
  right. eapply Moved_obs; [exact He|]. apply Ht.
Qed.

Lemma obs_after_animation {B} (found : bool) (b : B) (e1 : Engine) :
  obs (run (animateCardMovement found;; mret b) e1) = obs e1.
Proof.
  unfold run. destruct (animateCardMovement_obs found e1) as (e2 & H & Ho).
  unfold mbind, M_bind. by rewrite H.
Qed.

Lemma obs_after_animation' (found : bool) (e1 : Engine) :
  obs (run (animateCardMovement found) e1) = obs e1.
Proof.
  unfold run. destruct (animateCardMovement_obs found e1) as (e2 & H & Ho).
  by rewrite H.
Qed.

Lemma handleStockClick_calm (e : Engine) : Calm e (run handleStockClick e).
Proof.
  unfold run. rewrite handleStockClick_eq.
  destruct (0 <? length (stock (gameState e))) eqn:Hs;
    [|destruct (0 <? length (waste (gameState e))) eqn:Hw]; simpl.
  - right. exists (drawn (gameState e)). split; [|by left].
    apply move_draw. apply Nat.ltb_lt in Hs. intros Hn. rewrite Hn in Hs.
    simpl in Hs. lia.
  - right. exists (recycled (gameState e)). split; [|by left].
    apply Nat.ltb_ge in Hs. apply Nat.ltb_lt in Hw.
    apply move_recycle.
    + apply nil_length_inv. lia.
    + intros Hn. rewrite Hn in Hw. simpl in Hw. lia.
  - by left.
Qed.

Lemma last_elem_of {A} (l : list A) (x : A) : last l = Some x → x ∈ l.
Proof.
  intros H. apply last_Some in H as [l' ->].
  apply elem_of_app. right. by apply list_elem_of_singleton.
Qed.

Lemma last_split {A} (l : list A) (x : A) :
  last l = Some x → l = removelast l ++ [x].
Proof.
  intros H. apply last_Some in H as [l' ->]. by rewrite removelast_last.
Qed.

Lemma canMoveToFoundation_nonneg (g : GameState) (card : Card) (v : Z) :
  canMoveToFoundation g card = Some v → (v =? -1)%Z = false → (0 ≤ v)%Z.
Proof.
  intros H Hv. apply canMoveToFoundation_value in H as [_ [->| ->]]; [lia|done].
Qed.

Lemma tryMoveWasteToFoundation_calm (e : Engine) :
  Calm e (run tryMoveWasteToFoundation e).
Proof.
  unfold tryMoveWasteToFoundation. apply run_getsG.
  destruct (last (waste (gameState e))) as [card|] eqn:Hl; [|by left].
  apply run_gets_defined; [by left|]. intros v Hv.
  destruct (v =? -1)%Z eqn:Hm; [by left|].
  destruct (moveCardToFoundation_result e LWaste v card) as [[_ He]|[_ He]].
  - apply card_from_waste. by apply last_elem_of.
  - by eapply canMoveToFoundation_nonneg.
  - unfold run. rewrite He. by left.
  - by right.
Qed.

Lemma autoTableauLoop_calm colIndex card found (cols : list nat) :
  ∀ e, RunFrom (gameState e) (LTableau colIndex) [card] →
       Calm e (run (autoTableauLoop colIndex card found cols) e).
Proof.
  induction cols as [|targetCol cols IH]; intros e Hsrc; [by left|].
  cbn [autoTableauLoop]. destruct (targetCol =? colIndex); [by apply IH|].
  apply run_gets_defined; [by left|]. intros [|] Hcan; [|by apply IH].
  apply Calm_bind_move.
  - by apply moveCardsToTableau_result.
  - intros e1. apply obs_after_animation.
  - by apply IH.
Qed.

Lemma top_RunFrom (g : GameState) (colIndex : nat) (column : list Card)
    (card : Card) :
  tableau g !! colIndex = Some column → last column = Some card →
  faceUp card = true →
  RunFrom g (LTableau colIndex) [card].
Proof.
  intros Hcol Hl Hup. apply (run_from_tableau g colIndex (removelast column)).
  - by rewrite <- last_split.
  - done.
  - by repeat constructor.
Qed.

Lemma tryMoveTableauToFoundation_calm colIndex found (e : Engine) :
  Calm e (run (tryMoveTableauToFoundation colIndex found) e).
Proof.
  unfold tryMoveTableauToFoundation. apply run_gets.
  destruct (tableau (gameState e) !! colIndex) as [column|] eqn:Hcol; [|by left].
  destruct (last column) as [card|] eqn:Hl; [|by left].
  destruct (faceUp card) eqn:Hup; [|by left]. cbn [negb].
  destruct (canMoveToFoundation (gameState e) card) as [v|] eqn:Hv; [|by left].
  cbn [defined]. change (mret v ≫= ?k) with (k v). cbn beta.
  assert (Hloop : Calm e (run (autoTableauLoop colIndex card found
                                 (seq 0 (length (tableau (gameState e))))) e)).
  { apply autoTableauLoop_calm. by eapply top_RunFrom. }
  destruct (v =? -1)%Z eqn:Hm; cbn [negb].
  - exact Hloop.
  - apply Calm_bind_move.
    + apply moveCardToFoundation_result.
      * eapply card_from_tableau; [exact Hcol|by apply last_elem_of|done].
      * by eapply canMoveToFoundation_nonneg.
    + intros e1. apply obs_after_animation.
    + exact Hloop.
Qed.

Lemma bind_modifyG {B} (f : GameState → GameState) (k : unit → M B) (e : Engine) :
  (modifyG f ≫= k) e = k tt (set_gameState (f (gameState e)) e).
Proof. reflexivity. Qed.

Lemma bind_addScore {B} (d : Z) (k : unit → M B) (e : Engine) :
  (addScore d ≫= k) e
  = k tt (set_gameState (set_score (score (gameState e) + d)%Z (gameState e)) e).
Proof. reflexivity. Qed.

Lemma bind_registerMove {B} (k : unit → M B) (e : Engine) :
  (registerMove ≫= k) e = k tt (moveRegistered e).
Proof. unfold mbind, M_bind. by rewrite registerMove_eq. Qed.

Lemma bind_pushToTableau {B} (col : nat) (cards dest : list Card)
    (k : unit → M B) (e : Engine) :
  tableau (gameState e) !! col = Some dest →
  (pushToTableau col cards ≫= k) e
  = k tt (set_gameState
            (set_tableau (<[col := dest ++ cards]> (tableau (gameState e)))
               (gameState e)) e).
Proof. intros H. unfold mbind, M_bind. by rewrite pushToTableau_eq, H. Qed.

Lemma foundationToTableau_step (foundationIndex col : nat) (card : Card)
    (found : bool) (f dest : list Card) (e : Engine) :
  foundations (gameState e) !! foundationIndex = Some f →
  tableau (gameState e) !! col = Some dest →
  ∃ e',
    (captureUndoSnapshot;;
     f ← getsG (λ g, foundations g !! foundationIndex) ≫= defined;
     modifyG (λ g, set_foundations
                     (<[foundationIndex := snd (pop f)]> (foundations g)) g);;
     pushToTableau col [card];;
     addScore (-15);;
     registerMove;;
     animateCardMovement found;;
     mret true) e = (Some true, e') ∧
    obs e'
    = obs (registered
             (set_score (score (gameState e) + -15)%Z
                (set_tableau (<[col := dest ++ [card]]> (tableau (gameState e)))
                   (set_foundations
                      (<[foundationIndex := removelast f]>
                         (foundations (gameState e))) (gameState e)))) e).
Proof.
  intros Hf Hd. rewrite bind_capture, bind_gets_defined.
  rewrite gameState_snapshotTaken, Hf.
  rewrite bind_modifyG, (bind_pushToTableau _ _ dest)
    by (simpl; by rewrite gameState_snapshotTaken).
  rewrite bind_addScore, bind_registerMove.
  cbn [gameState set_gameState tableau foundations score set_tableau
       set_foundations].
  rewrite gameState_snapshotTaken.
  match goal with |- context [(animateCardMovement found ≫= _) ?x] =>
    destruct (animateCardMovement_obs found x) as (e2 & Ha & Ho) end.
  exists e2. split.
  - unfold mbind, M_bind. by rewrite Ha.
  - rewrite Ho. unfold registered, pop. cbn [snd]. by rewrite take_pop.
Qed.

Lemma foundationToTableauLoop_calm foundationIndex card found (cols : list nat) :
  ∀ e f, foundations (gameState e) !! foundationIndex = Some f →
         last f = Some card →
         Calm e (run (foundationToTableauLoop foundationIndex card found cols) e).
Proof.
  induction cols as [|col cols IH]; intros e f Hf Hl; [by left|].
  cbn [foundationToTableauLoop].
  apply run_gets_defined; [by left|]. intros [|] Hcan; [|by eapply IH].
  destruct (canMoveToTableau_true_dest _ _ _ Hcan) as (_ & _ & dest & _ & Hd).
  destruct (foundationToTableau_step foundationIndex col card found f dest e Hf Hd)
    as (e' & He' & Hobs).
  unfold run. rewrite He'. right. eexists. split; [|left; exact Hobs].
  by eapply move_foundationToTableau.
Qed.

Lemma tryMoveFoundationToTableau_calm foundationIndex found (e : Engine) :
  Calm e (run (tryMoveFoundationToTableau foundationIndex found) e).
Proof.
  unfold tryMoveFoundationToTableau.
  apply run_gets_defined; [by left|]. intros f Hf.
  destruct (last f) as [card|] eqn:Hl; [|by left].
  by eapply foundationToTableauLoop_calm.
Qed.

Lemma wasteToTableauLoop_calm topCard found (cols : list nat) :
  ∀ e, topCard ∈ waste (gameState e) →
       Calm e (run (wasteToTableauLoop topCard found cols) e).
Proof.
  induction cols as [|col cols IH]; intros e Hsrc; [by left|].
  cbn [wasteToTableauLoop].
  apply run_gets_defined; [by left|]. intros [|] Hcan; [|by apply IH].
  apply Calm_bind_move.
  - apply moveCardsToTableau_result. by apply run_from_waste.
  - intros e1. apply obs_after_animation'.
  - by left.
Qed.

Lemma handleWasteClick_calm found (e : Engine) :
  Calm e (run (handleWasteClick found) e).
Proof.
  unfold handleWasteClick. apply run_gets.
  destruct (last (waste (gameState e))) as [card|] eqn:Hl; [|by left].
  destruct (canMoveToFoundation (gameState e) card) as [v|] eqn:Hv; [|by left].
  cbn [defined]. change (mret v ≫= ?k) with (k v). cbn beta.
  destruct (v =? -1)%Z eqn:Hm; cbn [negb].
  - apply wasteToTableauLoop_calm. by apply last_elem_of.
  - apply Calm_bind_move.
    + apply moveCardToFoundation_result.
      * apply card_from_waste. by apply last_elem_of.
      * by eapply canMoveToFoundation_nonneg.
    + intros e1. apply obs_after_animation'.
    + by left.
Qed.

Lemma stackMoveLoop_calm colIndex stack found (cols : list nat) :
  ∀ e, RunFrom (gameState e) (LTableau colIndex) stack →
       Calm e (run (stackMoveLoop colIndex stack found cols) e).
Proof.
  induction cols as [|targetCol cols IH]; intros e Hsrc; [by left|].
  cbn [stackMoveLoop]. destruct (targetCol =? colIndex); [by apply IH|].
  apply run_gets_defined; [by left|]. intros [|] Hcan; [|by apply IH].
  apply Calm_bind_move.
  - by apply moveCardsToTableau_result.
  - intros e1. apply obs_after_animation'.
  - by left.
Qed.

Lemma obs_registered_congr (g1 : GameState) (a b : Engine) :
  obs a = obs b → obs (registered g1 a) = obs (registered g1 b).
Proof.
  intros H. apply obs_eq in H as (Hg & H1 & H2 & H3 & H4).
  unfold registered. apply obs_moveRegistered_congr.
  destruct a, b. simpl in *. subst.
  unfold sameRest, snapshotTaken. simpl.
  by match goal with |- context [match ?u with _ => _ end] => destruct u end.
Qed.

Lemma Calm_from_obs (e e1 e' : Engine) :
  obs e1 = obs e → Calm e1 e' → Calm e e'.
Proof.
  intros He [H|(g1 & Hm & Ho)]; [left; congruence|right].
  assert (Hg : gameState e1 = gameState e) by (by apply obs_eq in He as [? _]).
  exists g1. rewrite <- Hg. split; [done|].
  pose proof (obs_registered_congr g1 _ _ He) as Hr.
  destruct Ho as [Ho|Ho]; [left; congruence|right].
  rewrite Ho. by apply obs_winChecked_congr.
Qed.

Lemma rendered_foundation_top (g : GameState) (el : CardElement) (i : nat) :
  el ∈ renderedCards g → elLocation el = LFoundation i →
  ∃ f top, foundations g !! i = Some f ∧ last f = Some top ∧
           elCardId el = id top.
Proof.
  unfold renderedCards. intros Hel Hloc.
  apply elem_of_app in Hel as [Hel | Hel].
  { apply list_elem_of_fmap in Hel as (c & -> & _). discriminate. }
  apply elem_of_app in Hel as [Hel | Hel].
  - apply elem_of_concat in Hel as (l & Hl & Hel).
    apply elem_of_lookup_imap in Hl as (k & f & -> & Hk).
    destruct (last f) as [top|] eqn:Et; [|by apply elem_of_nil in Hel].
    apply list_elem_of_singleton in Hel as ->.
    simpl in Hloc. injection Hloc as ->. eauto.
  - apply elem_of_concat in Hel as (l & Hl & Hel).
    apply elem_of_lookup_imap in Hl as (k & col & -> & Hk).
    apply list_elem_of_fmap in Hel as (c & -> & _). discriminate.
Qed.

Lemma findCardById_waste (g : GameState) (cardId : string) (top c : Card) :
  top ∈ waste g → id top = cardId → findCardById g cardId = Some c →
  c ∈ waste g.
Proof.
  intros Ht Hid. unfold findCardById.
  destruct (findById cardId (waste g)) as [wc|] eqn:Ew.
  - intros [= <-]. by apply findById_Some in Ew as [? _].
  - by destruct (findById_None _ _ _ Ew Ht).
Qed.

Lemma findIndexById_Some (cardId : string) (l : list Card) (idx : nat) :
  findIndexById cardId l = Some idx → idx < length l.
Proof.
  unfold findIndexById. intros H.
  apply fmap_Some in H as ([i x] & Hf & ->).
  apply list_find_Some in Hf as (Hi & _). simpl. by eapply lookup_lt_Some.
Qed.

Lemma suffix_RunFrom (g : GameState) (i idx : nat) (column : list Card) :
  tableau g !! i = Some column → idx < length column →
  forallb faceUp (slice idx column) = true →
  RunFrom g (LTableau i) (slice idx column) ∧
  ∃ c cs, slice idx column = c :: cs ∧ CardFrom g (LTableau i) c.
Proof.
  intros Hcol Hidx Hall. unfold slice in *.
  assert (Hup : Forall isUp (drop idx column)) by (by apply forallb_isUp).
  destruct (drop idx column) as [|c cs] eqn:Hd.
  { apply (f_equal length) in Hd. rewrite length_drop in Hd. simpl in Hd. lia. }
  split.
  - apply (run_from_tableau g i (take idx column)); [|done|done].
    by rewrite <- Hd, take_drop.
  - exists c, cs. split; [done|].
    apply (card_from_tableau g i column); [done| |by inversion Hup].
    rewrite <- (take_drop idx column), Hd. apply elem_of_app. right. by left.
Qed.

Lemma handleDragStart_source (e : Engine) (el : CardElement) :
  el ∈ renderedCards (gameState e) →
  isCardDraggable (gameState e) el = Some true →
  ∃ cards,
    dragData (run (handleDragStart el) e)
    = Some (mkDrag (elCardId el) (elLocation el) (Some cards)) ∧
    Picked (gameState e) (elLocation el) cards.
Proof.
  intros Hel Hdrag. unfold handleDragStart, run. msimpl.
  unfold isCardDraggable in Hdrag.
  destruct (elLocation el) as [|i|i|] eqn:Hloc; simpl.
  - eexists. split; [reflexivity|].
    destruct (last (waste (gameState e))) as [top|] eqn:Et; [|done].
    injection Hdrag as Hid. apply bool_decide_eq_true in Hid.
    destruct (findCardById _ _) as [c|] eqn:Ef; [|by left].
    assert (c ∈ waste (gameState e)).
    { eapply findCardById_waste; [by apply last_elem_of|exact Hid|exact Ef]. }
    right. split; [by apply run_from_waste|].
    exists c, []. split; [done|]. by apply card_from_waste.
  - eexists. split; [reflexivity|].
    destruct (rendered_foundation_top _ _ _ Hel Hloc) as (f & top & Hf & Ht & Hid).
    rewrite Hid.
    destruct (findCardById _ _) as [c|] eqn:Ef; [|by left].
    right. split; [by eapply run_from_foundation|].
    exists c, []. split; [done|]. by eapply card_from_foundation.
  - destruct (tableau (gameState e) !! i) as [column|] eqn:Hcol; [|done].
    simpl in *.
    destruct (findIndexById (elCardId el) column) as [idx|] eqn:Hidx; [|done].
    simpl. eexists. split; [reflexivity|].
    injection Hdrag as Hall. right.
    apply suffix_RunFrom; [done| |done]. by eapply findIndexById_Some.
  - discriminate.
Qed.

Lemma attemptMove_result (e : Engine) fromLocation toLocation cards :
  (∀ cs, cards = Some cs → Picked (gameState e) fromLocation cs) →
  MoveResult e (attemptMove fromLocation toLocation cards e).
Proof.
  intros Hc. unfold attemptMove.
  destruct cards as [[|card0 cs]|]; [by left| |by left].
  destruct (Hc _ eq_refl) as [?|[Hrun (c & cs' & [= <- <-] & Hcard)]]; [done|].
  destruct toLocation as [|i|i|]; [by left| | |by left].
  - apply moveCardToFoundation_result; [done|lia].
  - by apply moveCardsToTableau_result.
Qed.

Lemma handleDrop_calm dropZoneId (e : Engine) :
  (∀ d cs, dragData e = Some d → draggedCards d = Some cs →
           Picked (gameState e) (dragLocation d) cs) →
  Calm e (run (handleDrop dropZoneId) e).
Proof.
  intros Hd. unfold handleDrop. apply run_gets.
  destruct (dragData e) as [d|] eqn:Hdd; [|by left].
  apply Calm_bind_move.
  - apply attemptMove_result. intros cs Hcs. by eapply Hd.
  - by intros e1.
  - by left.
Qed.

Lemma isAnimating_handleDragStart (el : CardElement) (e : Engine) :
  isAnimating (run (handleDragStart el) e) = isAnimating e.
Proof.
  assert (H : pres (λ x, isAnimating x = isAnimating e) (handleDragStart el)).
  { unfold handleDragStart. pres_go ltac:(intros; simpl; assumption). }
  by apply H.
Qed.

Lemma dragGesture_calm el dropZone (e : Engine) :
  el ∈ renderedCards (gameState e) →
  isCardDraggable (gameState e) el = Some true →
  Calm e (dragGesture el dropZone e).
Proof.
  intros Hel Hdrag. unfold dragGesture.
  destruct (isAnimating e) eqn:Ha; [by left|].
  destruct (handleDragStart_source e el Hel Hdrag) as (cards & Hdd & Hp).
  pose proof (obsIs_handleDragStart e el e eq_refl) as Ho. unfold obsIs in Ho.
  pose proof (isAnimating_handleDragStart el e) as Ha'. rewrite Ha in Ha'.
  set (e1 := run (handleDragStart el) e) in *.
  assert (Hg : gameState e1 = gameState e) by (by apply obs_eq in Ho as [? _]).
  match goal with |- Calm e (run dragEndHandler ?x) =>
    apply (Calm_obs e x); [|reflexivity] end.
  destruct dropZone as [z|]; [|by left].
  apply (Calm_from_obs e e1); [done|].
  unfold dropHandler. apply run_gets. rewrite Ha'.
  apply handleDrop_calm. intros d cs Hd Hcs.
  rewrite Hdd in Hd. injection Hd as <-. simpl in *. injection Hcs as <-.
  by rewrite Hg.
Qed.

Lemma stockClickHandler_calm (e : Engine) : Calm e (run stockClickHandler e).
Proof.
  unfold stockClickHandler. apply run_gets.
  destruct (isAnimating e); [by left|].
  eapply Calm_obs; [apply (handleStockClick_calm e)|].
  unfold run, mbind, M_bind. by destruct (handleStockClick e) as [[?|] ?].
Qed.

Lemma Calm_then_ret {A} (m : M A) (e : Engine) :
  Calm e (run m e) → Calm e (run (m;; mret tt) e).
Proof.
  intros H. eapply Calm_obs; [exact H|].
  unfold run, mbind, M_bind. by destruct (m e) as [[?|] ?].
Qed.

Lemma clickHandler_calm el found (e : Engine) :
  Calm e (run (clickHandler el found) e).
Proof.
  unfold clickHandler. apply run_gets.
  destruct (isAnimating e); [by left|].
  destruct (elLocation el) as [|i|i|] eqn:Hloc; [|by left| |by left].
  { apply handleWasteClick_calm. }
  destruct (negb _); [by left|]. apply run_gets.
  destruct (tableau (gameState e) !! i) as [column|] eqn:Hcol; [|by left].
  destruct (length column =? 0); [by left|].
  destruct (findIndexById _ _) as [idx|] eqn:Hidx.
  - destruct (idx =? _).
    + apply Calm_then_ret, tryMoveTableauToFoundation_calm.
    + unfold isCardDraggable. rewrite Hloc, Hcol. simpl. rewrite Hidx.
      cbn [defined]. change (mret ?v ≫= ?k) with (k v). cbn beta.
      destruct (forallb faceUp (slice idx column)) eqn:Hall; [|by left].
      apply stackMoveLoop_calm.
      apply suffix_RunFrom; [done| |done]. by eapply findIndexById_Some.
  - apply Calm_then_ret, tryMoveTableauToFoundation_calm.
Qed.

Lemma undoLastMove_kind (e : Engine) : StepKind e (run undoLastMove e).
Proof.
  unfold undoLastMove. apply run_gets.
  destruct (undoManager e) as [u|] eqn:Hu; [|by apply kind_quiet].
  destruct (negb (UndoManager.canUndo u)) eqn:Hcan; [by apply kind_quiet|].
  destruct (length_pos_snoc (UndoManager.history u)) as (h & s & Hh).
  { unfold UndoManager.canUndo in Hcan. apply negb_false_iff in Hcan.
    by apply Nat.ltb_lt. }
  assert (Hundo : UndoManager.undo u
                  = (Some s, UndoManager.mk h (UndoManager.maxHistory u))).
  { rewrite <- undo_snoc, <- Hh. by destruct u. }
  rewrite Hundo. unfold run. msimpl. simpl.
  by eapply kind_undone.
Qed.

Lemma requestHint_kind (e : Engine) : StepKind e (run requestHint e).
Proof.
  apply kind_hint. unfold requestHint, run. msimpl. simpl.
  destruct (computeHintMove (gameState e)) as [[m|]|]; reflexivity.
Qed.

Lemma startNewDeal_obs (rand : nat → nat) (e : Engine) :
  obs (run (startNewDeal rand) e)
  = (dealt (shuffleDeck rand createDeck), UndoManager.reset <$> undoManager e,
     notifications e ++ [OnReset], false, None).
Proof.
  unfold startNewDeal, run.
  pose proof (dealTableau_eq _ (shuffled_length rand)) as Hd.
  revert Hd. generalize (shuffleDeck rand createDeck). intros deck Hd.
  msimpl. simpl in *. rewrite Hd. simpl. unfold obs. simpl.
  destruct (undoManager e) eqn:E; simpl; rewrite ?E; reflexivity.
Qed.

(** Every event of the page is of one of five kinds. *)
Lemma step_kind (e e' : Engine) : step e e' → StepKind e e'.
Proof.
  assert (HC : ∀ x, Calm e x → StepKind e x).
  { intros x [H|H]; [by apply kind_quiet|by apply kind_moved]. }
  intros Hstep. destruct Hstep.
  - apply HC, stockClickHandler_calm.
  - apply HC, clickHandler_calm.
  - by apply HC, dragGesture_calm.
  - apply undoLastMove_kind.
  - apply requestHint_kind.
  - eapply kind_dealt; [done|apply startNewDeal_obs].
  - apply kind_quiet. by apply obsIs_updateOptions.
  - apply HC, tryMoveWasteToFoundation_calm.
  - apply HC, tryMoveTableauToFoundation_calm.
  - apply HC, tryMoveFoundationToTableau_calm.
  - apply kind_quiet. by apply obsIs_animationFrame.
  - by apply kind_quiet.
  - by apply kind_quiet.
Qed.

(** ** A proof rule for invariants of the game *)

Lemma gameState_registered (g1 : GameState) (e : Engine) :
  gameState (registered g1 e) = counted g1.
Proof. unfold registered. by rewrite gameState_moveRegistered. Qed.

Lemma undoManager_registered (g1 : GameState) (e : Engine) :
  undoManager (registered g1 e) = undoManager (snapshotTaken e).
Proof. unfold registered. by rewrite undoManager_moveRegistered. Qed.

Lemma gameState_winChecked (e : Engine) : gameState (winChecked e) = gameState e.
Proof. unfold winChecked. by destruct (_ =? _). Qed.

Lemma undoManager_winChecked (e : Engine) :
  undoManager (winChecked e) = undoManager e.
Proof. unfold winChecked. by destruct (_ =? _). Qed.

Lemma Moved_gameState (e e' : Engine) :
  Moved e e' →
  GameMove (gameState e) (gameState e') ∧
  undoManager e' = undoManager (snapshotTaken e).
Proof.
  intros (g1 & Hm & Ho).
  assert (gameState e' = counted g1 ∧
          undoManager e' = undoManager (snapshotTaken e)) as [-> ->]; [|done].
  destruct Ho as [Ho|Ho]; apply obs_eq in Ho as (Hg & Hu & _);
    rewrite Hg, Hu, ?gameState_winChecked, ?undoManager_winChecked,
      gameState_registered, undoManager_registered; done.
Qed.

Lemma holdsEverywhere_snapshotTaken (P : GameState → Prop) (e : Engine) :
  holdsEverywhere P e →
  ∀ u, undoManager (snapshotTaken e) = Some u → Forall P (UndoManager.history u).
Proof.
  intros [Hp Hh] u'. unfold snapshotTaken.
  destruct (undoManager e) as [u|] eqn:Hu; [|by rewrite Hu].
  simpl. intros [= <-]. specialize (Hh u eq_refl).
  unfold UndoManager.pushSnapshot, UndoManager.cloneState.
  assert (Forall P (UndoManager.history u ++ [gameState e]))
    by (apply Forall_app; split; [done|by constructor]).
  destruct (_ <? _); simpl; [by apply Forall_drop|done].
Qed.

Lemma step_holdsEverywhere (P : GameState → Prop) (e e' : Engine) :
  (∀ rand, validRand rand → P (dealt (shuffleDeck rand createDeck))) →
  (∀ g', GameMove (gameState e) g' → P g') →
  holdsEverywhere P e → step e e' → holdsEverywhere P e'.
Proof.
  intros Hdeal Hmove He Hstep. pose proof He as [Hp Hh].
  destruct (step_kind e e' Hstep) as [Ho|Ho|Hm|u h s Hu Hs Ho|rand Hr Ho].
  - apply obs_eq in Ho as (Hg & Hu & _). split; [by rewrite Hg|by rewrite Hu].
  - injection Ho as Hg Hu _ _ _. split; [by rewrite Hg|by rewrite Hu].
  - apply Moved_gameState in Hm as [Hm Hu]. split; [by apply Hmove|].
    rewrite Hu. by apply holdsEverywhere_snapshotTaken.
  - injection Ho as Hg Hu' _ _ _. specialize (Hh u Hu). rewrite Hs in Hh.
    apply Forall_app in Hh as [Hh Hs']. split.
    + rewrite Hg. by inversion Hs'.
    + rewrite Hu'. by intros u' [= <-].
  - injection Ho as Hg Hu _ _ _. split; [rewrite Hg; by apply Hdeal|].
    rewrite Hu. intros u'. destruct (undoManager e); [|done].
    simpl. intros [= <-]. constructor.
Qed.

(** A property of game states that holds right after every deal and is
    kept by every move of the game, made from a state with well-turned
    piles, holds in every reachable engine, of the current state and of
    each undo snapshot. *)
Lemma reachable_induction (P : GameState → Prop) :
  (∀ rand, validRand rand → P (dealt (shuffleDeck rand createDeck))) →
  (∀ g g', pilesOk g → P g → GameMove g g' → P g') →
  ∀ e, Reachable e → holdsEverywhere P e.
Proof.
  intros Hdeal Hmove e Hr. induction Hr as [um rand Hv | e e' Hr IH Hstep].
  - pose proof (startNewDeal_obs rand (newEngine um)) as Ho.
    revert Ho. generalize (run (startNewDeal rand) (newEngine um)).
    intros e Ho. injection Ho as Hg Hu _ _ _.
    split; [rewrite Hg; by apply Hdeal|].
    rewrite Hu. intros u'. destruct um; [|done].
    simpl. intros [= <-]. constructor.
  - eapply step_holdsEverywhere; [exact Hdeal| |exact IH|exact Hstep].
    intros g' Hg'. eapply Hmove; [|apply IH|exact Hg'].
    by apply Reachable_engineOk.
Qed.

(** ** Cards of the deck, runs and foundation piles *)

Lemma deckCard_setFaceUp (b : bool) (c : Card) :
  deckCard (setFaceUp b c) ↔ deckCard c.
Proof. done. Qed.

Lemma deckCard_createDeck (c : Card) : c ∈ createDeck → deckCard c.
Proof.
  intros H. unfold deckCard.
  pose proof createDeck_faceDown as Hd. rewrite Forall_forall in Hd.
  specialize (Hd c H). destruct c as [s r f i]. unfold faceDown in Hd.
  simpl in Hd. by subst f.
Qed.



(** Two cards of the deck with the same id have the same suit and rank. *)
Lemma deckCard_id (a b : Card) :
  deckCard a → deckCard b → id a = id b → suit a = suit b ∧ rank a = rank b.
Proof.
  unfold deckCard. intros Ha Hb Hid.
  apply list_elem_of_lookup_1 in Ha as [i Hi].
  apply list_elem_of_lookup_1 in Hb as [j Hj].
  assert (i = j) as ->.
  { eapply (NoDup_lookup _ i j (id a) createDeck_ids_NoDup).
    - by rewrite list_lookup_fmap, Hi.
    - rewrite list_lookup_fmap, Hj. simpl. by rewrite Hid. }
  rewrite Hi in Hj. by injection Hj.
Qed.

Lemma runOk_nil : runOk [].
Proof. intros j a b H. by rewrite lookup_nil in H. Qed.

Lemma runOk_prefix (below cards : list Card) :
  runOk (below ++ cards) → runOk below.
Proof.
  intros H j a b Ha Hb. apply (H j a b).
  - by apply lookup_app_l_Some.
  - by apply lookup_app_l_Some.
Qed.

Lemma runOk_suffix (below cards : list Card) :
  runOk (below ++ cards) → runOk cards.
Proof.
  intros H j a b Ha Hb. apply (H (length below + j) a b).
  - by rewrite lookup_app_r, Nat.add_comm, Nat.add_sub by lia.
  - rewrite lookup_app_r by lia.
    by replace (S (length below + j) - length below) with (S j) by lia.
Qed.

Lemma runOk_take (n : nat) (column : list Card) :
  runOk column → runOk (take n column).
Proof.
  intros H. rewrite <- (take_drop n column) in H. by eapply runOk_prefix.
Qed.

Lemma runOk_app (dest cards : list Card) :
  runOk dest → runOk cards →
  (∀ t c, last dest = Some t → head cards = Some c → faceUp t = true →
          isRed t ≠ isRed c ∧ rank c = (rank t - 1)%Z) →
  runOk (dest ++ cards).
Proof.
  intros Hd Hc Hj j a b Ha Hb Hup.
  destruct (Nat.lt_ge_cases (S j) (length dest)) as [H|H].
  - rewrite lookup_app_l in Ha, Hb by lia. by eapply Hd.
  - destruct (Nat.lt_ge_cases j (length dest)) as [H'|H'].
    + rewrite lookup_app_l in Ha by lia. rewrite lookup_app_r in Hb by lia.
      assert (j = pred (length dest)) as -> by lia.
      replace (S (pred (length dest)) - length dest) with 0 in Hb by lia.
      apply (Hj a b); [by rewrite last_lookup|by rewrite head_lookup|done].
    + rewrite lookup_app_r in Ha, Hb by lia.
      replace (S j - length dest) with (S (j - length dest)) in Hb by lia.
      by eapply Hc.
Qed.

Lemma runOk_singleton (c : Card) : runOk [c].
Proof. intros j a b _ Hb. by destruct j. Qed.

(** Turning the top card does not change what lies on what. *)
Lemma runOk_withTopRevealed (below : list Card) :
  runOk below → runOk (withTopRevealed below).
Proof.
  intros H. unfold withTopRevealed.
  destruct (last below) as [c|] eqn:E; [|done].
  destruct (faceUp c); [done|].
  apply last_split in E. rewrite E in H.
  apply runOk_app; [by eapply runOk_prefix|apply runOk_singleton|].
  intros t x Ht [= <-] Hup.
  destruct (removelast below) as [|y l] eqn:El using rev_ind; [done|].
  clear IHl. rewrite last_snoc in Ht. injection Ht as ->.
  apply (H (length l) t c); [| |done].
  - rewrite <- app_assoc. by rewrite lookup_app_r, Nat.sub_diag by lia.
  - rewrite lookup_app_r by (rewrite length_app; simpl; lia).
    rewrite length_app. simpl.
    by replace (S (length l) - (length l + 1)) with 0 by lia.
Qed.

(** Along a face-up run the ranks go down one by one. *)
Lemma runOk_ranks (cards : list Card) :
  runOk cards → Forall isUp cards →
  ∀ k c x, cards !! 0 = Some c → cards !! k = Some x →
           rank x = (rank c - Z.of_nat k)%Z.
Proof.
  intros Hr Hu k. induction k as [|k IH]; intros c x Hc Hx.
  - rewrite Hc in Hx. injection Hx as ->. lia.
  - destruct (lookup_lt_is_Some_2 cards k) as [y Hy].
    { apply lookup_lt_Some in Hx. lia. }
    rewrite Forall_lookup in Hu.
    destruct (Hr k y x Hy Hx (Hu _ _ Hy)) as [_ ->].
    rewrite (IH c y Hc Hy). lia.
Qed.

(** A face-up run never fits on its own column. *)
Lemma run_not_on_itself (g : GameState) (i : nat) (below cards : list Card) :
  tableau g !! i = Some (below ++ cards) → cards ≠ [] → Forall isUp cards →
  runOk cards → canMoveToTableau g cards i ≠ Some true.
Proof.
  intros Hcol Hne Hup Hr. unfold canMoveToTableau.
  destruct cards as [|c cs] eqn:Ec; [done|]. rewrite <- Ec in *.
  rewrite Hcol. simpl.
  destruct (last cards) as [t|] eqn:Et.
  2:{ apply last_None in Et. congruence. }
  rewrite last_app, Et.
  destruct (faceUp t); simpl; [|done].
  rewrite last_lookup in Et.
  assert (cards !! 0 = Some c) as H0 by by rewrite Ec.
  pose proof (runOk_ranks cards Hr Hup _ c t H0 Et) as Ht.
  destruct (Z.eqb_spec (rank c) (rank t - 1)) as [Heq|]; [|by rewrite andb_false_r].
  lia.
Qed.

Lemma builtUp_nil (i : nat) : builtUp i [].
Proof. intros j c H. by rewrite lookup_nil in H. Qed.

Lemma builtUp_removelast (i : nat) (f : list Card) :
  builtUp i f → builtUp i (removelast f).
Proof.
  intros H j c Hj. rewrite removelast_take in Hj.
  apply lookup_take_Some in Hj as [Hj _]. by apply H.
Qed.

Lemma builtUp_last (i : nat) (f : list Card) (top : Card) :
  builtUp i f → last f = Some top →
  suit top = i ∧ rank top = Z.of_nat (length f).
Proof.
  intros H Ht. rewrite last_lookup in Ht.
  destruct f as [|x f]; [done|]. simpl in Ht.
  destruct (H _ _ Ht) as [-> ->]. done.
Qed.

Lemma builtUp_snoc (i : nat) (f : list Card) (c : Card) :
  builtUp i f → suit c = i → rank c = Z.of_nat (S (length f)) →
  builtUp i (f ++ [c]).
Proof.
  intros H Hs Hr j x Hj.
  destruct (Nat.lt_ge_cases j (length f)) as [Hl|Hl].
  - rewrite lookup_app_l in Hj by done. by apply H.
  - rewrite lookup_app_r in Hj by done.
    destruct (j - length f) as [|k] eqn:E; [|by destruct k].
    injection Hj as <-. split; [done|]. rewrite Hr. f_equal. lia.
Qed.

(** ** Taking cards off the table and putting them back *)

Lemma length_concat_insert {A} (L : list (list A)) (i : nat) (old x : list A) :
  L !! i = Some old →
  length (concat (<[i := x]> L)) + length old = length (concat L) + length x.
Proof.
  revert i. induction L as [|y L IH]; intros i H; [done|].
  destruct i as [|i]; simpl in *.
  - injection H as ->. rewrite !length_app. lia.
  - rewrite !length_app. specialize (IH i H). lia.
Qed.

Lemma length_removelast {A} (l : list A) :
  0 < length l → S (length (removelast l)) = length l.
Proof. intros H. rewrite removelast_take, length_take. lia. Qed.

Lemma Forall_removelast {A} (P : A → Prop) (l : list A) :
  Forall P l → Forall P (removelast l).
Proof. intros H. rewrite removelast_take. by apply Forall_take. Qed.

Lemma length_withTopRevealed (below : list Card) :
  length (withTopRevealed below) = length below.
Proof.
  unfold withTopRevealed. destruct (last below) as [c|] eqn:E; [|done].
  destruct (faceUp c); [done|].
  rewrite (last_split _ _ E) at 2. by rewrite !length_app.
Qed.

Lemma deckCard_withTopRevealed (below : list Card) :
  Forall deckCard below → Forall deckCard (withTopRevealed below).
Proof.
  intros H. unfold withTopRevealed. destruct (last below) as [c|] eqn:E; [|done].
  destruct (faceUp c); [done|].
  apply Forall_app. split; [by apply Forall_removelast|].
  constructor; [|done]. apply deckCard_setFaceUp.
  rewrite Forall_forall in H. by apply H, last_elem_of.
Qed.

(** The conditions of [tableOkBut], pile by pile. *)
Lemma tableOkBut_piles (n : nat) (g : GameState) :
  tableOkBut n g ↔
  length (foundations g) = 4 ∧ length (tableau g) = 7 ∧
  Forall faceDown (stock g) ∧
  (Forall deckCard (stock g) ∧ Forall deckCard (waste g) ∧
   Forall (Forall deckCard) (foundations g) ∧
   Forall (Forall deckCard) (tableau g)) ∧
  (∀ i pile, foundations g !! i = Some pile → builtUp i pile) ∧
  Forall runOk (tableau g) ∧
  length (stock g) + length (waste g) + length (concat (foundations g))
    + length (concat (tableau g)) + n = 52.
Proof.
  split.
  - intros [H1 H2 H3 H4 H5 H6 H7]. unfold allCards in *.
    rewrite !Forall_app, !Forall_concat in H4. rewrite !length_app in H7.
    split_and!; try tauto. lia.
  - intros (H1 & H2 & H3 & H4 & H5 & H6 & H7).
    constructor; try done; unfold allCards.
    + rewrite !Forall_app, !Forall_concat. tauto.
    + rewrite !length_app. lia.
Qed.

Lemma tableOkBut_set_score (n : nat) (s : Z) (g : GameState) :
  tableOkBut n g → tableOkBut n (set_score s g).
Proof. intros []. by constructor. Qed.

Lemma tableOkBut_counted (n : nat) (g : GameState) :
  tableOkBut n g → tableOkBut n (counted g).
Proof. intros []. by constructor. Qed.

Lemma tableOkBut_pop_waste (n : nat) (g : GameState) :
  0 < length (waste g) → tableOkBut n g →
  tableOkBut (S n) (set_waste (removelast (waste g)) g).
Proof.
  intros Hw. rewrite !tableOkBut_piles. simpl.
  intros (H1 & H2 & H3 & (D1 & D2 & D3 & D4) & H5 & H6 & H7).
  pose proof (length_removelast _ Hw).
  split_and!; try done; [by apply Forall_removelast|lia].
Qed.

Lemma tableOkBut_pop_foundation (n i : nat) (f : list Card) (g : GameState) :
  foundations g !! i = Some f → 0 < length f → tableOkBut n g →
  tableOkBut (S n)
    (set_foundations (<[i := removelast f]> (foundations g)) g).
Proof.
  intros Hf Hl. rewrite !tableOkBut_piles. simpl.
  intros (H1 & H2 & H3 & (D1 & D2 & Hd & D4) & H5 & H6 & H7).
  pose proof (length_removelast _ Hl).
  pose proof (length_concat_insert _ _ _ (removelast f) Hf).
  split_and!; try done.
  - by rewrite length_insert.
  - apply Forall_insert; [done|]. apply Forall_removelast.
    rewrite Forall_lookup in Hd. by eapply Hd.
  - intros j pile Hj. destruct (decide (i = j)) as [<-|Hne].
    + rewrite list_lookup_insert_eq in Hj by (by eapply lookup_lt_Some).
      injection Hj as <-. by apply builtUp_removelast, H5.
    + rewrite list_lookup_insert_ne in Hj by done. by apply H5.
  - lia.
Qed.

Lemma tableOkBut_cut_column (n i : nat) (below cards : list Card)
    (g : GameState) :
  tableau g !! i = Some (below ++ cards) → tableOkBut n g →
  tableOkBut (n + length cards)
    (set_tableau (<[i := withTopRevealed below]> (tableau g)) g).
Proof.
  intros Hc. rewrite !tableOkBut_piles. simpl.
  intros (H1 & H2 & H3 & (D1 & D2 & D3 & Hd) & H5 & H6 & H7).
  pose proof (length_concat_insert _ _ _ (withTopRevealed below) Hc) as Hl.
  rewrite length_withTopRevealed, length_app in Hl.
  pose proof (Forall_lookup_1 _ _ _ _ Hd Hc) as Hd'.
  pose proof (Forall_lookup_1 _ _ _ _ H6 Hc) as H6'.
  apply Forall_app in Hd' as [Hd' _].
  split_and!; try done.
  - by rewrite length_insert.
  - apply Forall_insert; [done|]. by apply deckCard_withTopRevealed.
  - apply Forall_insert; [done|].
    by eapply runOk_withTopRevealed, runOk_prefix.
  - lia.
Qed.

Lemma tableOkBut_put_tableau (n to : nat) (dest cards : list Card)
    (g : GameState) :
  tableau g !! to = Some dest → Forall deckCard cards →
  runOk (dest ++ cards) → tableOkBut (n + length cards) g →
  tableOkBut n (set_tableau (<[to := dest ++ cards]> (tableau g)) g).
Proof.
  intros Hc Hcards Hr. rewrite !tableOkBut_piles. simpl.
  intros (H1 & H2 & H3 & (D1 & D2 & D3 & Hd) & H5 & H6 & H7).
  pose proof (length_concat_insert _ _ _ (dest ++ cards) Hc) as Hl.
  rewrite length_app in Hl.
  split_and!; try done.
  - by rewrite length_insert.
  - apply Forall_insert; [done|]. apply Forall_app. split; [|done].
    rewrite Forall_lookup in Hd. by eapply Hd.
  - by apply Forall_insert.
  - lia.
Qed.

Lemma tableOkBut_put_foundation (n i : nat) (f : list Card) (c : Card)
    (g : GameState) :
  foundations g !! i = Some f → deckCard c → builtUp i (f ++ [c]) →
  tableOkBut (S n) g →
  tableOkBut n (set_foundations (<[i := f ++ [c]]> (foundations g)) g).
Proof.
  intros Hf Hc Hb. rewrite !tableOkBut_piles. simpl.
  intros (H1 & H2 & H3 & (D1 & D2 & Hd & D4) & H5 & H6 & H7).
  pose proof (length_concat_insert _ _ _ (f ++ [c]) Hf) as Hl.
  rewrite length_app in Hl. simpl in Hl.
  split_and!; try done.
  - by rewrite length_insert.
  - apply Forall_insert; [done|]. apply Forall_app. split.
    + rewrite Forall_lookup in Hd. by eapply Hd.
    + by constructor.
  - intros j pile Hj. destruct (decide (i = j)) as [<-|Hne].
    + rewrite list_lookup_insert_eq in Hj by (by eapply lookup_lt_Some).
      by injection Hj as <-.
    + rewrite list_lookup_insert_ne in Hj by done. by apply H5.
  - lia.
Qed.

Lemma tableOk_drawn (g : GameState) : tableOk g → tableOk (drawn g).
Proof.
  unfold tableOk. rewrite !tableOkBut_piles. unfold drawn. simpl.
  intros (H1 & H2 & H3 & (Hs & Hw & D3 & D4) & H5 & H6 & H7).
  split_and!; try done.
  - by apply Forall_take.
  - by apply Forall_take.
  - apply Forall_app. split; [done|]. apply Forall_fmap.
    apply Forall_reverse, Forall_drop.
    eapply Forall_impl; [exact Hs|]. intros c Hc. by apply deckCard_setFaceUp.
  - rewrite length_take, length_app, length_fmap, length_reverse, length_drop.
    lia.
Qed.

Lemma tableOk_recycled (g : GameState) :
  stock g = [] → tableOk g → tableOk (recycled g).
Proof.
  intros Hs. unfold tableOk. rewrite !tableOkBut_piles. unfold recycled.
  simpl. rewrite Hs. simpl.
  intros (H1 & H2 & H3 & (_ & Hw & D3 & D4) & H5 & H6 & H7).
  split_and!; try done.
  - apply Forall_fmap, Forall_reverse, Forall_true. done.
  - apply Forall_fmap, Forall_reverse.
    eapply Forall_impl; [exact Hw|]. intros c Hc. by apply deckCard_setFaceUp.
  - rewrite length_fmap, length_reverse. lia.
Qed.

(** ** The pile scan, the legality checks and the deal *)

Lemma findCardById_elem (g : GameState) (cardId : string) (c : Card) :
  findCardById g cardId = Some c → c ∈ tableCards g ∧ id c = cardId.
Proof.
  unfold findCardById, tableCards.
  destruct (findById cardId (waste g)) as [wc|] eqn:Ew.
  { intros [= <-]. apply findById_Some in Ew as [Hin Hid].
    split; [|done]. apply elem_of_app. by left. }
  destruct (list_find is_Some (findById cardId <$> foundations g))
    as [[i [fc|]]|] eqn:Ef.
  - intros [= <-]. apply list_find_Some in Ef as (Hi & _ & _).
    apply list_lookup_fmap_Some in Hi as (f' & Hfc & Hf').
    symmetry in Hfc. apply findById_Some in Hfc as [Hin Hid].
    split; [|done]. apply elem_of_app. right. apply elem_of_app. left.
    apply elem_of_concat. exists f'. split; [|done].
    by eapply list_elem_of_lookup_2.
  - apply list_find_Some in Ef as (_ & Hs & _). by destruct Hs.
  - destruct (list_find is_Some (findById cardId <$> tableau g))
      as [[i [fc|]]|] eqn:Et; [|done|done].
    intros [= <-]. apply list_find_Some in Et as (Hi & _ & _).
    apply list_lookup_fmap_Some in Hi as (f' & Hfc & Hf').
    symmetry in Hfc. apply findById_Some in Hfc as [Hin Hid].
    split; [|done]. apply elem_of_app. right. apply elem_of_app. right.
    apply elem_of_concat. exists f'. split; [|done].
    by eapply list_elem_of_lookup_2.
Qed.

Lemma tableCards_allCards (g : GameState) (c : Card) :
  c ∈ tableCards g → c ∈ allCards g.
Proof. intros H. apply elem_of_app. by right. Qed.

Lemma canMoveToTableau_fits (g : GameState) (cards dest : list Card)
    (to : nat) :
  canMoveToTableau g cards to = Some true → tableau g !! to = Some dest →
  ∀ t c, last dest = Some t → head cards = Some c → faceUp t = true →
         isRed t ≠ isRed c ∧ rank c = (rank t - 1)%Z.
Proof.
  unfold canMoveToTableau. intros H Hd t c Ht Hc Hup.
  destruct cards as [|x cs]; [done|]. injection Hc as ->.
  rewrite Hd in H. simpl in H. rewrite Ht, Hup in H. simpl in H.
  injection H as H. apply andb_true_iff in H as [Hcol Hr].
  split; [|by apply Z.eqb_eq].
  intros E. rewrite E in Hcol. by destruct (isRed c).
Qed.

Lemma canMoveToFoundation_builds (g : GameState) (card : Card)
    (f : list Card) :
  (∀ i pile, foundations g !! i = Some pile → builtUp i pile) →
  canMoveToFoundation g card = Some (Z.of_nat (suit card)) →
  foundations g !! suit card = Some f →
  builtUp (suit card) (f ++ [card]).
Proof.
  intros Hb H Hf. unfold canMoveToFoundation in H. rewrite Hf in H.
  simpl in H. specialize (Hb _ _ Hf).
  apply builtUp_snoc; [done|done|].
  destruct (last f) as [top|] eqn:E.
  - destruct (builtUp_last _ _ _ Hb E) as [_ Hr].
    destruct (Z.eqb_spec (rank card) (rank top + 1)); [lia|].
    injection H as H. lia.
  - apply last_None in E as ->.
    destruct (Z.eqb_spec (rank card) 1); [done|].
    injection H as H. lia.
Qed.

(** The card under the id of a foundation's top card never fits on a
    foundation. *)
Lemma foundation_card_stays (g : GameState) (i : nat) (f : list Card)
    (top c : Card) :
  tableOk g → foundations g !! i = Some f → last f = Some top →
  findCardById g (id top) = Some c →
  canMoveToFoundation g c ≠ Some (Z.of_nat (suit c)).
Proof.
  intros Hok Hf Ht Hc.
  apply findCardById_elem in Hc as [Hin Hid].
  pose proof (tok_deck _ _ Hok) as Hd. rewrite Forall_forall in Hd.
  assert (deckCard top) as Htop.
  { apply Hd. unfold allCards. rewrite !elem_of_app. right. right. left.
    apply elem_of_concat. exists f.
    split; [by eapply list_elem_of_lookup_2|by apply last_elem_of]. }
  destruct (deckCard_id c top (Hd _ (tableCards_allCards _ _ Hin)) Htop Hid)
    as [Hs Hr].
  destruct (builtUp_last _ _ _ (tok_built _ _ Hok _ _ Hf) Ht) as [Hs' Hr'].
  unfold canMoveToFoundation. rewrite Hs, Hs', Hf. simpl. rewrite Ht.
  destruct (Z.eqb_spec (rank c) (rank top + 1)); [lia|].
  intros [= H]. lia.
Qed.

Lemma deckCard_Permutation (l : list Card) :
  l ≡ₚ createDeck → Forall deckCard l.
Proof.
  intros H. apply Forall_forall. intros c Hc. apply deckCard_createDeck.
  by rewrite <- H.
Qed.

Lemma deckCard_dealtColumn (deck : list Card) (i : nat) :
  Forall deckCard deck → Forall deckCard (dealtColumn deck i).
Proof.
  intros H. unfold dealtColumn. apply Forall_reverse.
  assert (Forall deckCard (dealSegment deck i)) as Hs
    by (unfold dealSegment; by apply Forall_take, Forall_drop).
  destruct (dealSegment deck i) as [|x r]; [done|]. simpl.
  inversion Hs; subst. constructor; [|done]. by apply deckCard_setFaceUp.
Qed.

Lemma tableOk_dealt (rand : nat → nat) :
  tableOk (dealt (shuffleDeck rand createDeck)).
Proof.
  pose proof (shuffled_length rand) as Hlen.
  pose proof (shuffled_faceDown rand) as Hfd.
  pose proof (deckCard_Permutation _ (shuffleDeck_Permutation rand createDeck))
    as Hdk.
  revert Hlen Hfd Hdk. generalize (shuffleDeck rand createDeck).
  intros deck Hlen Hfd Hdk.
  apply tableOkBut_piles. unfold dealt. cbn [foundations tableau stock waste].
  split_and!.
  - done.
  - by rewrite length_fmap, length_seq.
  - by apply Forall_take.
  - by apply Forall_take.
  - done.
  - by repeat constructor.
  - apply Forall_fmap, Forall_forall. intros i _.
    by apply deckCard_dealtColumn.
  - intros i pile Hi. do 4 (destruct i as [|i]; [injection Hi as <-; apply builtUp_nil|]).
    done.
  - apply Forall_fmap, Forall_forall. intros i Hi.
    apply elem_of_seq in Hi. unfold compose.
    destruct (dealtColumn_shape deck i Hlen ltac:(lia) Hfd)
      as (_ & below & top & -> & _ & Hb).
    intros j a b Ha Hb' Hup.
    assert (j < length below) as Hj.
    { apply lookup_lt_Some in Hb'. rewrite length_app in Hb'. simpl in Hb'. lia. }
    rewrite lookup_app_l in Ha by done.
    rewrite Forall_lookup in Hb. specialize (Hb _ _ Ha).
    unfold faceDown in Hb. congruence.
  - pose proof (dealt_ids deck Hlen) as Hp.
    apply Permutation_length in Hp. rewrite !length_fmap, length_app in Hp.
    change (length (concat [[]; []; []; []])) with (@length Card []).
    change (@length Card []) with 0. lia.
Qed.

(** ** Every move keeps the table in order *)

Lemma tableOk_elem (g : GameState) (c : Card) :
  tableOk g → c ∈ allCards g → deckCard c.
Proof.
  intros Hok. pose proof (tok_deck _ _ Hok) as Hd.
  rewrite Forall_forall in Hd. apply Hd.
Qed.

Lemma column_allCards (g : GameState) (i : nat) (column : list Card) (c : Card) :
  tableau g !! i = Some column → c ∈ column → c ∈ allCards g.
Proof.
  intros Hc Hin. unfold allCards. rewrite !elem_of_app. right. right. right.
  apply elem_of_concat. exists column.
  split; [by eapply list_elem_of_lookup_2|done].
Qed.

Lemma column_deckCards (g : GameState) (i : nat) (column : list Card) :
  tableOk g → tableau g !! i = Some column → Forall deckCard column.
Proof.
  intros Hok Hc. apply Forall_forall. intros c Hin.
  by eapply tableOk_elem, column_allCards.
Qed.

Lemma waste_allCards (g : GameState) (c : Card) :
  c ∈ waste g → c ∈ allCards g.
Proof. intros H. unfold allCards. rewrite !elem_of_app. auto. Qed.

Lemma elem_of_pos_length {A} (x : A) (l : list A) : x ∈ l → 0 < length l.
Proof. destruct l; [by intros ?%elem_of_nil|simpl; lia]. Qed.

Lemma toTableau_tableOk (g g1 : GameState) fromLocation toColIndex
    (cards dest : list Card) :
  tableOk g →
  RunFrom g fromLocation cards →
  canMoveToTableau g cards toColIndex = Some true →
  withoutRun g fromLocation cards = Some g1 →
  tableau g1 !! toColIndex = Some dest →
  tableOk (set_tableau (<[toColIndex := dest ++ cards]> (tableau g1)) g1).
Proof.
  intros Hok Hrun Hcan Hg1 Hdest.
  destruct Hrun as [c Hc | i f top c Hf Ht Hc | i below cards Hcol Hne Hup].
  - pose proof (elem_of_pos_length _ _ Hc) as Hw.
    simpl in Hg1. replace (0 <? length (waste g)) with true in Hg1
      by (symmetry; by apply Nat.ltb_lt).
    simpl in Hg1. injection Hg1 as <-. simpl in Hdest.
    apply (tableOkBut_put_tableau 0); simpl; [done| | |].
    + constructor; [|done]. by eapply tableOk_elem, waste_allCards.
    + apply runOk_app; [|apply runOk_singleton|].
      * by eapply Forall_lookup_1; [apply (tok_runs _ _ Hok)|].
      * by eapply canMoveToTableau_fits.
    + by apply tableOkBut_set_score, tableOkBut_pop_waste.
  - pose proof (elem_of_pos_length _ _ (last_elem_of _ _ Ht)) as Hl.
    simpl in Hg1. rewrite Hf in Hg1. simpl in Hg1.
    replace (0 <? length f) with true in Hg1
      by (symmetry; by apply Nat.ltb_lt).
    injection Hg1 as <-. simpl in Hdest.
    apply (tableOkBut_put_tableau 0); simpl; [done| | |].
    + constructor; [|done].
      apply findCardById_elem in Hc as [Hc _].
      by eapply tableOk_elem, tableCards_allCards.
    + apply runOk_app; [|apply runOk_singleton|].
      * by eapply Forall_lookup_1; [apply (tok_runs _ _ Hok)|].
      * by eapply canMoveToTableau_fits.
    + by apply tableOkBut_set_score, tableOkBut_pop_foundation.
  - pose proof (Forall_lookup_1 _ _ _ _ (tok_runs _ _ Hok) Hcol) as Hr.
    destruct (decide (i = toColIndex)) as [->|Hne'].
    { destruct (run_not_on_itself g toColIndex below cards Hcol Hne Hup);
        [by eapply runOk_suffix|done]. }
    simpl in Hg1. rewrite Hcol in Hg1. simpl in Hg1. rewrite take_run in Hg1.
    injection Hg1 as <-. simpl in Hdest.
    rewrite list_lookup_insert_ne in Hdest by done.
    apply (tableOkBut_put_tableau 0); simpl.
    + by rewrite list_lookup_insert_ne.
    + pose proof (column_deckCards _ _ _ Hok Hcol) as Hd.
      by apply Forall_app in Hd as [_ Hd].
    + apply runOk_app; [|by eapply runOk_suffix|].
      * by eapply Forall_lookup_1; [apply (tok_runs _ _ Hok)|].
      * by eapply canMoveToTableau_fits.
    + apply tableOkBut_set_score.
      by apply (tableOkBut_cut_column 0 i below cards).
Qed.

Lemma toFoundation_tableOk (g g1 : GameState) fromLocation (card : Card)
    (f : list Card) :
  tableOk g →
  CardFrom g fromLocation card →
  canMoveToFoundation g card = Some (Z.of_nat (suit card)) →
  withoutCard g fromLocation = Some g1 →
  foundations g1 !! suit card = Some f →
  tableOk (set_foundations (<[suit card := f ++ [card]]> (foundations g1)) g1).
Proof.
  intros Hok Hfrom Hcan Hg1 Hf.
  destruct Hfrom as [c Hc | i f0 top c Hf0 Ht Hc | i column c Hcol Hc Hup].
  - pose proof (elem_of_pos_length _ _ Hc) as Hw.
    simpl in Hg1. replace (0 <? length (waste g)) with true in Hg1
      by (symmetry; by apply Nat.ltb_lt).
    injection Hg1 as <-. simpl in Hf.
    apply (tableOkBut_put_foundation 0); simpl; [done| | |].
    + by eapply tableOk_elem, waste_allCards.
    + eapply canMoveToFoundation_builds; [apply (tok_built _ _ Hok)|done|done].
    + by apply tableOkBut_pop_waste.
  - by destruct (foundation_card_stays g i f0 top c Hok Hf0 Ht Hc).
  - pose proof (elem_of_pos_length _ _ Hc) as Hl.
    simpl in Hg1. rewrite Hcol in Hg1. simpl in Hg1.
    replace (0 <? length column) with true in Hg1
      by (symmetry; by apply Nat.ltb_lt).
    injection Hg1 as <-. simpl in Hf.
    apply (tableOkBut_put_foundation 0); simpl; [done| | |].
    + by eapply tableOk_elem, column_allCards.
    + eapply canMoveToFoundation_builds; [apply (tok_built _ _ Hok)|done|done].
    + apply tableOkBut_set_score.
      destruct (length_pos_snoc column Hl) as (below & x & ->).
      rewrite removelast_last.
      by apply (tableOkBut_cut_column 0 i below [x]).
Qed.

Lemma foundationToTableau_tableOk (g : GameState) (i col : nat)
    (f dest : list Card) (card : Card) :
  tableOk g →
  foundations g !! i = Some f → last f = Some card →
  canMoveToTableau g [card] col = Some true →
  tableau g !! col = Some dest →
  tableOk (set_tableau (<[col := dest ++ [card]]> (tableau g))
             (set_foundations (<[i := removelast f]> (foundations g)) g)).
Proof.
  intros Hok Hf Ht Hcan Hdest.
  pose proof (elem_of_pos_length _ _ (last_elem_of _ _ Ht)) as Hl.
  apply (tableOkBut_put_tableau 0 col dest [card]
           (set_foundations (<[i := removelast f]> (foundations g)) g));
    simpl; [done| | |].
  - constructor; [|done]. eapply tableOk_elem; [done|].
    unfold allCards. rewrite !elem_of_app. right. right. left.
    apply elem_of_concat. exists f.
    split; [by eapply list_elem_of_lookup_2|by apply last_elem_of].
  - apply runOk_app; [|apply runOk_singleton|].
    + by eapply Forall_lookup_1; [apply (tok_runs _ _ Hok)|].
    + by eapply canMoveToTableau_fits.
  - by apply tableOkBut_pop_foundation.
Qed.

Lemma GameMove_tableOk (g g' : GameState) :
  tableOk g → GameMove g g' → tableOk g'.
Proof.
  intros Hok Hm.
  destruct Hm as [Hs | Hs Hw | fromLocation to cards g1 dest Hrun Hcan Hg1 Hdest
                 | fromLocation card g1 f Hfrom Hcan Hg1 Hf
                 | i f card col dest Hf Ht Hcan Hdest];
    apply tableOkBut_counted.
  - by apply tableOk_drawn.
  - by apply tableOk_recycled.
  - by eapply toTableau_tableOk.
  - apply tableOkBut_set_score. by eapply toFoundation_tableOk.
  - apply tableOkBut_set_score. by eapply foundationToTableau_tableOk.
Qed.

Lemma Reachable_tableOk (e : Engine) :
  Reachable e → holdsEverywhere tableOk e.
Proof.
  apply reachable_induction.
  - intros rand _. apply tableOk_dealt.
  - intros g g' _. apply GameMove_tableOk.
Qed.

(** ** What every reachable table looks like *)

Lemma winRand_valid : validRand winRand.
Proof.
  intros i. unfold winRand.
  do 52 (destruct i as [|i]; [simpl; lia|]). simpl. lia.
Qed.

Lemma play_reachable (l : list Play) :
  ∀ e, Reachable e → Reachable (foldl play e l).
Proof.
  induction l as [|p l IH]; intros e He; [done|].
  simpl. apply IH. eapply reach_step; [exact He|].
  destruct p; simpl; constructor.
Qed.

Lemma wonGame_reachable : Reachable wonGame.
Proof.
  unfold wonGame, wonDeal. apply play_reachable, reach_mount, winRand_valid.
Qed.

Lemma wonGame_foundations :
  totalInFoundations (gameState wonGame) = 52.
Proof. vm_compute. reflexivity. Qed.



(** X6.  At every moment of play foundation [i] holds cards of suit [i]
    only, the ace at the bottom and each next card one rank higher. *)
Theorem foundations_are_built_up_by_suit (e : Engine) (i : nat)
    (pile : list Card) :
  Reachable e → foundations (gameState e) !! i = Some pile →
  builtUp i pile.
Proof.
  intros Hr. destruct (Reachable_tableOk e Hr) as [Hok _].
  apply (tok_built _ _ Hok).
Qed.

Lemma foundations_are_built_up_by_suit_witness :
  builtUp 0 [mkCard 0 1 true "card-0-1"; mkCard 0 2 true "card-0-2"].
Proof.
  apply (foundations_are_built_up_by_suit afterStackDrop 0 _
           afterStackDrop_reachable).
  vm_compute. reflexivity.
Defined.

(** X7.  At every moment of play, in every column, a card that lies on
    a face-up card is of the other colour and exactly one rank lower. *)
Theorem tableau_runs_alternate_and_descend (e : Engine) :
  Reachable e → Forall runOk (tableau (gameState e)).
Proof.
  intros Hr. destruct (Reachable_tableOk e Hr) as [Hok _].
  apply (tok_runs _ _ Hok).
Qed.

Lemma tableau_runs_alternate_and_descend_witness :
  Forall runOk (tableau (gameState afterSpadeDrag)).
Proof.
  exact (tableau_runs_alternate_and_descend afterSpadeDrag
           afterSpadeDrag_reachable).
Defined.






(** ** Drops that the engine turns down *)

(** X9.  At every moment of play, a face-up run dropped back on the
    column it was dragged from is turned down: [moveCardsToTableau]
    returns [false] and the engine is unchanged. *)
Theorem run_dropped_on_its_own_column_is_rejected
    (e : Engine) (i : nat) (below cards : list Card) :
  Reachable e →
  tableau (gameState e) !! i = Some (below ++ cards) →
  cards ≠ [] → Forall isUp cards →
  moveCardsToTableau (LTableau i) i cards e = (Some false, e).
Proof.
  intros Hr Hcol Hne Hup.
  destruct (Reachable_tableOk e Hr) as [Hok _].
  pose proof (Forall_lookup_1 _ _ _ _ (tok_runs _ _ Hok) Hcol) as Hrun.
  pose proof (run_not_on_itself _ i below cards Hcol Hne Hup
                (runOk_suffix _ _ Hrun)) as Hno.
  pose proof (moveCardsToTableau_cases (LTableau i) i cards e) as Hc.
  destruct (canMoveToTableau (gameState e) cards i) as [[|]|] eqn:E;
    [done|done|].
  unfold canMoveToTableau in E. destruct cards; [done|].
  rewrite Hcol in E. simpl in E. by destruct (last _) as [t|]; [destruct (faceUp t)|].
Qed.

Lemma run_dropped_on_its_own_column_is_rejected_witness :
  moveCardsToTableau (LTableau 1) 1
    [mkCard 0 2 true "card-0-2"; mkCard 3 1 true "card-3-1"] afterSpadeDrag
  = (Some false, afterSpadeDrag).
Proof.
  apply (run_dropped_on_its_own_column_is_rejected afterSpadeDrag 1
           [mkCard 3 12 false "card-3-12"]).
  - exact afterSpadeDrag_reachable.
  - vm_compute. reflexivity.
  - discriminate.
  - repeat constructor.
Defined.

(** X10.  At every moment of play, the card found under the id of a
    foundation's top card is turned down by every foundation, whatever
    source is named: [moveCardToFoundation] returns [false] and the
    engine is unchanged. *)
Theorem foundation_top_is_rejected_by_foundations
    (e : Engine) (i : nat) (f : list Card) (top c : Card)
    (fromLocation : Location) (foundationIndex : nat) :
  Reachable e →
  foundations (gameState e) !! i = Some f → last f = Some top →
  findCardById (gameState e) (id top) = Some c →
  moveCardToFoundation fromLocation (Z.of_nat foundationIndex) c e
  = (Some false, e).
Proof.
  intros Hr Hf Ht Hc.
  destruct (Reachable_tableOk e Hr) as [Hok _].
  pose proof (foundation_card_stays _ i f top c Hok Hf Ht Hc) as Hno.
  pose proof (moveCardToFoundation_cases fromLocation
                (Z.of_nat foundationIndex) c e) as Hcases.
  destruct (canMoveToFoundation (gameState e) c) as [v|] eqn:E.
  - destruct (canMoveToFoundation_value _ _ _ E) as [_ [->| ->]]; [done|].
    by replace (negb (-1 =? Z.of_nat foundationIndex)%Z) with true in Hcases
      by (symmetry; apply negb_true_iff, Z.eqb_neq; lia).
  - exfalso. apply findCardById_elem in Hc as [Hin Hid].
    assert (deckCard top) as Htop.
    { eapply tableOk_elem; [done|]. unfold allCards. rewrite !elem_of_app.
      right. right. left. apply elem_of_concat. exists f.
      split; [by eapply list_elem_of_lookup_2|by apply last_elem_of]. }
    destruct (deckCard_id c top
                (tableOk_elem _ _ Hok (tableCards_allCards _ _ Hin)) Htop Hid)
      as [Hs _].
    destruct (builtUp_last _ _ _ (tok_built _ _ Hok _ _ Hf) Ht) as [Hs' _].
    unfold canMoveToFoundation in E. rewrite Hs, Hs', Hf in E. simpl in E.
    by destruct (last f).
Qed.

Lemma foundation_top_is_rejected_by_foundations_witness :
  moveCardToFoundation (LFoundation 0) 1 (mkCard 0 2 true "card-0-2")
    afterStackDrop
  = (Some false, afterStackDrop).
Proof.
  apply (foundation_top_is_rejected_by_foundations afterStackDrop 0
           [mkCard 0 1 true "card-0-1"; mkCard 0 2 true "card-0-2"]
           (mkCard 0 2 true "card-0-2") _ (LFoundation 0) 1).
  - exact afterStackDrop_reachable.
  - vm_compute. reflexivity.
  - reflexivity.
  - vm_compute. reflexivity.
Defined.

(** ** The move methods are all or nothing *)

Lemma snapshotTaken_rest (e : Engine) :
  notifications (snapshotTaken e) = notifications e ∧
  firstMoveDone (snapshotTaken e) = firstMoveDone e.
Proof. unfold snapshotTaken. by destruct (undoManager e). Qed.

Lemma registered_fields (g1 : GameState) (e : Engine) :
  gameState (registered g1 e) = counted g1 ∧
  undoManager (registered g1 e) = undoManager (snapshotTaken e) ∧
  notifications (registered g1 e) = notifications e ++ moveReport e g1 ∧
  firstMoveDone (registered g1 e) = true ∧
  currentHint (registered g1 e) = None.
Proof.
  destruct (snapshotTaken_rest e) as [Hn Hf].
  unfold registered, moveRegistered, moveReport. simpl. rewrite Hf.
  destruct (firstMoveDone e); simpl; rewrite Hn, <- ?app_assoc; done.
Qed.

Lemma winChecked_fields (e : Engine) :
  gameState (winChecked e) = gameState e ∧
  undoManager (winChecked e) = undoManager e ∧
  notifications (winChecked e) = notifications e ++ winReport (gameState e) ∧
  firstMoveDone (winChecked e) = firstMoveDone e ∧
  currentHint (winChecked e) = currentHint e.
Proof.
  unfold winChecked, winReport. destruct (_ =? _); simpl; [done|].
  by rewrite app_nil_r.
Qed.

(** X11.  [moveCardsToTableau] either carries out the whole move and
    returns [true] (one snapshot pushed, one move counted), or, whether
    it returns [false] or throws, leaves piles, score, move count and
    the shell untouched. *)
Theorem moveCardsToTableau_all_or_nothing
    (e : Engine) (fromLocation : Location) (toColIndex : nat)
    (cards : list Card) :
  let r := moveCardsToTableau fromLocation toColIndex cards e in
  (fst r = Some true ∧
   canMoveToTableau (gameState e) cards toColIndex = Some true ∧
   moveCount (gameState (snd r)) = S (moveCount (gameState e)) ∧
   undoManager (snd r) = undoManager (snapshotTaken e))
  ∨
  (fst r ≠ Some true ∧
   gameState (snd r) = gameState e ∧
   notifications (snd r) = notifications e ∧
   firstMoveDone (snd r) = firstMoveDone e).
Proof.
  intros r. subst r.
  pose proof (moveCardsToTableau_cases fromLocation toColIndex cards e) as Hc.
  destruct (canMoveToTableau (gameState e) cards toColIndex) as [[|]|];
    [|right; by rewrite Hc|right; by rewrite Hc].
  destruct (withoutRun (gameState e) fromLocation cards) as [g1|] eqn:Hg1.
  - destruct Hc as (e' & dest & -> & Hdest & Hobs). left. simpl.
    apply obs_eq in Hobs as (Hg & Hu & _).
    destruct (registered_fields
                (set_tableau (<[toColIndex := dest ++ cards]> (tableau g1)) g1) e)
      as (Hg' & Hu' & _).
    rewrite Hg, Hu, Hg', Hu'. split_and!; try done. simpl. f_equal.
    revert Hg1. unfold withoutRun.
    destruct fromLocation as [|i|i|].
    + intros [= <-]. by destruct (_ && _).
    + destruct (_ =? _); [|by intros [= <-]].
      destruct (foundations _ !! i); simpl; [|done].
      intros [= <-]. by destruct (0 <? _).
    + destruct (tableau _ !! i); simpl; [|done]. by intros [= <-].
    + by intros [= <-].
  - right. rewrite Hc. simpl. rewrite gameState_snapshotTaken.
    by destruct (snapshotTaken_rest e).
Qed.

(** X12.  Asked for a foundation index that is not negative,
    [moveCardToFoundation] either carries out the whole move and returns
    [true] (one snapshot pushed, one move counted, ten points or fifteen
    added), or, whether it returns [false] or throws, leaves piles,
    score, move count and the shell untouched. *)
Theorem moveCardToFoundation_all_or_nothing
    (e : Engine) (fromLocation : Location) (foundationIndex : Z) (card : Card) :
  (0 ≤ foundationIndex)%Z →
  let r := moveCardToFoundation fromLocation foundationIndex card e in
  (fst r = Some true ∧
   canMoveToFoundation (gameState e) card = Some foundationIndex ∧
   moveCount (gameState (snd r)) = S (moveCount (gameState e)) ∧
   (score (gameState (snd r)) = score (gameState e) + 10 ∨
    score (gameState (snd r)) = score (gameState e) + 15)%Z ∧
   undoManager (snd r) = undoManager (snapshotTaken e))
  ∨
  (fst r ≠ Some true ∧
   gameState (snd r) = gameState e ∧
   notifications (snd r) = notifications e ∧
   firstMoveDone (snd r) = firstMoveDone e).
Proof.
  intros Hpos r. subst r.
  pose proof (moveCardToFoundation_cases fromLocation foundationIndex card e)
    as Hc.
  destruct (canMoveToFoundation (gameState e) card) as [v|] eqn:Hv;
    [|right; by rewrite Hc].
  destruct (Z.eqb_spec v foundationIndex) as [->|Hne]; simpl in Hc;
    [|right; by rewrite Hc].
  destruct (withoutCard (gameState e) fromLocation) as [g1|] eqn:Hg1.
  2:{ right. rewrite Hc. simpl. rewrite gameState_snapshotTaken.
      by destruct (snapshotTaken_rest e). }
  destruct (canMoveToFoundation_value _ _ _ Hv) as [[f Hf] [Hi|Hi]]; [|lia].
  subst foundationIndex.
  rewrite (withoutCard_foundations _ _ _ Hg1), lookupZ_of_nat, Hf in Hc.
  destruct Hc as (e' & -> & Hobs). left. simpl.
  apply obs_eq in Hobs as (Hg & Hu & _).
  destruct (winChecked_fields
              (registered
                 (set_score (score g1 + 10)
                    (set_foundations
                       (insertZ (Z.of_nat (suit card)) (f ++ [card])
                          (foundations (gameState e))) g1)) e))
    as (Hg' & Hu' & _).
  destruct (registered_fields
              (set_score (score g1 + 10)
                 (set_foundations
                    (insertZ (Z.of_nat (suit card)) (f ++ [card])
                       (foundations (gameState e))) g1)) e)
    as (Hg'' & Hu'' & _).
  rewrite Hg, Hu, Hg', Hu', Hg'', Hu''. split_and!; try done.
  - simpl. f_equal. revert Hg1. unfold withoutCard.
    destruct fromLocation as [|i|i|].
    + intros [= <-]. by destruct (0 <? _).
    + by intros [= <-].
    + destruct (tableau _ !! i); simpl; [|done].
      intros [= <-]. by destruct (0 <? _).
    + by intros [= <-].
  - simpl. revert Hg1. unfold withoutCard.
    destruct fromLocation as [|i|i|].
    + intros [= <-]. left. by destruct (0 <? _).
    + intros [= <-]. by left.
    + destruct (tableau _ !! i); simpl; [|done].
      intros [= <-]. destruct (0 <? _); [|by left]. simpl.
      destruct (exposesFaceDown _); [right|left]; lia.
    + intros [= <-]. by left.
Qed.

Lemma moveCardToFoundation_all_or_nothing_witness :
  let r := moveCardToFoundation (LTableau 0) 0 (mkCard 0 1 true "card-0-1")
             sampleDeal in
  (fst r = Some true ∧
   canMoveToFoundation (gameState sampleDeal) (mkCard 0 1 true "card-0-1")
   = Some 0%Z ∧
   moveCount (gameState (snd r)) = S (moveCount (gameState sampleDeal)) ∧
   (score (gameState (snd r)) = score (gameState sampleDeal) + 10 ∨
    score (gameState (snd r)) = score (gameState sampleDeal) + 15)%Z ∧
   undoManager (snd r) = undoManager (snapshotTaken sampleDeal))
  ∨
  (fst r ≠ Some true ∧
   gameState (snd r) = gameState sampleDeal ∧
   notifications (snd r) = notifications sampleDeal ∧
   firstMoveDone (snd r) = firstMoveDone sampleDeal).
Proof.
  exact (moveCardToFoundation_all_or_nothing sampleDeal (LTableau 0) 0
           (mkCard 0 1 true "card-0-1") (Z.le_refl 0)).
Defined.

(** X13.  The exception: asked for index [-1] with a card that fits on
    no foundation, [moveCardToFoundation] passes its own check, pushes
    the snapshot, takes the top card off the source and only then throws
    on the missing pile: a card is gone from the table although no move
    was counted or reported. *)
Theorem moveCardToFoundation_minus_one_loses_a_card
    (e : Engine) (fromLocation : Location) (card : Card) (g1 : GameState) :
  canMoveToFoundation (gameState e) card = Some (-1)%Z →
  withoutCard (gameState e) fromLocation = Some g1 →
  ∃ e',
    moveCardToFoundation fromLocation (-1) card e = (None, e') ∧
    gameState e' = g1 ∧
    undoManager e' = undoManager (snapshotTaken e) ∧
    notifications e' = notifications e.
Proof.
  intros Hv Hg1.
  pose proof (moveCardToFoundation_cases fromLocation (-1) card e) as Hc.
  rewrite Hv, Hg1 in Hc. simpl in Hc.
  destruct Hc as (e' & He' & Hg & Hu & Hn & _).
  exists e'. split_and!; try done.
  rewrite Hn. by destruct (snapshotTaken_rest e).
Qed.

Lemma afterDraw_top_fits_nowhere :
  canMoveToFoundation (gameState afterDraw) (mkCard 1 9 true "card-1-9")
  = Some (-1)%Z.
Proof. vm_compute. reflexivity. Qed.

Lemma afterDraw_withoutCard :
  withoutCard (gameState afterDraw) LWaste = Some afterDrawPopped.
Proof. vm_compute. reflexivity. Qed.

Lemma afterDrawPopped_count : length (allCards afterDrawPopped) = 51.
Proof. vm_compute. reflexivity. Qed.

Lemma moveCardToFoundation_minus_one_loses_a_card_witness :
  ∃ e',
    moveCardToFoundation LWaste (-1) (mkCard 1 9 true "card-1-9") afterDraw
    = (None, e') ∧
    length (allCards (gameState e')) = 51.
Proof.
  destruct (moveCardToFoundation_minus_one_loses_a_card afterDraw LWaste
              (mkCard 1 9 true "card-1-9") afterDrawPopped
              afterDraw_top_fits_nowhere afterDraw_withoutCard)
    as (e' & He' & Hg & _).
  exists e'. split; [exact He'|].
  exact (eq_trans (f_equal (λ g, length (allCards g)) Hg) afterDrawPopped_count).
Defined.

(** ** A legal move to a foundation; undo in the engine *)

(** X14.  When the foundation check returns the requested index and the
    source pile exists, [moveCardToFoundation] returns [true]: the top
    card of the source is taken off (with the reveal and its five points
    on a column), [card] is put on the foundation of its suit, ten
    points are added and the move is counted; the shell hears
    [onFirstMove] if this is the first move since the deal, then
    [onMove] with the new counters, then [onWin] exactly when the
    foundations now hold 52 cards; the stored hint is dropped. *)
Theorem moveCardToFoundation_legal_move
    (e : Engine) (fromLocation : Location) (card : Card) (g1 : GameState) :
  canMoveToFoundation (gameState e) card = Some (Z.of_nat (suit card)) →
  withoutCard (gameState e) fromLocation = Some g1 →
  ∃ e' f g2,
    moveCardToFoundation fromLocation (Z.of_nat (suit card)) card e
    = (Some true, e') ∧
    foundations (gameState e) !! suit card = Some f ∧
    g2 = set_score (score g1 + 10)%Z
           (set_foundations (<[suit card := f ++ [card]]> (foundations g1)) g1) ∧
    gameState e' = counted g2 ∧
    notifications e'
    = notifications e ++ moveReport e g2 ++ winReport (counted g2) ∧
    firstMoveDone e' = true ∧ currentHint e' = None ∧
    undoManager e' = undoManager (snapshotTaken e).
Proof.
  intros Hv Hg1.
  pose proof (moveCardToFoundation_cases fromLocation (Z.of_nat (suit card))
                card e) as Hc.
  rewrite Hv, Z.eqb_refl, Hg1 in Hc. simpl in Hc.
  destruct (canMoveToFoundation_value _ _ _ Hv) as [[f Hf] _].
  rewrite (withoutCard_foundations _ _ _ Hg1), lookupZ_of_nat, Hf,
    insertZ_of_nat in Hc.
  destruct Hc as (e' & -> & Hobs).
  apply obs_eq in Hobs as (Hg & Hu & Hn & Hd & Hh).
  eexists e', f, _. split; [done|]. split; [done|]. split.
  { by rewrite (withoutCard_foundations _ _ _ Hg1). }
  match goal with |- gameState e' = counted ?g ∧ _ =>
    destruct (registered_fields g e) as (R1 & R2 & R3 & R4 & R5);
    destruct (winChecked_fields (registered g e)) as (W1 & W2 & W3 & W4 & W5)
  end.
  rewrite Hg, Hu, Hn, Hd, Hh, W1, W2, W3, W4, W5, R1, R2, R3, R4, R5.
  by rewrite <- app_assoc.
Qed.

Lemma sampleDeal_ace_fits :
  canMoveToFoundation (gameState sampleDeal) (mkCard 0 1 true "card-0-1")
  = Some (Z.of_nat (suit (mkCard 0 1 true "card-0-1"))).
Proof. vm_compute. reflexivity. Qed.

Lemma sampleDeal_withoutCard :
  withoutCard (gameState sampleDeal) (LTableau 0) = Some sampleDealPopped.
Proof. vm_compute. reflexivity. Qed.

Lemma moveCardToFoundation_legal_move_witness :
  ∃ e',
    moveCardToFoundation (LTableau 0) 0 (mkCard 0 1 true "card-0-1") sampleDeal
    = (Some true, e') ∧
    firstMoveDone e' = true ∧ currentHint e' = None.
Proof.
  destruct (moveCardToFoundation_legal_move sampleDeal (LTableau 0)
              (mkCard 0 1 true "card-0-1") sampleDealPopped
              sampleDeal_ace_fits sampleDeal_withoutCard)
    as (e' & f & g2 & He' & _ & _ & _ & _ & Hd & Hh & _).
  exists e'. split; [exact He'|]. split; [exact Hd|exact Hh].
Defined.

(** X15.  [undoLastMove] returns [false] exactly when there is nothing
    to undo, that is, when no undo manager is installed or its history
    is empty, and then it changes nothing at all; otherwise it returns
    [true]. *)
Theorem undoLastMove_with_nothing_to_undo (e : Engine) :
  let nothing := match undoManager e with
                 | None => True
                 | Some u => UndoManager.history u = []
                 end in
  (nothing → undoLastMove e = (Some false, e)) ∧
  (¬ nothing → fst (undoLastMove e) = Some true).
Proof.
  unfold undoLastMove. msimpl.
  destruct (undoManager e) as [[h m]|] eqn:Hu; [|by split].
  cbn [UndoManager.history].
  destruct h as [|s h _] using rev_ind.
  - by split.
  - rewrite undo_snoc. unfold UndoManager.canUndo.
    cbn [UndoManager.history]. rewrite length_app. cbn [length].
    replace (0 <? length h + 1) with true by (symmetry; apply Nat.ltb_lt; lia).
    split; [|done]. intros Habs. by destruct h.
Qed.

(** X16.  A new deal empties the undo history: right after
    [startNewDeal], whatever was played before, [undoLastMove] returns
    [false] and leaves the fresh deal as it is. *)
Theorem nothing_to_undo_after_new_deal (e : Engine) (rand : nat → nat) :
  validRand rand →
  undoLastMove (run (startNewDeal rand) e)
  = (Some false, run (startNewDeal rand) e).
Proof.
  intros _.
  pose proof (startNewDeal_obs rand e) as Ho.
  revert Ho. generalize (run (startNewDeal rand) e). intros e1 Ho.
  assert (undoManager e1 = (UndoManager.reset <$> undoManager e)) as Hu.
  { unfold obs in Ho. congruence. }
  unfold undoLastMove. msimpl. rewrite Hu.
  by destruct (undoManager e).
Qed.

Lemma nothing_to_undo_after_new_deal_witness :
  undoLastMove (run (startNewDeal sampleRand) afterStackDrop)
  = (Some false, run (startNewDeal sampleRand) afterStackDrop).
Proof.
  exact (nothing_to_undo_after_new_deal afterStackDrop sampleRand
           sampleRand_valid).
Defined.

(** ** What the shell has been told *)

(** A proof rule for what the shell sees: game state, callback log,
    first-move flag and stored hint. *)
Lemma reachable_shell_induction
    (Q : GameState → list Notification → bool → option HintMove → Prop) :
  (∀ rand l, validRand rand →
     Q (dealt (shuffleDeck rand createDeck)) (l ++ [OnReset]) false None) →
  (∀ g l d h, Q g l d h → Q g l d (default None (computeHintMove g))) →
  (∀ g l d h g1 w, Q g l d h → GameMove g (counted g1) →
     w = [] ∨ w = [OnWin (S (moveCount g1)) (score g1)] →
     Q (counted g1)
       (l ++ ((if d then [] else [OnFirstMove])
              ++ [OnMove (S (moveCount g1)) (score g1) (length (stock g1))])
          ++ w)
       true None) →
  (∀ g l d h s, Q g l d h →
     Q s (l ++ [OnMove (moveCount s) (score s) (length (stock s))]) d None) →
  ∀ e, Reachable e →
       Q (gameState e) (notifications e) (firstMoveDone e) (currentHint e).
Proof.
  intros Hdeal Hhint Hmove Hundo e Hr.
  induction Hr as [um rand Hv | e e' Hr IH Hstep].
  - pose proof (startNewDeal_obs rand (newEngine um)) as Ho.
    revert Ho. generalize (run (startNewDeal rand) (newEngine um)).
    intros e Ho. injection Ho as -> _ -> -> ->. by apply (Hdeal rand []).
  - destruct (step_kind e e' Hstep) as [Ho|Ho|Hm|u h s Hu Hs Ho|rand Hv Ho].
    + apply obs_eq in Ho as (-> & _ & -> & -> & ->). done.
    + injection Ho as -> _ -> -> ->. by eapply Hhint.
    + destruct Hm as (g1 & Hm & Ho).
      destruct (registered_fields g1 e) as (R1 & _ & R3 & R4 & R5).
      destruct (winChecked_fields (registered g1 e)) as (W1 & _ & W3 & W4 & W5).
      destruct Ho as [Ho|Ho]; apply obs_eq in Ho as (-> & _ & -> & -> & ->).
      * rewrite R1, R3, R4, R5. unfold moveReport.
        rewrite <- (app_nil_r (_ ++ [OnMove _ _ _])).
        eapply Hmove; [exact IH|exact Hm|by left].
      * rewrite W1, W3, W4, W5, R1, R3, R4, R5. unfold moveReport.
        rewrite <- app_assoc.
        eapply Hmove; [exact IH|exact Hm|].
        unfold winReport. destruct (_ =? _); [by right|by left].
    + injection Ho as -> _ -> -> ->. by eapply Hundo.
    + injection Ho as -> _ -> -> ->. by apply Hdeal.
Qed.

Lemma lastReport_snoc_report (l : list Notification) (n : Notification) :
  isReport n = true → lastReport (l ++ [n]) = Some n.
Proof.
  intros H. unfold lastReport. rewrite List.filter_app. simpl. rewrite H.
  apply last_snoc.
Qed.

Lemma lastReport_snoc_other (l : list Notification) (n : Notification) :
  isReport n = false → lastReport (l ++ [n]) = lastReport l.
Proof.
  intros H. unfold lastReport. rewrite List.filter_app. simpl. rewrite H.
  by rewrite app_nil_r.
Qed.

(** X17.  At every moment of play the counters of the game are the ones
    last handed to the shell: the last [onMove] or [onReset] callback
    made so far is an [onMove] whose payload is the current move count,
    score and stock size, or an [onReset] with the game at zero moves,
    zero points and 24 cards in the stock. *)
Theorem shell_counters_are_up_to_date (e : Engine) :
  Reachable e →
  ∃ n, lastReport (notifications e) = Some n ∧ reportMatches n (gameState e).
Proof.
  apply (reachable_shell_induction
           (λ g l _ _, ∃ n, lastReport l = Some n ∧ reportMatches n g)).
  - intros rand l Hv. exists OnReset.
    split; [by apply lastReport_snoc_report|].
    unfold reportMatches. split_and!; [reflexivity|reflexivity|].
    change (length (take 24 (shuffleDeck rand createDeck)) = 24).
    by rewrite length_take, shuffled_length.
  - done.
  - intros g l d h g1 w _ _ Hw.
    exists (OnMove (S (moveCount g1)) (score g1) (length (stock g1))).
    split; [|done].
    assert (lastReport ((l ++ (if d then [] else [OnFirstMove]))
                        ++ [OnMove (S (moveCount g1)) (score g1)
                              (length (stock g1))]) = Some
              (OnMove (S (moveCount g1)) (score g1) (length (stock g1)))) as H
      by by apply lastReport_snoc_report.
    rewrite <- app_assoc in H.
    destruct Hw as [-> | ->]; [by rewrite app_nil_r|].
    rewrite app_assoc. by rewrite lastReport_snoc_other.
  - intros g l d h s _. eexists. split; [by apply lastReport_snoc_report|done].
Qed.

Lemma shell_counters_are_up_to_date_witness :
  ∃ n, lastReport (notifications wonGame) = Some n ∧
       reportMatches n (gameState wonGame).
Proof. exact (shell_counters_are_up_to_date wonGame wonGame_reachable). Defined.

Lemma firstMovesSinceDeal_snoc (l : list Notification) (n : Notification) :
  firstMovesSinceDeal (l ++ [n])
  = match n with
    | OnReset => 0
    | OnFirstMove => S (firstMovesSinceDeal l)
    | _ => firstMovesSinceDeal l
    end.
Proof. unfold firstMovesSinceDeal. by rewrite foldl_snoc. Qed.

(** X18.  [onFirstMove] is called once per deal, with the first counted
    move: at every moment of play the number of [onFirstMove] callbacks
    since the last [onReset] is 1 if the first-move flag is set and 0 if
    it is not. *)
Theorem onFirstMove_once_per_deal (e : Engine) :
  Reachable e →
  firstMovesSinceDeal (notifications e) = if firstMoveDone e then 1 else 0.
Proof.
  apply (reachable_shell_induction
           (λ _ l d _, firstMovesSinceDeal l = if d then 1 else 0)).
  - intros rand l _. by rewrite firstMovesSinceDeal_snoc.
  - done.
  - intros g l d h g1 w IH _ Hw.
    assert (firstMovesSinceDeal
              (l ++ (if d then [] else [OnFirstMove])
                 ++ [OnMove (S (moveCount g1)) (score g1) (length (stock g1))])
            = 1) as H.
    { rewrite app_assoc, firstMovesSinceDeal_snoc.
      destruct d; [by rewrite app_nil_r|].
      by rewrite firstMovesSinceDeal_snoc, IH. }
    destruct Hw as [-> | ->]; [by rewrite app_nil_r|].
    by rewrite app_assoc, firstMovesSinceDeal_snoc.
  - intros g l d h s IH. by rewrite firstMovesSinceDeal_snoc.
Qed.

Lemma onFirstMove_once_per_deal_witness :
  firstMovesSinceDeal (notifications wonGame)
  = if firstMoveDone wonGame then 1 else 0.
Proof. exact (onFirstMove_once_per_deal wonGame wonGame_reachable). Defined.

(** X19.  A stored hint is never stale: at every moment of play, if the
    engine holds a hint, it is the hint that [computeHintMove] gives for
    the current game state. *)
Theorem stored_hint_is_current (e : Engine) (h : HintMove) :
  Reachable e → currentHint e = Some h →
  computeHintMove (gameState e) = Some (Some h).
Proof.
  intros Hr. revert h.
  apply (reachable_shell_induction
           (λ g _ _ c, ∀ h, c = Some h → computeHintMove g = Some (Some h)));
    try done.
  intros g l d c _ h. by destruct (computeHintMove g) as [[?|]|]; intros [= ->].
Qed.

Lemma afterHint_reachable : Reachable afterHint.
Proof. eapply reach_step; [apply sampleDeal_reachable|apply step_hint]. Qed.

Lemma afterHint_hint :
  currentHint afterHint
  = Some (mkHint TableauToFoundation (FromTableau 2 "card-3-1")
            (ToFoundation 3) true).
Proof. vm_compute. reflexivity. Qed.

Lemma stored_hint_is_current_witness :
  computeHintMove (gameState afterHint)
  = Some (Some (mkHint TableauToFoundation (FromTableau 2 "card-3-1")
                  (ToFoundation 3) true)).
Proof.
  exact (stored_hint_is_current afterHint _ afterHint_reachable afterHint_hint).
Defined.

(** ** Automatic moves take the leftmost column *)










(** ** Undo, level after level *)

Lemma withoutRun_moveCount (g g1 : GameState) fromLocation cards :
  withoutRun g fromLocation cards = Some g1 → moveCount g1 = moveCount g.
Proof.
  unfold withoutRun. destruct fromLocation as [|i|i|].
  - intros [= <-]. by destruct (_ && _).
  - destruct (_ =? _); [|by intros [= <-]].
    destruct (foundations _ !! i); simpl; [|done].
    intros [= <-]. by destruct (0 <? _).
  - destruct (tableau _ !! i); simpl; [|done]. by intros [= <-].
  - by intros [= <-].
Qed.

Lemma withoutCard_moveCount (g g1 : GameState) fromLocation :
  withoutCard g fromLocation = Some g1 → moveCount g1 = moveCount g.
Proof.
  unfold withoutCard. destruct fromLocation as [|i|i|].
  - intros [= <-]. by destruct (0 <? _).
  - by intros [= <-].
  - destruct (tableau _ !! i); simpl; [|done].
    intros [= <-]. by destruct (0 <? _).
  - by intros [= <-].
Qed.

(** Every move of the game is counted once. *)
Lemma GameMove_moveCount (g g' : GameState) :
  GameMove g g' → moveCount g' = S (moveCount g).
Proof.
  intros [Hs | Hs Hw | fromLocation to cards g1 dest Hrun Hcan Hg1 Hdest
         | fromLocation card g1 f Hfrom Hcan Hg1 Hf
         | i f card col dest Hf Ht Hcan Hdest]; simpl; f_equal.
  - by eapply withoutRun_moveCount.
  - by eapply withoutCard_moveCount.
Qed.

(** What a call of the game does to the move count and to the undo
    history. *)
Lemma Calm_undo (e e' : Engine) (u : UndoManager.t) :
  Calm e e' → undoManager e = Some u →
  (gameState e' = gameState e ∧ undoManager e' = Some u)
  ∨ (moveCount (gameState e') = S (moveCount (gameState e)) ∧
     undoManager e' = Some (UndoManager.pushSnapshot (gameState e) u)).
Proof.
  intros [Ho|Hm] Hu.
  - left. apply obs_eq in Ho as (-> & -> & _). done.
  - right. apply Moved_gameState in Hm as [Hm ->]. split.
    + by apply GameMove_moveCount.
    + unfold snapshotTaken. by rewrite Hu.
Qed.

Lemma play_calm (e : Engine) (p : Play) : Calm e (play e p).
Proof.
  destruct p; simpl.
  - apply stockClickHandler_calm.
  - apply tryMoveWasteToFoundation_calm.
  - apply tryMoveTableauToFoundation_calm.
Qed.

Lemma play_moveCount (l : list Play) :
  ∀ e, moveCount (gameState e) ≤ moveCount (gameState (foldl play e l)).
Proof.
  induction l as [|p l IH]; intros e; [done|]. simpl.
  etransitivity; [|apply IH].
  destruct (play_calm e p) as [Ho|Hm].
  - apply obs_eq in Ho as (-> & _). done.
  - apply Moved_gameState in Hm as [Hm _].
    apply GameMove_moveCount in Hm. lia.
Qed.

Lemma undo_after_push (e : Engine) (g : GameState) (u : UndoManager.t) :
  undoManager e = Some (UndoManager.pushSnapshot g u) →
  length (UndoManager.history u) < UndoManager.maxHistory u →
  gameState (run undoLastMove e) = g ∧
  undoManager (run undoLastMove e) = Some u.
Proof.
  intros Hu Hl. unfold run, undoLastMove. msimpl. rewrite Hu.
  unfold UndoManager.pushSnapshot, UndoManager.cloneState.
  replace (UndoManager.maxHistory u <? length (UndoManager.history u ++ [g]))
    with false
    by (symmetry; apply Nat.ltb_ge; rewrite length_app; simpl; lia).
  rewrite undo_snoc. unfold UndoManager.canUndo.
  cbn [UndoManager.history]. rewrite length_app. cbn [length].
  replace (0 <? length (UndoManager.history u) + 1) with true
    by (symmetry; apply Nat.ltb_lt; lia).
  simpl. by destruct u.
Qed.

(** X22.  Undo goes back level by level: after any sequence of stock
    clicks and automatic moves to the foundations, as many calls of
    [undoLastMove] as moves were counted bring back the game state and
    the undo history from before the sequence, provided the history
    never had to evict a snapshot. *)
Theorem undo_walks_back_through_the_moves
    (l : list Play) (e : Engine) (u : UndoManager.t) :
  undoManager e = Some u →
  let e' := foldl play e l in
  let k := moveCount (gameState e') - moveCount (gameState e) in
  length (UndoManager.history u) + k ≤ UndoManager.maxHistory u →
  gameState (Nat.iter k (run undoLastMove) e') = gameState e ∧
  undoManager (Nat.iter k (run undoLastMove) e') = Some u.
Proof.
  revert e u. induction l as [|p l IH]; intros e u Hu e' k Hk; subst e' k.
  { simpl. by rewrite Nat.sub_diag. }
  cbn [foldl] in *.
  pose proof (play_moveCount l (play e p)) as Hmono.
  destruct (Calm_undo e (play e p) u (play_calm e p) Hu) as [[Hg Hu']|[Hc Hu']].
  - rewrite <- Hg in *. by apply IH.
  - replace (moveCount (gameState (foldl play (play e p) l))
             - moveCount (gameState e))
      with (S (moveCount (gameState (foldl play (play e p) l))
               - moveCount (gameState (play e p)))) in * by lia.
    destruct (IH (play e p) _ Hu') as [Hg Hum].
    { unfold UndoManager.pushSnapshot, UndoManager.cloneState.
      destruct (_ <? _) eqn:E; simpl.
      - apply Nat.ltb_lt in E. rewrite length_app in E. simpl in E. lia.
      - rewrite length_app. simpl. lia. }
    cbn [Nat.iter]. apply undo_after_push; [done|lia].
Qed.

Lemma wonDeal_manager : undoManager wonDeal = Some UndoManager.init.
Proof. vm_compute. reflexivity. Qed.

Lemma wonGame_moves :
  length (UndoManager.history UndoManager.init)
  + (moveCount (gameState (foldl play wonDeal winPlays))
     - moveCount (gameState wonDeal))
  ≤ UndoManager.maxHistory UndoManager.init.
Proof. apply (bool_decide_unpack _). vm_compute. exact I. Qed.

Lemma undo_walks_back_through_the_moves_witness :
  let e' := foldl play wonDeal winPlays in
  let k := moveCount (gameState e') - moveCount (gameState wonDeal) in
  gameState (Nat.iter k (run undoLastMove) e') = gameState wonDeal ∧
  undoManager (Nat.iter k (run undoLastMove) e') = Some UndoManager.init.
Proof.
  exact (undo_walks_back_through_the_moves winPlays wonDeal UndoManager.init
           wonDeal_manager wonGame_moves).
Defined.

(** ** First version, shuffle, card lookup and cancelled drags *)

Lemma legacyRegisterMove_fields (e : Engine) :
  ∃ e', legacyRegisterMove e = (Some tt, e') ∧
        gameState e' = counted (gameState e) ∧
        notifications e' = notifications e ++ moveReport e (gameState e) ∧
        firstMoveDone e' = true.
Proof.
  unfold legacyRegisterMove, moveReport. msimpl.
  destruct (firstMoveDone e) eqn:E; simpl; eexists; (split; [reflexivity|]);
    simpl; rewrite <- ?app_assoc; done.
Qed.

(** X23.  The first version of the engine (no undo) and the current one
    do the same on a click on the stock as long as there is a card to
    draw or to recycle: same piles, score and move count afterwards,
    same callbacks.  With stock and waste both empty the current engine
    does nothing, while the first version still counts and reports a
    move. *)
Theorem legacy_stock_click_differs_only_on_empty_piles (e : Engine) :
  let new := run handleStockClick e in
  let old := run legacyHandleStockClick e in
  if (0 <? length (stock (gameState e))) || (0 <? length (waste (gameState e)))
  then gameState old = gameState new ∧
       notifications old = notifications new ∧
       firstMoveDone old = firstMoveDone new
  else new = e ∧
       gameState old = counted (gameState e) ∧
       notifications old = notifications e ++ moveReport e (gameState e).
Proof.
  intros new old. subst new old. unfold run.
  rewrite handleStockClick_eq. unfold legacyHandleStockClick. msimpl.
  destruct (0 <? length (stock (gameState e))) eqn:Hs; cbn [orb].
  - erewrite drawLoop_eq with
      (s0 := take (length (stock (gameState e))
                   - Nat.min 3 (length (stock (gameState e))))
                  (stock (gameState e)))
      (r := drop (length (stock (gameState e))
                  - Nat.min 3 (length (stock (gameState e))))
                 (stock (gameState e)));
      [|by rewrite take_drop|rewrite length_drop; lia].
    cbn beta iota.
    match goal with |- context [legacyRegisterMove ?x] =>
      destruct (legacyRegisterMove_fields x) as (e' & -> & Hg & Hn & Hd) end.
    cbn [snd]. rewrite Hg, Hn, Hd.
    destruct (registered_fields (drawn (gameState e)) e)
      as (R1 & _ & R3 & R4 & _).
    unfold registered in R1, R3, R4. rewrite R1, R3, R4. done.
  - destruct (0 <? length (waste (gameState e))) eqn:Hw.
    + rewrite recycleLoop_eq by done. cbn beta iota.
      match goal with |- context [legacyRegisterMove ?x] =>
        destruct (legacyRegisterMove_fields x) as (e' & -> & Hg & Hn & Hd) end.
      cbn [snd]. rewrite Hg, Hn, Hd.
      destruct (registered_fields (recycled (gameState e)) e)
        as (R1 & _ & R3 & R4 & _).
      unfold registered in R1, R3, R4. rewrite R1, R3, R4.
      apply Nat.ltb_ge in Hs.
      assert (stock (gameState e) = []) as Hnil by (apply nil_length_inv; lia).
      unfold recycled. simpl. rewrite Hnil. done.
    + cbn beta iota.
      destruct (legacyRegisterMove_fields e) as (e' & -> & Hg & Hn & Hd).
      done.
Qed.

(** X24.  Whatever numbers the random source gives within the range of
    each draw, [shuffleDeck] returns the cards it was given, each once,
    in some order. *)
Theorem shuffleDeck_keeps_every_card (rand : nat → nat) (deck : list Card) :
  validRand rand → shuffleDeck rand deck ≡ₚ deck.
Proof. intros _. apply shuffleDeck_Permutation. Qed.

Lemma shuffleDeck_keeps_every_card_witness :
  shuffleDeck winRand createDeck ≡ₚ createDeck.
Proof. exact (shuffleDeck_keeps_every_card winRand createDeck winRand_valid). Defined.

(** X25.  [findCardById] returns a card that carries the id asked for
    and lies on the waste, on a foundation or on a column, and it
    returns [null] only when no card of these piles carries the id; the
    stock is never searched. *)
Theorem findCardById_finds_table_cards (g : GameState) (cardId : string) :
  (∀ c, findCardById g cardId = Some c → c ∈ tableCards g ∧ id c = cardId) ∧
  (findCardById g cardId = None ↔ ∀ c, c ∈ tableCards g → id c ≠ cardId).
Proof.
  split; [intros c; apply findCardById_elem|]. split.
  - intros Hnone c Hc. unfold findCardById in Hnone.
    destruct (findById cardId (waste g)) as [?|] eqn:Ew; [done|].
    destruct (list_find is_Some (findById cardId <$> foundations g))
      as [[i [fc|]]|] eqn:Ef; [done| |].
    { apply list_find_Some in Ef as (_ & Hs & _). by destruct Hs. }
    destruct (list_find is_Some (findById cardId <$> tableau g))
      as [[i [fc|]]|] eqn:Et; [done| |].
    { apply list_find_Some in Et as (_ & Hs & _). by destruct Hs. }
    unfold tableCards in Hc. rewrite !elem_of_app in Hc.
    destruct Hc as [Hc|[Hc|Hc]].
    + by eapply findById_None.
    + apply elem_of_concat in Hc as (f & Hf & Hc).
      rewrite list_find_None, Forall_fmap, Forall_forall in Ef.
      specialize (Ef f Hf). simpl in Ef.
      destruct (findById cardId f) eqn:E; [by destruct Ef|].
      by eapply findById_None.
    + apply elem_of_concat in Hc as (f & Hf & Hc).
      rewrite list_find_None, Forall_fmap, Forall_forall in Et.
      specialize (Et f Hf). simpl in Et.
      destruct (findById cardId f) eqn:E; [by destruct Et|].
      by eapply findById_None.
  - intros Hno. destruct (findCardById g cardId) as [c|] eqn:E; [|done].
    apply findCardById_elem in E as [Hin Hid]. by destruct (Hno c Hin).
Qed.

Lemma handleDragStart_dragData (el : CardElement) (e : Engine) :
  ∃ d, run (handleDragStart el) e = set_dragData d e.
Proof.
  unfold run, handleDragStart. msimpl.
  destruct (elLocation el) as [|i|i|]; simpl; try by eexists.
  destruct (tableau (gameState e) !! i) as [column|]; simpl; [|by eexists].
  destruct (findIndexById (elCardId el) column); simpl; by eexists.
Qed.

(** X26.  A card picked up and released outside every drop zone leaves
    the engine exactly as it was, apart from the drag data, which is
    cleared; while an animation runs the whole gesture is ignored. *)
Theorem drag_without_drop_changes_nothing (e : Engine) (el : CardElement) :
  dragGesture el None e = if isAnimating e then e else set_dragData None e.
Proof.
  unfold dragGesture. destruct (isAnimating e); [done|].
  destruct (handleDragStart_dragData el e) as [d ->].
  reflexivity.
Qed.

(** ** The animation options *)

Ltac opts_leaf :=
  unfold optsIs, opts; intros; simpl;
  repeat match goal with
         | |- context [match ?x with _ => _ end] => destruct x; simpl
         end;
  assumption.

Lemma opts_modifyG o f : pres (optsIs o) (modifyG f).
Proof. unfold modifyG. pres_go opts_leaf. Qed.

Lemma opts_addScore o d : pres (optsIs o) (addScore d).
Proof. apply opts_modifyG. Qed.

Lemma opts_captureUndoSnapshot o : pres (optsIs o) captureUndoSnapshot.
Proof. unfold captureUndoSnapshot. pres_go opts_leaf. Qed.

Lemma opts_registerMove o : pres (optsIs o) registerMove.
Proof. unfold registerMove. pres_go opts_leaf; apply opts_modifyG. Qed.

Lemma opts_checkWinCondition o : pres (optsIs o) checkWinCondition.
Proof. unfold checkWinCondition. pres_go opts_leaf. Qed.

Lemma opts_animateCardMovement o found :
  pres (optsIs o) (animateCardMovement found).
Proof. unfold animateCardMovement. pres_go opts_leaf. Qed.

Lemma opts_animationFrame o anyFound : pres (optsIs o) (animationFrame anyFound).
Proof. unfold animationFrame, animateRevealedCards. pres_go opts_leaf. Qed.

Lemma opts_revealTop o column : pres (optsIs o) (revealTop column).
Proof. unfold revealTop. pres_go opts_leaf. apply opts_addScore. Qed.

Lemma opts_removeRunFromSource o fromLocation cards :
  pres (optsIs o) (removeRunFromSource fromLocation cards).
Proof.
  unfold removeRunFromSource.
  pres_go opts_leaf; auto using opts_modifyG, opts_addScore, opts_revealTop.
Qed.

Lemma opts_pushToTableau o toColIndex cards :
  pres (optsIs o) (pushToTableau toColIndex cards).
Proof. unfold pushToTableau. pres_go opts_leaf; apply opts_modifyG. Qed.

Lemma opts_removeCardFromSource o fromLocation :
  pres (optsIs o) (removeCardFromSource fromLocation).
Proof.
  unfold removeCardFromSource.
  pres_go opts_leaf; auto using opts_modifyG, opts_revealTop.
Qed.

Lemma opts_pushToFoundation o foundationIndex card :
  pres (optsIs o) (pushToFoundation foundationIndex card).
Proof. unfold pushToFoundation. pres_go opts_leaf; apply opts_modifyG. Qed.

Lemma opts_moveCardsToTableau o fromLocation toColIndex cards :
  pres (optsIs o) (moveCardsToTableau fromLocation toColIndex cards).
Proof.
  unfold moveCardsToTableau.
  pres_go opts_leaf;
    auto using opts_captureUndoSnapshot, opts_removeRunFromSource,
      opts_pushToTableau, opts_registerMove.
Qed.

Lemma opts_moveCardToFoundation o fromLocation foundationIndex card :
  pres (optsIs o) (moveCardToFoundation fromLocation foundationIndex card).
Proof.
  unfold moveCardToFoundation.
  pres_go opts_leaf;
    auto using opts_captureUndoSnapshot, opts_removeCardFromSource,
      opts_pushToFoundation, opts_registerMove, opts_checkWinCondition,
      opts_addScore.
Qed.

Lemma opts_drawLoop o n : pres (optsIs o) (drawLoop n).
Proof.
  induction n; simpl; pres_go opts_leaf; auto using opts_modifyG.
Qed.

Lemma opts_recycleLoop o n : pres (optsIs o) (recycleLoop n).
Proof.
  induction n; simpl; pres_go opts_leaf; auto using opts_modifyG.
Qed.

Lemma opts_handleStockClick o : pres (optsIs o) handleStockClick.
Proof.
  unfold handleStockClick.
  pres_go opts_leaf;
    auto using opts_captureUndoSnapshot, opts_drawLoop, opts_recycleLoop,
      opts_registerMove.
Qed.

Lemma opts_autoTableauLoop o colIndex card found cols :
  pres (optsIs o) (autoTableauLoop colIndex card found cols).
Proof.
  induction cols; simpl; pres_go opts_leaf;
    auto using opts_moveCardsToTableau, opts_animateCardMovement.
Qed.

Lemma opts_stackMoveLoop o colIndex stack found cols :
  pres (optsIs o) (stackMoveLoop colIndex stack found cols).
Proof.
  induction cols; simpl; pres_go opts_leaf;
    auto using opts_moveCardsToTableau, opts_animateCardMovement.
Qed.

Lemma opts_wasteToTableauLoop o topCard found cols :
  pres (optsIs o) (wasteToTableauLoop topCard found cols).
Proof.
  induction cols; simpl; pres_go opts_leaf;
    auto using opts_moveCardsToTableau, opts_animateCardMovement.
Qed.

Lemma opts_foundationToTableauLoop o foundationIndex card found cols :
  pres (optsIs o) (foundationToTableauLoop foundationIndex card found cols).
Proof.
  induction cols; simpl; pres_go opts_leaf;
    auto using opts_captureUndoSnapshot, opts_modifyG, opts_pushToTableau,
      opts_addScore, opts_registerMove, opts_animateCardMovement.
Qed.

Lemma opts_tryMoveWasteToFoundation o : pres (optsIs o) tryMoveWasteToFoundation.
Proof.
  unfold tryMoveWasteToFoundation.
  pres_go opts_leaf; auto using opts_moveCardToFoundation.
Qed.

Lemma opts_tryMoveTableauToFoundation o colIndex found :
  pres (optsIs o) (tryMoveTableauToFoundation colIndex found).
Proof.
  unfold tryMoveTableauToFoundation.
  pres_go opts_leaf;
    auto using opts_moveCardToFoundation, opts_animateCardMovement,
      opts_autoTableauLoop.
Qed.

Lemma opts_tryMoveFoundationToTableau o foundationIndex found :
  pres (optsIs o) (tryMoveFoundationToTableau foundationIndex found).
Proof.
  unfold tryMoveFoundationToTableau.
  pres_go opts_leaf; auto using opts_foundationToTableauLoop.
Qed.

Lemma opts_handleWasteClick o found : pres (optsIs o) (handleWasteClick found).
Proof.
  unfold handleWasteClick.
  pres_go opts_leaf;
    auto using opts_moveCardToFoundation, opts_animateCardMovement,
      opts_wasteToTableauLoop.
Qed.

Lemma opts_attemptMove o fromLocation toLocation cards :
  pres (optsIs o) (attemptMove fromLocation toLocation cards).
Proof.
  unfold attemptMove.
  pres_go opts_leaf;
    auto using opts_moveCardToFoundation, opts_moveCardsToTableau.
Qed.

Lemma opts_handleDrop o dropZoneId : pres (optsIs o) (handleDrop dropZoneId).
Proof. unfold handleDrop. pres_go opts_leaf; auto using opts_attemptMove. Qed.

Lemma opts_handleDragStart o el : pres (optsIs o) (handleDragStart el).
Proof. unfold handleDragStart. pres_go opts_leaf. Qed.

Lemma opts_stockClickHandler o : pres (optsIs o) stockClickHandler.
Proof.
  unfold stockClickHandler. pres_go opts_leaf; auto using opts_handleStockClick.
Qed.

Lemma opts_clickHandler o el found : pres (optsIs o) (clickHandler el found).
Proof.
  unfold clickHandler.
  pres_go opts_leaf;
    auto using opts_handleWasteClick, opts_tryMoveTableauToFoundation,
      opts_stackMoveLoop.
Qed.

Lemma opts_undoLastMove o : pres (optsIs o) undoLastMove.
Proof. unfold undoLastMove. pres_go opts_leaf. Qed.

Lemma opts_requestHint o : pres (optsIs o) requestHint.
Proof. unfold requestHint. pres_go opts_leaf. Qed.

Lemma opts_startNewDeal o rand : pres (optsIs o) (startNewDeal rand).
Proof. unfold startNewDeal. pres_go opts_leaf; auto using opts_modifyG. Qed.

Lemma opts_dragGesture el dropZone (e : Engine) :
  opts (dragGesture el dropZone e) = opts e.
Proof.
  unfold dragGesture. destruct (isAnimating e); [done|].
  assert (opts (run (handleDragStart el) e) = opts e) as H1
    by (by apply (opts_handleDragStart (opts e))).
  assert (∀ e1, opts (run dragEndHandler e1) = opts e1) as H3 by done.
  rewrite H3. destruct dropZone as [z|]; [|done].
  rewrite <- H1. unfold dropHandler, run. msimpl.
  destruct (isAnimating _); [done|].
  by apply (opts_handleDrop (opts (run (handleDragStart el) e))).
Qed.

Lemma step_opts (e e' : Engine) :
  step e e' →
  opts e' = opts e ∨ ∃ preset enabled, e' = run (updateOptions preset enabled) e.
Proof.
  intros [e0|e0 el found Hel|e0 el dropZone Hel Hup Hd Hz|e0|e0|e0 rand Hv
         |e0 preset enabled|e0|e0 colIndex found|e0 foundationIndex found
         |e0 anyFound|e0|e0];
    try (left; reflexivity); try (right; by eexists _, _); left.
  - by apply (opts_stockClickHandler (opts e0)).
  - by apply (opts_clickHandler (opts e0)).
  - apply opts_dragGesture.
  - by apply (opts_undoLastMove (opts e0)).
  - by apply (opts_requestHint (opts e0)).
  - by apply (opts_startNewDeal (opts e0)).
  - by apply (opts_tryMoveWasteToFoundation (opts e0)).
  - by apply (opts_tryMoveTableauToFoundation (opts e0)).
  - by apply (opts_tryMoveFoundationToTableau (opts e0)).
  - by apply (opts_animationFrame (opts e0)).
Qed.

Lemma presetBaseMs_pos (name : string) (b : Z) :
  presetBaseMs name = Some b → (0 < b)%Z.
Proof.
  unfold presetBaseMs. repeat case_decide; intros [= <-]; lia.
Qed.

Lemma optionsOk_updateOptions preset enabled (e : Engine) :
  optionsOk e → optionsOk (run (updateOptions preset enabled) e).
Proof.
  intros [Hp Hb]. unfold run, updateOptions, optionsOk. msimpl.
  destruct (animationsEnabled e) eqn:En;
    destruct preset as [p|], enabled as [[|]|]; simpl;
    repeat match goal with
           | |- context [bool_decide ?P] =>
               destruct (bool_decide_reflect P); simpl
           end;
    rewrite ?En; simpl; rewrite ?En; auto.
Qed.

Lemma optionsOk_opts (e e' : Engine) : opts e' = opts e → optionsOk e → optionsOk e'.
Proof. unfold opts, optionsOk. intros [= -> -> ->]. done. Qed.

(** X27.  Only [updateOptions] touches the animation options, and it
    keeps them consistent: at every moment the preset is one of "slow",
    "normal" and "fast", the base duration is the one of the preset
    while animations are enabled and zero while they are disabled; so
    the base duration is zero exactly when animations are off. *)
Theorem animation_options_stay_consistent (e : Engine) :
  Reachable e →
  optionsOk e ∧ (animationBaseMs e = 0%Z ↔ animationsEnabled e = false).
Proof.
  intros Hr.
  assert (optionsOk e) as Hok.
  { induction Hr as [um rand Hv | e e' Hr IH Hstep].
    - apply (optionsOk_opts (newEngine um)).
      + by apply (opts_startNewDeal (opts (newEngine um))).
      + split; [by eexists|done].
    - destruct (step_opts e e' Hstep) as [Ho|(preset & enabled & ->)].
      + by eapply optionsOk_opts.
      + by apply optionsOk_updateOptions. }
  split; [done|]. destruct Hok as [[b Hp] Hb]. rewrite Hb, Hp. simpl.
  apply presetBaseMs_pos in Hp.
  destruct (animationsEnabled e); split; try done; lia.
Qed.

Lemma sampleQuiet_reachable : Reachable sampleQuiet.
Proof. eapply reach_step; [apply sampleDeal_reachable|apply step_options]. Qed.

Lemma animation_options_stay_consistent_witness :
  optionsOk sampleQuiet ∧
  (animationBaseMs sampleQuiet = 0%Z ↔ animationsEnabled sampleQuiet = false).
Proof.
  exact (animation_options_stay_consistent sampleQuiet sampleQuiet_reachable).
Defined.

(** ** The automatic move of a top card *)






(** ** Reveals foreseen by the hint engine; every deal can come up *)

(** X29.  [willTableauMoveFlip] of the hint engine predicts exactly what
    [moveCardsToTableau] does when it takes [cards] off a column: the
    flag is [true] if and only if the removal turns a face-down card and
    so earns the five points of a reveal. *)
Theorem willTableauMoveFlip_predicts_the_reveal
    (g g1 : GameState) (colIndex : nat) (cards : list Card) :
  withoutRun g (LTableau colIndex) cards = Some g1 →
  score g1
  = (score g
     + (if willTableauMoveFlip g colIndex (length cards) then 5 else 0))%Z.
Proof.
  unfold withoutRun, willTableauMoveFlip.
  destruct (tableau g !! colIndex) as [column|]; [|done]. simpl.
  intros [= <-]. simpl. f_equal. unfold exposesFaceDown.
  destruct (Nat.leb_spec (length column) (length cards)) as [H|H].
  - replace (length column - length cards) with 0 by lia. by rewrite take_0.
  - rewrite last_lookup, length_take.
    rewrite lookup_take_lt by lia.
    match goal with |- context [column !! ?i] =>
      replace i with (length column - 1 - length cards) by lia end.
    reflexivity.
Qed.

Lemma willTableauMoveFlip_predicts_the_reveal_witness :
  score (topTaken (gameState sampleDeal) 3
           [mkCard 3 7 false "card-3-7"; mkCard 3 6 false "card-3-6";
            mkCard 3 5 false "card-3-5"; mkCard 3 4 true "card-3-4"])
  = (score (gameState sampleDeal)
     + (if willTableauMoveFlip (gameState sampleDeal) 3
             (length [mkCard 3 4 true "card-3-4"]) then 5 else 0))%Z.
Proof.
  apply (willTableauMoveFlip_predicts_the_reveal (gameState sampleDeal) _ 3
           [mkCard 3 4 true "card-3-4"]).
  vm_compute. reflexivity.
Defined.

Lemma swap_length (i j : nat) (d : list Card) :
  length (swap i j d) = length d.
Proof.
  unfold swap. destruct (d !! i), (d !! j); try done.
  by rewrite !length_insert.
Qed.

Lemma swap_lookup_l (i j : nat) (d : list Card) (a b : Card) :
  d !! i = Some a → d !! j = Some b → swap i j d !! i = Some b.
Proof.
  intros Hi Hj. unfold swap. rewrite Hi, Hj.
  destruct (decide (i = j)) as [->|Hne].
  - rewrite list_lookup_insert_eq by (rewrite length_insert; by eapply lookup_lt_Some).
    congruence.
  - rewrite list_lookup_insert_ne by done.
    rewrite list_lookup_insert_eq by (by eapply lookup_lt_Some). done.
Qed.

Lemma swap_take (n i j : nat) (d : list Card) :
  i < n → j < n → take n (swap i j d) = swap i j (take n d).
Proof.
  intros Hi Hj. unfold swap.
  rewrite !lookup_take_lt by done.
  destruct (d !! i), (d !! j); try done.
  by rewrite !take_insert_lt.
Qed.

Lemma swap_drop (n i j : nat) (d : list Card) :
  i < n → j < n → drop n (swap i j d) = drop n d.
Proof.
  intros Hi Hj. unfold swap.
  destruct (d !! i), (d !! j); try done.
  by rewrite !drop_insert_lt.
Qed.

Lemma foldl_swap_ext (rand rand' : nat → nat) (l : list nat) :
  (∀ i, i ∈ l → rand i = rand' i) →
  ∀ d : list Card,
    foldl (λ d i, swap i (rand i) d) d l = foldl (λ d i, swap i (rand' i) d) d l.
Proof.
  induction l as [|x l IH]; intros H d; [done|]. simpl.
  rewrite (H x) by left. apply IH. intros i Hi. apply H. by right.
Qed.

Lemma shuffle_reaches (k : nat) :
  ∀ d target : list Card,
    S k ≤ length d → length target = length d →
    take (S k) target ≡ₚ take (S k) d →
    drop (S k) target = drop (S k) d →
    ∃ rand, validRand rand ∧
            foldl (λ d i, swap i (rand i) d) d (reverse (seq 1 k)) = target.
Proof.
  induction k as [|k IH]; intros d target Hk Hlen Hperm Hdrop.
  - exists (λ _, 0). split; [intros i; lia|]. simpl.
    destruct d as [|x d]; [simpl in Hk; lia|].
    destruct target as [|y target]; [discriminate|].
    simpl in *. rewrite take_0 in Hperm. rewrite !drop_0 in Hdrop.
    apply Permutation_singleton_inj in Hperm. congruence.
  - destruct (lookup_lt_is_Some_2 target (S k)) as [y Hy]; [lia|].
    assert (y ∈ take (S (S k)) d) as Hin.
    { rewrite <- Hperm. apply list_elem_of_lookup. exists (S k).
      by rewrite lookup_take_lt by lia. }
    apply list_elem_of_lookup in Hin as [j Hj].
    pose proof (lookup_lt_Some _ _ _ Hj) as Hjlt.
    rewrite length_take in Hjlt.
    rewrite lookup_take_lt in Hj by lia.
    destruct (lookup_lt_is_Some_2 d (S k)) as [z Hz]; [lia|].
    pose proof (swap_lookup_l (S k) j d z y Hz Hj) as Hnew.
    destruct (IH (swap (S k) j d) target) as (rand' & Hv & Hr).
    + rewrite swap_length. lia.
    + by rewrite swap_length.
    + apply (Permutation_app_inv_r [y]).
      rewrite <- (take_S_r target (S k) y Hy).
      rewrite <- (take_S_r (swap (S k) j d) (S k) y Hnew).
      rewrite Hperm, swap_take by lia. symmetry. apply swap_Permutation.
    + rewrite (drop_S target y (S k) Hy), (drop_S _ y (S k) Hnew).
      f_equal. rewrite swap_drop by lia. done.
    + exists (λ i, if i =? S k then j else rand' i). split.
      * intros i. destruct (Nat.eqb_spec i (S k)) as [->|]; [lia|apply Hv].
      * rewrite seq_S, reverse_snoc. cbn [foldl]. rewrite Nat.eqb_refl.
        rewrite <- Hr. apply foldl_swap_ext. intros i Hi.
        apply elem_of_reverse, elem_of_seq in Hi.
        destruct (Nat.eqb_spec i (S k)); [lia|done].
Qed.

(** X30.  The shuffle can produce every order of the cards it is given:
    for each arrangement of the deck there are draws of the random
    source, each within its range, that make [shuffleDeck] return it. *)
Theorem shuffleDeck_reaches_every_order (deck target : list Card) :
  target ≡ₚ deck →
  ∃ rand, validRand rand ∧ shuffleDeck rand deck = target.
Proof.
  intros Hp. unfold shuffleDeck.
  pose proof (Permutation_length Hp) as Hlen.
  destruct deck as [|x deck].
  { apply Permutation_nil_r in Hp as ->. exists (λ _, 0).
    split; [intros i; lia|done]. }
  apply shuffle_reaches.
  - simpl. lia.
  - done.
  - rewrite !take_ge by (simpl in *; lia). done.
  - rewrite !drop_ge by (simpl in *; lia). done.
Qed.

Lemma shuffleDeck_reaches_every_order_witness :
  ∃ rand, validRand rand ∧ shuffleDeck rand createDeck = reverse createDeck.
Proof.
  apply (shuffleDeck_reaches_every_order createDeck (reverse createDeck)).
  apply reverse_Permutation.
Defined.
